(** * Commit graph layout of CommitModel (src/ui/CommitList.cpp)

    A shallow embedding of the lane ("frontier") bookkeeping, the colour
    allocator, the per-row segment routing and the pagination loop of
    [CommitModel], together with the properties of the layout engine; and
    of what the view makes of the model: [setPathspec], [setReference], the
    slot of the status watcher, [CommitList::findCommit] and
    [CommitDelegate::updateRefs].

    Conventions of the embedding:
    - a valid [git::Commit] is an element of an abstract type [Commit] with
      decidable equality ([operator==]); the null commit [git::Commit()] is
      [None] where the source can hold one (the status row, the default
      argument of [taintedColor]);
    - [git::Commit::parents] is the function [commit_parents];
    - [indexOf] returns [None] where the source returns [-1];
    - a [git::RevWalk] is the list of commits it has still to yield; the
      default-constructed (invalid) walker is [None];
    - [QVector::operator[]] outside the vector has no defined behaviour:
      the embedding returns [None] there;
    - [nextColor] loops [forever]: the embedding runs the search with fuel
      and returns [None] when the fuel runs out;
    - [findCommit] runs on the model of commits (not on the list of
      [setCommits]); the date of the committer is a number, and the loop is
      run with fuel for the rows and for what the walker has left. *)

From stdpp Require Import base option list gmap strings.

(** ** Segments *)

Inductive GraphSegment :=
  | Dot | Top | Middle | Bottom | Cross | LeftIn | LeftOut | RightIn | RightOut.

#[global] Instance GraphSegment_eq_dec : EqDecision GraphSegment.
Proof. solve_decision. Defined.

(** ** Generic loops of the option monad *)

(** [foreach (x, l) body] where [body] may fail. *)
Fixpoint foreach {A B : Type} (body : B → A → option A) (l : list B) (a : A)
  : option A :=
  match l with
  | [] => Some a
  | x :: l' => a' ← body x a; foreach body l' a'
  end.

(** [for (int i = lo; n times; ++i) body]. *)
Fixpoint for_loop {A : Type} (body : nat → A → option A) (lo n : nat) (a : A)
  : option A :=
  match n with
  | 0 => Some a
  | S n' => a' ← body lo a; for_loop body (S lo) n' a'
  end.

(** ** External collaborators *)

(** What the layout engine takes from the repository backend ([git::Commit],
    [git::Reference], [git::RevWalk]). [ref_walk r sort refsAll pathspec]
    is the sequence of commits that the walker made by [resetWalker] for
    [r] yields through [next(pathspec)]: the walker of [r] with the given
    sort flags, after the pushes of the upstream branch, of MERGE_HEAD and,
    when [refsAll] is set, of every reference that is not a stash. *)
Class Repository (Commit Reference : Type) := {
  commit_eq_dec :: EqDecision Commit;
  commit_parents : Commit → list Commit;
  isHead : Reference → bool;
  target : Reference → Commit;
  ref_walk : Reference → Z → bool → string → list Commit
}.

(** What it takes from the theme: [QColor::name()] (the key of the usage
    map of [nextColor]), [kTaintedColor], the invalid colour [QColor()] and
    the ordered palette [Application::theme()->branchTopologyEdges()]. *)
Class Theme (QColor : Type) := {
  name : QColor → string;
  kTaintedColor : QColor;
  invalidColor : QColor;
  branchTopologyEdges : list QColor
}.

(** The sort flags of libgit2. *)
Definition GIT_SORT_NONE : Z := 0.
Definition GIT_SORT_TOPOLOGICAL : Z := 1.
Definition GIT_SORT_TIME : Z := 2.

Section CommitModel.

Context {Commit Reference QColor Diff : Type}.
Context {repo : Repository Commit Reference} {theme : Theme QColor}.

(** ** Data model *)

Record Parent := mkParent {
  commit : Commit;
  color : QColor;
  tainted : bool
}.

Record Segment := mkSegment {
  segment : GraphSegment;
  segment_color : QColor
}.

Definition Column : Type := list Segment.

Record Row := mkRow {
  row_commit : option Commit;
  row_columns : list Column
}.

(** The state of [QFutureWatcher<git::Diff> mStatus] that the model reads:
    [isFinished()] and the results of its future; a result is [None] when
    the diff it holds is not valid. *)
Record StatusWatcher := mkStatusWatcher {
  isFinished : bool;
  results : list (option Diff)
}.

Record CommitModel := mkCommitModel {
  mStatus : StatusWatcher;
  mPathspec : string;
  mRef : option Reference;
  mWalker : option (list Commit);
  mRows : list Row;
  mParents : list Parent;
  mRefsAll : bool;
  mSortDate : bool;
  mCleanStatus : bool;
  mGraphVisible : bool
}.

(** [Parent::taintedColor(commit = git::Commit())]. *)
Definition taintedColor (p : Parent) (c : option Commit) : QColor :=
  if tainted p && negb (bool_decide (Some (commit p) = c))
  then kTaintedColor else color p.

(** ** nextColor *)

(** [counts.value(key)]: zero for a key the map does not hold. *)
Definition counts_value (counts : gmap string nat) (key : string) : nat :=
  default 0 (counts !! key).

(** [foreach (parent, mParents) counts[parent.color.name()]++]. *)
Definition count_colors (mParents : list Parent) : gmap string nat :=
  foldl (λ counts parent,
           <[name (color parent) :=
               S (counts_value counts (name (color parent)))]> counts)
        ∅ mParents.

(** One pass of the inner [foreach] over the palette: the first colour
    whose count is [count], with its position in the palette. *)
Definition first_with_count (counts : gmap string nat) (colors : list QColor)
    (count : nat) : option (nat * QColor) :=
  list_find (λ c, counts_value counts (name c) = count) colors.

(** The [forever] loop, with fuel. *)
Fixpoint nextColor_search (fuel : nat) (counts : gmap string nat)
    (colors : list QColor) (count : nat) : option QColor :=
  match fuel with
  | 0 => None
  | S fuel' =>
      match first_with_count counts colors count with
      | Some (_, c) => Some c
      | None => nextColor_search fuel' counts colors (S count)
      end
  end.

(** [nextColor()]. The fuel is one more than the number of lanes, which is
    as good as any larger fuel (see [nextColor_search_fuel]). *)
Definition nextColor (mParents : list Parent) : option QColor :=
  nextColor_search (S (length mParents)) (count_colors mParents)
                   branchTopologyEdges 0.

(** The number of lanes whose colour has the name of [c]. *)
Definition usage (mParents : list Parent) (c : QColor) : nat :=
  length (filter (λ p, name (color p) = name c) mParents).

(** ** indexOf and contains *)

(** The commits of the lanes, in the order of the lanes. *)
Definition lane_commits (mParents : list Parent) : list Commit :=
  commit <$> mParents.

(** The commits of the rows laid out so far: those of [mRows] and those of
    the batch. *)
Definition emitted (mRows rows : list Row) : list (option Commit) :=
  row_commit <$> (mRows ++ rows).

(** [indexOf(commit)]: the first lane that holds the commit. *)
Definition indexOf (mParents : list Parent) (c : Commit) : option nat :=
  fst <$> list_find (λ p, commit p = c) mParents.

(** [contains(commit, rows)] reads [mRows] too. The row of the status has
    the null commit, which equals no valid commit. *)
Definition contains (mRows : list Row) (c : Commit) (rows : list Row) : bool :=
  existsb (λ row, bool_decide (row_commit row = Some c)) mRows
  || existsb (λ row, bool_decide (row_commit row = Some c)) rows.

(** ** columns *)

(** [columns[i] << s]. *)
Definition push (cols : list Column) (i : nat) (s : Segment)
  : option (list Column) :=
  column ← cols !! i; Some (<[i := column ++ [s]]> cols).

(** [for (j = lo; j < hi; ++j) columns[j] << Segment(Cross, color)]. *)
Definition push_cross (col : QColor) (lo hi : nat) (cols : list Column)
  : option (list Column) :=
  for_loop (λ j cols, push cols j (mkSegment Cross col)) lo (hi - lo) cols.

(** The successors of the lane of [parent] in the row of [c]. *)
Definition successors_of (c : Commit) (parent : Parent) : list Commit :=
  if bool_decide (commit parent = c) then commit_parents (commit parent)
  else [commit parent].

(** The colour of the path from the lane of [parent] to lane [index] of the
    next row. *)
Definition path_color (c : Commit) (mParents : list Parent) (parent : Parent)
    (successors : list Commit) (index : nat) : option QColor :=
  if bool_decide (length successors = 1)
  then Some (taintedColor parent (Some c))
  else color <$> mParents !! index.

(** The body of [foreach (successor, successors)]: one path from lane [i]. *)
Definition route (c : Commit) (mParents : list Parent) (parent : Parent)
    (successors : list Commit) (i : nat) (successor : Commit)
    (cols : list Column) : option (list Column) :=
  match indexOf mParents successor with
  | None => Some cols
  | Some index =>
      col ← path_color c mParents parent successors index;
      if bool_decide (index < i) then
        cols ← push cols index (mkSegment RightIn col);
        cols ← push_cross col (index + 1) i cols;
        push cols i (mkSegment LeftOut col)
      else if bool_decide (i < index) then
        cols ← push cols i (mkSegment RightOut col);
        cols ← push_cross col (i + 1) index cols;
        let cols :=
          if bool_decide (index = length cols) then cols ++ [[]] else cols in
        push cols index (mkSegment LeftIn col)
      else
        push cols index (mkSegment Bottom col)
  end.

(** The segments that the path from lane [i] to lane [index] adds to
    column [k], as the layout describes them: a curve into the target
    lane, a crossing on every lane strictly between, a curve out of the
    source lane; a straight line down when the lane does not change. *)
Definition path_segments (i index : nat) (col : QColor) (k : nat)
  : list Segment :=
  if bool_decide (index < i) then
    if bool_decide (k = index) then [mkSegment RightIn col]
    else if bool_decide (index < k < i) then [mkSegment Cross col]
    else if bool_decide (k = i) then [mkSegment LeftOut col]
    else []
  else if bool_decide (i < index) then
    if bool_decide (k = i) then [mkSegment RightOut col]
    else if bool_decide (i < k < index) then [mkSegment Cross col]
    else if bool_decide (k = index) then [mkSegment LeftIn col]
    else []
  else
    if bool_decide (k = i) then [mkSegment Bottom col] else [].

(** The paths that the loop over the successors [l] of lane [i] draws, in
    its order: the source lane, the target lane and the colour of each
    successor that is found in the next row. *)
Definition paths_of (c : Commit) (mParents : list Parent) (parent : Parent)
    (successors : list Commit) (i : nat) (l : list Commit)
  : list (nat * nat * QColor) :=
  omap (λ successor,
          index ← indexOf mParents successor;
          col ← path_color c mParents parent successors index;
          Some (i, index, col)) l.

(** The paths of the lanes [parents], the first of which is lane [lo]. *)
Fixpoint lanes_paths (c : Commit) (mParents : list Parent) (lo : nat)
    (parents : list Parent) : list (nat * nat * QColor) :=
  match parents with
  | [] => []
  | parent :: parents' =>
      paths_of c mParents parent (successors_of c parent) lo
               (successors_of c parent)
      ++ lanes_paths c mParents (S lo) parents'
  end.

(** Column [k] of the row of [c], as the layout describes it: the line
    that comes in from above, the segments of the paths in the order of
    the lanes and of their successors, and the mark of the lane last. *)
Definition row_column (c : Commit) (parents : list Parent) (root : bool)
    (mParents : list Parent) (k : nat) : list Segment :=
  let incoming := if root then length parents - 1 else length parents in
  (if bool_decide (k < incoming)
   then from_option (λ p, [mkSegment Top (taintedColor p None)]) []
                    (parents !! k)
   else [])
  ++ flat_map (λ '(i, index, col), path_segments i index col k)
              (lanes_paths c mParents 0 parents)
  ++ from_option
       (λ p, [mkSegment (if bool_decide (commit p = c) then Dot else Middle)
                        (taintedColor p None)])
       [] (parents !! k).

(** [columns(commit, parents, root)]; [mParents] is the next row. *)
Definition columns (c : Commit) (parents : list Parent) (root : bool)
    (mParents : list Parent) : option (list Column) :=
  let count := length parents in
  let cols := replicate count [] in
  let incoming := if root then count - 1 else count in
  cols ← for_loop (λ i cols,
            parent ← parents !! i;
            push cols i (mkSegment Top (taintedColor parent None)))
          0 incoming cols;
  cols ← for_loop (λ i cols,
            parent ← parents !! i;
            let successors := successors_of c parent in
            foreach (route c mParents parent successors i) successors cols)
          0 count cols;
  for_loop (λ i cols,
      parent ← parents !! i;
      let dot := bool_decide (commit parent = c) in
      push cols i (mkSegment (if dot then Dot else Middle)
                             (taintedColor parent None)))
    0 count cols.

(** The kinds of the segments of a row, column by column. *)
Definition row_segments (row : Row) : list (list GraphSegment) :=
  fmap (M := list) (fmap (M := list) segment) (row_columns row).

(** ** fetchMore *)

(** "Add root commits." *)
Definition add_root (c : Commit) (mParents : list Parent)
  : option (bool * list Parent) :=
  match indexOf mParents c with
  | None =>
      col ← nextColor mParents; Some (true, mParents ++ [mkParent c col false])
  | Some _ => Some (false, mParents)
  end.

(** "Replace commit with its parents." *)
Definition replacements_of (mRows : list Row) (rows : list Row)
    (mParents : list Parent) (c : Commit) : list Commit :=
  filter (λ parent, indexOf mParents parent = None
                    ∧ contains mRows parent rows = false)
         (commit_parents c).

(** [foreach (replacement, replacements)
      mParents.append(Parent(replacement, nextColor()))]. *)
Definition append_parents (replacements : list Commit)
    (mParents : list Parent) : option (list Parent) :=
  foreach (λ replacement mParents,
             col ← nextColor mParents;
             Some (mParents ++ [mkParent replacement col false]))
          replacements mParents.

(** "Set parents for next row." *)
Definition set_parents (c : Commit) (replacements : list Commit)
    (mParents : list Parent) : option (list Parent) :=
  match indexOf mParents c with
  | None => Some mParents
  | Some index =>
      match mParents !! index with
      | None => Some mParents
      | Some parent =>
          let mParents := delete index mParents in
          match replacements with
          | [] => Some mParents
          | replacement :: replacements =>
              let mParents :=
                take index mParents
                ++ mkParent replacement (color parent) false
                   :: drop index mParents in
              append_parents replacements mParents
          end
      end
  end.

(** The lanes of the row of [c] and of the row after it: "Add root
    commits", "Remember current row", "Replace commit with its parents" and
    "Set parents for next row". The result is [(root, parents, mParents)]
    as [columns] is called with. *)
Definition advance (mRows rows : list Row) (c : Commit)
    (mParents : list Parent) : option (bool * list Parent * list Parent) :=
  '(root, parents) ← add_root c mParents;
  let replacements := replacements_of mRows rows parents c in
  mParents ← set_parents c replacements parents;
  Some (root, parents, mParents).

(** The body of the [while] loop up to [rows.append]: the lanes and the
    rows of the batch after [c] is laid out. [graph] is
    [mGraphVisible && mPathspec.isEmpty()]. *)
Definition fetch_commit (graph : bool) (mRows : list Row) (c : Commit)
    (st : list Parent * list Row) : option (list Parent * list Row) :=
  '(root, parents, mParents) ← advance mRows st.2 c st.1;
  row ← (if graph then columns c parents root mParents else Some []);
  Some (mParents, st.2 ++ [mkRow (Some c) row]).

(** The [while] loop. [c] is the commit in hand, [walker] what the walker
    has still to yield, [i] the counter. The result holds the commit in
    hand when the loop is left ([None] when it is not valid). *)
Fixpoint fetch_loop (graph : bool) (mRows : list Row) (i : nat) (c : Commit)
    (walker : list Commit) (st : list Parent * list Row)
  : option (option Commit * list Commit * (list Parent * list Row)) :=
  st' ← fetch_commit graph mRows c st;
  if bool_decide (64 ≤ i) then Some (Some c, walker, st')
  else
    match walker with
    | [] => Some (None, [], st')
    | c' :: walker' => fetch_loop graph mRows (S i) c' walker' st'
    end.

(** "Update the model." and "Invalidate walker." *)
Definition set_fetched (m : CommitModel) (walker : option (list Commit))
    (mParents : list Parent) (rows : list Row) : CommitModel :=
  mkCommitModel (mStatus m) (mPathspec m) (mRef m) walker
    (mRows m ++ rows) mParents
    (mRefsAll m) (mSortDate m) (mCleanStatus m) (mGraphVisible m).

(** [fetchMore]. The first [next] of a walker that is not valid or has
    nothing left yields the null commit: no row is added and the walker is
    invalidated. *)
Definition fetchMore (m : CommitModel) : option CommitModel :=
  match mWalker m with
  | None | Some [] => Some (set_fetched m None (mParents m) [])
  | Some (c :: walker) =>
      let graph := mGraphVisible m && bool_decide (mPathspec m = "") in
      '(last, walker', (mParents', rows)) ←
        fetch_loop graph (mRows m) 0 c walker (mParents m, []);
      Some (set_fetched m (if last is Some _ then Some walker' else None)
                        mParents' rows)
  end.

(** [canFetchMore]: [mWalker.isValid()]. *)
Definition canFetchMore (m : CommitModel) : bool :=
  bool_decide (is_Some (mWalker m)).

(** ** resetWalker *)

(** [status()]. *)
Definition status (m : CommitModel) : option Diff :=
  if negb (isFinished (mStatus m)) then None
  else match results (mStatus m) with
       | [] => None
       | result :: _ => result
       end.

Definition status_head (m : CommitModel) : bool :=
  match mRef m with None => true | Some r => isHead r end.

Definition status_valid (m : CommitModel) : bool :=
  mCleanStatus m || negb (isFinished (mStatus m))
  || bool_decide (is_Some (status m)).

(** The condition under which [resetWalker] adds the status row. *)
Definition status_row_shown (m : CommitModel) : bool :=
  status_head m && status_valid m && bool_decide (mPathspec m = "").

(** "Update status row.": the lanes and the rows after it. *)
Definition status_row (m : CommitModel) : option (list Parent * list Row) :=
  if status_row_shown m then
    match mRef m with
    | Some r =>
        if mGraphVisible m && isFinished (mStatus m) then
          col ← nextColor [];
          Some ([mkParent (target r) col true],
                [mkRow None [[mkSegment Bottom kTaintedColor;
                              mkSegment Dot invalidColor]]])
        else Some ([], [mkRow None []])
    | None => Some ([], [mkRow None []])
    end
  else Some ([], []).

(** The sort flags of the walker. *)
Definition walker_sort (m : CommitModel) : Z :=
  if mGraphVisible m then
    if mSortDate m
    then Z.lor (Z.lor GIT_SORT_NONE GIT_SORT_TOPOLOGICAL) GIT_SORT_TIME
    else Z.lor GIT_SORT_NONE GIT_SORT_TOPOLOGICAL
  else if negb (mSortDate m) then Z.lor GIT_SORT_NONE GIT_SORT_TOPOLOGICAL
  else GIT_SORT_NONE.

(** "Begin walking commits.": a new walker for a valid reference; the
    walker is left as it is otherwise. *)
Definition begin_walk (m : CommitModel) : option (list Commit) :=
  match mRef m with
  | Some r => Some (ref_walk r (walker_sort m) (mRefsAll m) (mPathspec m))
  | None => mWalker m
  end.

(** [resetWalker]: the lanes and the rows are cleared, the status row is
    added when it is shown, the walker is made anew for a valid reference,
    and one batch is fetched when the walker is valid. *)
Definition resetWalker (m : CommitModel) : option CommitModel :=
  '(parents, rows) ← status_row m;
  let m' :=
    mkCommitModel (mStatus m) (mPathspec m) (mRef m) (begin_walk m)
      rows parents
      (mRefsAll m) (mSortDate m) (mCleanStatus m) (mGraphVisible m) in
  if canFetchMore m' then fetchMore m' else Some m'.

(** ** States the model can be in *)

(** The lanes and the rows are written by [resetWalker] and [fetchMore]
    only; everything else ([setReference], [setPathspec], [resetSettings],
    the status thread) writes the other members. *)
Inductive reachable : CommitModel → Prop :=
  | reachable_reset m m' :
      resetWalker m = Some m' → reachable m'
  | reachable_fetch m m' :
      reachable m → fetchMore m = Some m' → reachable m'
  | reachable_other m m' :
      reachable m → mParents m' = mParents m → mRows m' = mRows m →
      reachable m'.

End CommitModel.

Arguments Parent : clear implicits.
Arguments Segment : clear implicits.
Arguments Row : clear implicits.
Arguments StatusWatcher : clear implicits.
Arguments CommitModel : clear implicits.

(** ** What the view takes from a commit besides its parents *)

(** [commit.committer().date()], as a number. *)
Class Signatures (Commit : Type) := {
  committer_date : Commit → Z
}.

Section CommitListView.

Context {Commit Reference QColor Diff : Type}.
Context {repo : Repository Commit Reference} {theme : Theme QColor}.
Context {signatures : Signatures Commit}.

(** ** The other members of CommitModel *)

(** [rowCount]. *)
Definition rowCount (m : CommitModel Commit Reference QColor Diff) : nat :=
  length (mRows m).

(** [setPathspec]: nothing happens for the pathspec the model has. *)
Definition setPathspec (pathspec : string)
    (m : CommitModel Commit Reference QColor Diff)
  : option (CommitModel Commit Reference QColor Diff) :=
  if bool_decide (mPathspec m = pathspec) then Some m
  else
    resetWalker
      (mkCommitModel (mStatus m) pathspec (mRef m) (mWalker m) (mRows m)
         (mParents m) (mRefsAll m) (mSortDate m) (mCleanStatus m)
         (mGraphVisible m)).

(** [setReference]. *)
Definition setReference (ref : option Reference)
    (m : CommitModel Commit Reference QColor Diff)
  : option (CommitModel Commit Reference QColor Diff) :=
  resetWalker
    (mkCommitModel (mStatus m) (mPathspec m) ref (mWalker m) (mRows m)
       (mParents m) (mRefsAll m) (mSortDate m) (mCleanStatus m)
       (mGraphVisible m)).

(** [!mRows.isEmpty() && !mRows.first().commit.isValid()]. *)
Definition status_visible (m : CommitModel Commit Reference QColor Diff)
  : bool :=
  match mRows m with
  | [] => false
  | row :: _ => negb (bool_decide (is_Some (row_commit row)))
  end.

(** The slot of the constructor for [QFutureWatcher::finished]: the model
    is reset, and the result is the model with the argument of the signal
    [statusFinished]. *)
Definition on_status_finished (m : CommitModel Commit Reference QColor Diff)
  : option (CommitModel Commit Reference QColor Diff * bool) :=
  m' ← resetWalker m; Some (m', status_visible m').

(** [data(index, CommitRole)] as the view reads it through
    [value<git::Commit>()]: the commit of the row, the null commit for the
    row of the status. *)
Definition data_CommitRole (m : CommitModel Commit Reference QColor Diff)
    (row : nat) : option (option Commit) :=
  row_commit <$> mRows m !! row.

(** ** CommitList::findCommit on the model of commits *)

(** The end of the body of the loop: "Load more commits." *)
Definition load_more (i : nat) (m : CommitModel Commit Reference QColor Diff)
  : option (CommitModel Commit Reference QColor Diff) :=
  if bool_decide (i = rowCount m - 1) && canFetchMore m
  then fetchMore m else Some m.

(** The loop of [findCommit] from row [i], with fuel. The result is the
    index that is returned ([None] for [QModelIndex()]) and the model,
    which the loop may have made fetch. *)
Fixpoint findCommit_loop (fuel : nat) (c : Commit) (i : nat)
    (m : CommitModel Commit Reference QColor Diff)
  : option (option nat * CommitModel Commit Reference QColor Diff) :=
  match fuel with
  | 0 => None
  | S fuel' =>
      if bool_decide (i < rowCount m) then
        tmp ← data_CommitRole m i;
        match tmp with
        | Some tmp =>
            if bool_decide (tmp = c) then Some (Some i, m)
            else if bool_decide (committer_date tmp < committer_date c)%Z
                 then Some (None, m)
                 else m' ← load_more i m; findCommit_loop fuel' c (S i) m'
        | None => m' ← load_more i m; findCommit_loop fuel' c (S i) m'
        end
      else Some (None, m)
  end.

(** [findCommit]. A null commit stands for the uncommitted changes. Every
    pass of the loop moves to the next row and the rows grow by what the
    walker has left only, so the fuel is one more than the rows and what
    the walker has left together. *)
Definition findCommit (c : option Commit)
    (m : CommitModel Commit Reference QColor Diff)
  : option (option nat * CommitModel Commit Reference QColor Diff) :=
  match c with
  | None =>
      match mRows m !! 0 with
      | Some row =>
          Some (if bool_decide (is_Some (row_commit row)) then None
                else Some 0, m)
      | None => Some (None, m)
      end
  | Some c =>
      findCommit_loop
        (S (rowCount m + length (default [] (mWalker m)))) c 0 m
  end.


(** The commits of the rows, without the row of the status. *)
Definition row_commits (rows : list (Row Commit QColor)) : list Commit :=
  omap row_commit rows.

(** What the model shows and has still to show: the commits of the rows,
    then what the walker has left. *)
Definition history (m : CommitModel Commit Reference QColor Diff)
  : list Commit :=
  row_commits (mRows m) ++ default [] (mWalker m).

End CommitListView.

(** ** CommitDelegate::updateRefs *)

(** A [Badge::Label] as [updateRefs] makes it: the text, whether it is
    bold, and whether it is a tag where the third argument is given. *)
Record Label := mkLabel {
  label_text : string;
  label_bold : bool;
  label_tag : option bool
}.

(** What [updateRefs] reads of a reference: [name()], [isHead()],
    [isTag()] and the id of [target()], [None] when the target is not
    valid. *)
Record RefData (Id : Type) := mkRefData {
  ref_name : string;
  ref_isHead : bool;
  ref_isTag : bool;
  ref_target : option Id
}.

Arguments mkRefData {Id}.
Arguments ref_name {Id}.
Arguments ref_isHead {Id}.
Arguments ref_isTag {Id}.
Arguments ref_target {Id}.

Section CommitDelegate.

Context {Id : Type} `{Countable Id}.

(** [mRefs[id].append(label)]. *)
Definition append_label (mRefs : gmap Id (list Label)) (id : Id)
    (label : Label) : gmap Id (list Label) :=
  <[id := default [] (mRefs !! id) ++ [label]]> mRefs.

(** [mRefs.value(id)]. *)
Definition refs_value (mRefs : gmap Id (list Label)) (id : Id) : list Label :=
  default [] (mRefs !! id).

(** The loop over [mRepo.refs()]. *)
Definition append_refs (refs : list (RefData Id))
    (mRefs : gmap Id (list Label)) : gmap Id (list Label) :=
  foldl (λ mRefs ref,
           match ref_target ref with
           | Some id =>
               append_label mRefs id
                 (mkLabel (ref_name ref) (ref_isHead ref)
                          (Some (ref_isTag ref)))
           | None => mRefs
           end)
        mRefs refs.

(** [updateRefs]. [isHeadDetached] says whether the head is detached,
    [head] is [mRepo.head()]. The id of a target that is not valid is not
    defined: the result is [None] when the detached head has none. *)
Definition updateRefs (isHeadDetached : bool) (head : RefData Id)
    (refs : list (RefData Id)) : option (gmap Id (list Label)) :=
  mRefs ← (if isHeadDetached
           then id ← ref_target head;
                Some (append_label ∅ id (mkLabel (ref_name head) true None))
           else Some ∅);
  Some (append_refs refs mRefs).

(** The labels of the references that point to [id], in their order. *)
Definition labels_of (refs : list (RefData Id)) (id : Id) : list Label :=
  omap (λ ref, if bool_decide (ref_target ref = Some id)
               then Some (mkLabel (ref_name ref) (ref_isHead ref)
                                  (Some (ref_isTag ref)))
               else None) refs.

End CommitDelegate.

(** ** Concrete repositories and themes

    Commits are numbers, colours are their names. *)

Definition two_colors : Theme string := {|
  name := id;
  kTaintedColor := "#a0a0a4";
  invalidColor := "#000000";
  branchTopologyEdges := ["#2a82da"; "#da2a2a"]
|}.

Definition no_colors : Theme string := {|
  name := id;
  kTaintedColor := "#a0a0a4";
  invalidColor := "#000000";
  branchTopologyEdges := []
|}.

(** A linear history: the parent of [n + 1] is [n], and [0] is the first
    commit. The walk of a reference yields [199, 198, ..., 0]. *)
Definition chain_repo : Repository nat unit := {|
  commit_eq_dec := Nat.eq_dec;
  commit_parents := λ n, match n with 0 => [] | S k => [k] end;
  isHead := λ _, true;
  target := λ _, 199;
  ref_walk := λ _ _ _ _, rev (seq 0 200)
|}.

(** Three lanes, two of them of the first colour. *)
Definition three_lanes : list (Parent nat string) :=
  [mkParent 7 "#2a82da" false; mkParent 8 "#da2a2a" false;
   mkParent 9 "#2a82da" true].

(** A merge: [3] has the parents [1] and [2], which both have the parent
    [0]. *)
Definition merge_repo : Repository nat unit := {|
  commit_eq_dec := Nat.eq_dec;
  commit_parents := λ n,
    match n with 3 => [1; 2] | 2 => [0] | 1 => [0] | _ => [] end;
  isHead := λ _, true;
  target := λ _, 3;
  ref_walk := λ _ _ _ _, [3; 1; 2; 0]
|}.

(** A history of 66 commits in which commit [1] lists its parent [0]
    twice; every other commit [n + 1] has the parent [n]. The walk yields
    [65, 64, ..., 0]. *)
Definition twice_repo : Repository nat unit := {|
  commit_eq_dec := Nat.eq_dec;
  commit_parents := λ n,
    match n with 0 => [] | 1 => [0; 0] | S k => [k] end;
  isHead := λ _, true;
  target := λ _, 65;
  ref_walk := λ _ _ _ _, rev (seq 0 66)
|}.

(** A commit, [3], that lists the parent [1] twice and then the parent
    [2]. *)
Definition twice_more_repo : Repository nat unit := {|
  commit_eq_dec := Nat.eq_dec;
  commit_parents := λ n, match n with 3 => [1; 1; 2] | _ => [] end;
  isHead := λ _, true;
  target := λ _, 3;
  ref_walk := λ _ _ _ _, [3; 2; 1]
|}.

(** A model on a reference, before the first reset: the status has
    finished without a result, the settings are those of [resetSettings]
    on an empty configuration. *)
Definition on_reference : CommitModel nat unit string unit :=
  mkCommitModel (mkStatusWatcher true []) "" (Some ()) None [] []
                true true false true.

(** The same model without a reference, with the clean status shown. *)
Definition no_reference : CommitModel nat unit string unit :=
  mkCommitModel (mkStatusWatcher true []) "" None None [] []
                true true true true.

(** A model about to lay out the linear history [2], [1], [0]. *)
Definition three_commits : CommitModel nat unit string unit :=
  mkCommitModel (mkStatusWatcher true []) "" (Some ()) (Some [2; 1; 0]) [] []
                true true false true.

(** A model on HEAD whose status has finished with a valid diff. *)
Definition head_with_changes : CommitModel nat unit string unit :=
  mkCommitModel (mkStatusWatcher true [Some ()]) "" (Some ()) None [] []
                true true false true.

(** A model about to lay out the 200 commits of [chain_repo]. *)
Definition two_hundred_commits : CommitModel nat unit string unit :=
  mkCommitModel (mkStatusWatcher true []) "" (Some ())
                (Some (rev (seq 0 200))) [] []
                true true false true.

(** The lanes that [resetWalker] leaves for the status row when HEAD is
    the merge [3] of [merge_repo]. *)
Definition lanes_of_head : list (Parent nat string) :=
  [mkParent 3 "#2a82da" true].

(** The lanes after the merge [3] of [merge_repo] is laid out, the lane of
    [3] before, and the column of the row of [3] after the path to its
    first parent. *)
Definition lanes_after_merge : list (Parent nat string) :=
  [mkParent 1 "#2a82da" false; mkParent 2 "#da2a2a" false].

Definition lane_of_merge : Parent nat string := mkParent 3 "#2a82da" false.

Definition columns_of_merge : list (list (Segment string)) :=
  [[mkSegment Bottom "#2a82da"]].

(** The dates of the commits of these repositories: a commit with a
    larger number is newer. *)
Definition dates_by_number : Signatures nat := {|
  committer_date := Z.of_nat
|}.

(** The history of [chain_repo] with HEAD at commit [100], behind the
    commits that the walk yields first. *)
Definition behind_repo : Repository nat unit := {|
  commit_eq_dec := Nat.eq_dec;
  commit_parents := λ n, match n with 0 => [] | S k => [k] end;
  isHead := λ _, true;
  target := λ _, 100;
  ref_walk := λ _ _ _ _, rev (seq 0 200)
|}.

(** The model of [behind_repo] after the reset that follows the status:
    the row of the status and the first page of commits, with the lane of
    HEAD and the lane of the next commit. *)
Definition behind_head : CommitModel nat unit string unit :=
  default head_with_changes
    (resetWalker (repo := behind_repo) (theme := two_colors)
                 head_with_changes).

(** The model of [merge_repo] on HEAD, after the reset. *)
Definition merge_head : CommitModel nat unit string unit :=
  default head_with_changes
    (resetWalker (repo := merge_repo) (theme := two_colors)
                 head_with_changes).

(** A model on HEAD with the graph hidden. *)
Definition hidden_graph : CommitModel nat unit string unit :=
  mkCommitModel (mkStatusWatcher true [Some ()]) "" (Some ()) None [] []
                true true false false.

(** The three rows of [three_commits]. *)
Definition three_rows : CommitModel nat unit string unit :=
  default three_commits
    (fetchMore (repo := chain_repo) (theme := two_colors) three_commits).

(** The row of the merge [3] of [merge_repo] and the row of its first
    parent, laid out one after the other from the lane of the status. *)
Definition merge_row :
    list (Parent nat string) * list (Row nat string) :=
  default (lanes_of_head, [])
    (fetch_commit (repo := merge_repo) (theme := two_colors) true [] 3
                  (lanes_of_head, [])).

Definition parent_row :
    list (Parent nat string) * list (Row nat string) :=
  default merge_row
    (fetch_commit (repo := merge_repo) (theme := two_colors) true [] 1
                  merge_row).

(** A detached head at commit [3], and the references of a repository: a
    branch at [3], a tag at [1] and a reference without a target. *)
Definition detached_head : RefData nat := mkRefData "HEAD" true false (Some 3).

Definition some_refs : list (RefData nat) :=
  [mkRefData "main" false false (Some 3);
   mkRefData "v1.0" false true (Some 1);
   mkRefData "broken" false false None].

(** The model of [merge_repo] on HEAD with the graph hidden, after the
    reset. *)
Definition merge_hidden : CommitModel nat unit string unit :=
  default hidden_graph
    (resetWalker (repo := merge_repo) (theme := two_colors) hidden_graph).

(** The model of [merge_repo] after the pathspec is set. *)
Definition merge_filtered : CommitModel nat unit string unit :=
  default merge_head
    (setPathspec (repo := merge_repo) (theme := two_colors) "src" merge_head).

(** The row of the merge [3] of [merge_repo], from the lane of the
    status. *)
Definition columns_of_merge_row : list (list (Segment string)) :=
  default []
    (columns (repo := merge_repo) (theme := two_colors) 3 lanes_of_head false
             lanes_after_merge).

(** The state after [n] calls of [fetchMore]. *)
Fixpoint fetchMore_times {Commit Reference QColor Diff : Type}
    {repo : Repository Commit Reference} {theme : Theme QColor}
    (n : nat) (m : CommitModel Commit Reference QColor Diff)
  : option (CommitModel Commit Reference QColor Diff) :=
  match n with
  | 0 => Some m
  | S n' => m' ← fetchMore_times n' m; fetchMore m'
  end.

Section Properties.

Context {Commit Reference QColor Diff : Type}.
Context {repo : Repository Commit Reference} {theme : Theme QColor}.

Implicit Types (c : Commit) (p parent : Parent Commit QColor).
Implicit Types (mParents parents : list (Parent Commit QColor)).
Implicit Types (cols : list (list (Segment QColor))).
Implicit Types (m : CommitModel Commit Reference QColor Diff).

(** ** nextColor *)

Lemma count_colors_foldl mParents (acc : gmap string nat) (s : string) :
  counts_value
    (foldl (λ counts parent,
              <[name (color parent) :=
                  S (counts_value counts (name (color parent)))]> counts)
           acc mParents) s
  = counts_value acc s + length (filter (λ p, name (color p) = s) mParents).
Proof.
  revert acc. induction mParents as [|p l IH]; intros acc; simpl.
  - lia.
  - rewrite IH. rewrite filter_cons. unfold counts_value at 1.
    destruct (decide (name (color p) = s)) as [->|Hne].
    + rewrite lookup_insert_eq. simpl. unfold counts_value. lia.
    + rewrite lookup_insert_ne by done. unfold counts_value. lia.
Qed.

(** The map of [nextColor] counts, for a colour, the lanes whose colour has
    its name. *)
Lemma counts_value_usage mParents (col : QColor) :
  counts_value (count_colors mParents) (name col) = usage mParents col.
Proof.
  unfold count_colors, usage. rewrite count_colors_foldl.
  unfold counts_value. rewrite lookup_empty. done.
Qed.

Lemma usage_le_length mParents (col : QColor) :
  usage mParents col ≤ length mParents.
Proof. unfold usage. apply length_filter. Qed.

(** With an empty palette no pass of the search returns. *)
Lemma nextColor_search_nil (fuel : nat) (counts : gmap string nat) (count : nat) :
  nextColor_search (QColor := QColor) fuel counts [] count = None.
Proof. revert count. induction fuel as [|fuel IH]; intros count; simpl; auto. Qed.

(** The search from [count], when some colour has a count between [count]
    and [count + d] and none has a smaller one: it returns in pass [n] (the
    pass of [count + n]), with the first colour of the least count. *)
Lemma nextColor_search_spec (counts : gmap string nat) (colors : list QColor)
    (d count : nat) :
  (∃ y, y ∈ colors ∧ counts_value counts (name y) ≤ count + d) →
  (∀ y, y ∈ colors → count ≤ counts_value counts (name y)) →
  ∃ n k col,
    n ≤ d
    ∧ nextColor_search (S n) counts colors count = Some col
    ∧ nextColor_search n counts colors count = None
    ∧ colors !! k = Some col
    ∧ counts_value counts (name col) = count + n
    ∧ (∀ y, y ∈ colors → count + n ≤ counts_value counts (name y))
    ∧ (∀ j y, colors !! j = Some y → j < k →
              counts_value counts (name y) ≠ count + n).
Proof.
  revert count. induction d as [|d IH]; intros count [y [Hy Hle]] Hlow.
  - assert (is_Some (list_find (λ x, counts_value counts (name x) = count)
                        colors)) as [[k col] Hfind].
    { eapply list_find_elem_of; [exact Hy|]. specialize (Hlow y Hy). lia. }
    exists 0, k, col. apply list_find_Some in Hfind as Hf.
    destruct Hf as (Hk & Hv & Hfirst).
    cbn [nextColor_search]. unfold first_with_count. rewrite Hfind.
    rewrite Nat.add_0_r. repeat split; eauto with lia.
  - destruct (first_with_count counts colors count) as [[k col]|] eqn:Hfind.
    + exists 0, k, col. unfold first_with_count in Hfind.
      apply list_find_Some in Hfind as Hf. destruct Hf as (Hk & Hv & Hfirst).
      cbn [nextColor_search]. unfold first_with_count. rewrite Hfind.
      rewrite Nat.add_0_r. repeat split; eauto with lia.
    + unfold first_with_count in Hfind. apply list_find_None in Hfind as Hnone.
      rewrite Forall_forall in Hnone.
      destruct (IH (S count)) as (n & k & col & Hn & Hs & Hnn & Hk & Hv & Hmin & Hfirst).
      * exists y. split; [done|]. lia.
      * intros z Hz. specialize (Hlow z Hz). specialize (Hnone z Hz). lia.
      * exists (S n), k, col.
        replace (count + S n) with (S count + n) by lia.
        repeat split; auto; try lia.
        -- cbn [nextColor_search]. unfold first_with_count at 1.
           rewrite Hfind. exact Hs.
        -- cbn [nextColor_search]. unfold first_with_count at 1.
           rewrite Hfind. exact Hnn.
Qed.

(** More fuel does not change what the search returns. *)
Lemma nextColor_search_fuel (counts : gmap string nat) (colors : list QColor)
    (fuel extra count : nat) (col : QColor) :
  nextColor_search fuel counts colors count = Some col →
  nextColor_search (fuel + extra) counts colors count = Some col.
Proof.
  revert count. induction fuel as [|fuel IH]; intros count; [done|].
  cbn [nextColor_search Nat.add].
  destruct (first_with_count counts colors count) as [[k c']|]; [done|].
  apply IH.
Qed.

(** [nextColor] on a palette that is not empty. *)
Lemma nextColor_spec mParents :
  branchTopologyEdges ≠ [] →
  ∃ n k col,
    n ≤ length mParents
    ∧ nextColor mParents = Some col
    ∧ nextColor_search (S n) (count_colors mParents) branchTopologyEdges 0
      = Some col
    ∧ nextColor_search n (count_colors mParents) branchTopologyEdges 0 = None
    ∧ branchTopologyEdges !! k = Some col
    ∧ usage mParents col = n
    ∧ (∀ y, y ∈ branchTopologyEdges → n ≤ usage mParents y)
    ∧ (∀ j y, branchTopologyEdges !! j = Some y → j < k →
              usage mParents y ≠ n).
Proof.
  intros Hne.
  destruct branchTopologyEdges as [|c0 colors] eqn:Hpal; [done|].
  destruct (nextColor_search_spec (count_colors mParents) (c0 :: colors)
              (length mParents) 0)
    as (n & k & col & Hn & Hs & Hnn & Hk & Hv & Hmin & Hfirst).
  - exists c0. split; [left|]. rewrite counts_value_usage.
    pose proof (usage_le_length mParents c0). lia.
  - intros; lia.
  - exists n, k, col. rewrite counts_value_usage in Hv.
    repeat split; auto.
    + unfold nextColor. rewrite Hpal.
      replace (S (length mParents)) with (S n + (length mParents - n)) by lia.
      by apply nextColor_search_fuel.
    + intros y Hy. specialize (Hmin y Hy). by rewrite counts_value_usage in Hmin.
    + intros j y Hj Hlt. specialize (Hfirst j y Hj Hlt).
      by rewrite counts_value_usage in Hfirst.
Qed.

Lemma nextColor_is_Some mParents :
  branchTopologyEdges ≠ [] → is_Some (nextColor mParents).
Proof.
  intros Hne. destruct (nextColor_spec mParents Hne) as (n & k & col & _ & H & _).
  by exists col.
Qed.

(** C3: on a palette that is not empty, [nextColor] returns the first
    colour of the palette, in the order of the palette, whose usage among
    the lanes is the least usage of a palette colour; it is a function of
    the lanes and of the palette alone. The usage of a colour is the number
    of lanes whose colour has its name, as the map of the source counts. *)
Theorem nextColor_first_least_used mParents :
  branchTopologyEdges ≠ [] →
  ∃ k col,
    nextColor mParents = Some col
    ∧ branchTopologyEdges !! k = Some col
    ∧ (∀ y, y ∈ branchTopologyEdges → usage mParents col ≤ usage mParents y)
    ∧ (∀ j y, branchTopologyEdges !! j = Some y → j < k →
              usage mParents y ≠ usage mParents col).
Proof.
  intros Hne.
  destruct (nextColor_spec mParents Hne)
    as (n & k & col & _ & Hnext & _ & _ & Hk & Hu & Hmin & Hfirst).
  exists k, col. rewrite Hu. auto.
Qed.

(** C10: on a palette that is not empty the search of [nextColor] returns a
    colour of the palette in the pass of some count [n] that is at most the
    number of lanes ([n] passes are not enough, [n + 1] are, and any larger
    fuel returns the same colour); on an empty palette no number of passes
    returns. *)
Theorem nextColor_terminates mParents :
  (branchTopologyEdges ≠ [] →
   ∃ n col,
     n ≤ length mParents
     ∧ col ∈ branchTopologyEdges
     ∧ nextColor_search n (count_colors mParents) branchTopologyEdges 0 = None
     ∧ (∀ fuel, n < fuel →
          nextColor_search fuel (count_colors mParents) branchTopologyEdges 0
          = Some col)
     ∧ nextColor mParents = Some col)
  ∧ (branchTopologyEdges = [] →
     ∀ fuel,
       nextColor_search fuel (count_colors mParents) branchTopologyEdges 0
       = None).
Proof.
  split.
  - intros Hne.
    destruct (nextColor_spec mParents Hne)
      as (n & k & col & Hn & Hnext & Hs & Hnn & Hk & _).
    exists n, col. repeat split; auto.
    + by eapply list_elem_of_lookup_2.
    + intros fuel Hlt. replace fuel with (S n + (fuel - S n)) by lia.
      by apply nextColor_search_fuel.
  - intros -> fuel. apply nextColor_search_nil.
Qed.

(** ** indexOf and contains *)

Lemma indexOf_Some mParents c i :
  indexOf mParents c = Some i ↔
  ∃ p, mParents !! i = Some p ∧ commit p = c
       ∧ ∀ j q, mParents !! j = Some q → j < i → commit q ≠ c.
Proof.
  unfold indexOf. split.
  - intros H. apply fmap_Some in H as [[i' p] [Hfind ->]].
    apply list_find_Some in Hfind as (Hp & Hc & Hfirst).
    exists p. simpl. repeat split; auto.
  - intros (p & Hp & Hc & Hfirst). apply fmap_Some. exists (i, p).
    split; [|done]. apply list_find_Some. auto.
Qed.

Lemma indexOf_None mParents c :
  indexOf mParents c = None ↔ c ∉ lane_commits mParents.
Proof.
  unfold indexOf, lane_commits. rewrite fmap_None, list_find_None.
  rewrite Forall_forall. split.
  - intros H Hin. apply list_elem_of_fmap in Hin as (p & -> & Hp).
    by apply (H p).
  - intros H p Hp Hc. apply H. apply list_elem_of_fmap. by exists p.
Qed.

Lemma indexOf_lt mParents c i :
  indexOf mParents c = Some i → i < length mParents.
Proof.
  intros H. apply indexOf_Some in H as (p & Hp & _).
  by eapply lookup_lt_Some.
Qed.

Lemma indexOf_elem mParents c :
  c ∈ lane_commits mParents → is_Some (indexOf mParents c).
Proof.
  intros Hin. destruct (indexOf mParents c) eqn:E; [by eexists|].
  by apply indexOf_None in E.
Qed.

(** Where no two lanes hold the same commit, [indexOf] finds the lane of a
    commit wherever it is. *)
Lemma indexOf_NoDup mParents i p :
  NoDup (lane_commits mParents) → mParents !! i = Some p →
  indexOf mParents (commit p) = Some i.
Proof.
  intros Hnd Hp. apply indexOf_Some. exists p. repeat split; auto.
  intros j q Hq Hlt Heq.
  assert (j = i); [|lia].
  eapply NoDup_lookup; [exact Hnd| |]; unfold lane_commits;
    rewrite list_lookup_fmap.
  - rewrite Hq. simpl. by rewrite Heq.
  - by rewrite Hp.
Qed.

Lemma contains_false (mRows rows : list (Row Commit QColor)) c :
  contains mRows c rows = false ↔ Some c ∉ emitted mRows rows.
Proof.
  unfold contains, emitted. rewrite <- existsb_app.
  generalize (mRows ++ rows). intros l. induction l as [|r l IH]; simpl.
  - split; [|done]. intros _ H. by apply elem_of_nil in H.
  - rewrite not_elem_of_cons, orb_false_iff, IH, bool_decide_eq_false.
    split; intros [H1 H2]; split; auto.
Qed.

(** The replacements are the parents of [c], in their order, that are
    neither in a lane nor in a row laid out so far. *)
Lemma replacements_of_filter (mRows rows : list (Row Commit QColor)) mParents c :
  replacements_of mRows rows mParents c
  = filter (λ q, (q ∉ lane_commits mParents) ∧ (Some q ∉ emitted mRows rows))
           (commit_parents c).
Proof.
  unfold replacements_of. apply list_filter_iff. intros q.
  by rewrite indexOf_None, contains_false.
Qed.

(** ** The lanes of the next row *)

(** The lanes that [append_parents] adds: one for each replacement, in
    their order, not tainted, each with the colour that [nextColor] returns
    on the lanes before it. *)
Lemma append_parents_spec (replacements : list Commit) mParents :
  branchTopologyEdges ≠ [] →
  ∃ new,
    append_parents replacements mParents = Some (mParents ++ new)
    ∧ lane_commits new = replacements
    ∧ ∀ k p, new !! k = Some p →
        tainted p = false
        ∧ nextColor (mParents ++ take k new) = Some (color p).
Proof.
  intros Hne. revert mParents.
  induction replacements as [|r rs IH]; intros mParents.
  - exists []. rewrite app_nil_r. split; [done|split; [done|]].
    intros k p Hk. by rewrite lookup_nil in Hk.
  - destruct (nextColor_is_Some mParents Hne) as [col Hcol].
    destruct (IH (mParents ++ [mkParent r col false])) as (new & Happ & Hc & Hnew).
    exists (mkParent r col false :: new).
    unfold append_parents in *. cbn [foreach]. rewrite Hcol. simpl.
    rewrite Happ, <- app_assoc. simpl. split; [done|split].
    + unfold lane_commits in *. simpl. by rewrite Hc.
    + intros k p Hk. destruct k as [|k]; simpl in Hk.
      * inversion Hk. simpl. by rewrite app_nil_r.
      * destruct (Hnew k p Hk) as [Ht Hn]. simpl.
        by rewrite <- app_assoc in Hn.
Qed.

Lemma take_drop_delete_insert {A : Type} (l : list A) (i : nat) (x : A) :
  i < length l →
  take i (delete i l) ++ x :: drop i (delete i l) = <[i := x]> l.
Proof.
  revert i. induction l as [|y l IH]; intros i Hlt; simpl in *; [lia|].
  destruct i as [|i]; simpl.
  - by rewrite drop_0.
  - f_equal. apply IH. lia.
Qed.

(** [set_parents] on the lanes where [c] is in lane [i]. *)
Lemma set_parents_spec c (replacements : list Commit) mParents i lane :
  branchTopologyEdges ≠ [] →
  indexOf mParents c = Some i → mParents !! i = Some lane →
  match replacements with
  | [] => set_parents c replacements mParents = Some (delete i mParents)
  | r :: rs =>
      ∃ new,
        set_parents c replacements mParents
        = Some ((<[i := mkParent r (color lane) false]> mParents) ++ new)
        ∧ lane_commits new = rs
        ∧ ∀ k p, new !! k = Some p →
            tainted p = false
            ∧ nextColor ((<[i := mkParent r (color lane) false]> mParents)
                         ++ take k new) = Some (color p)
  end.
Proof.
  intros Hne Hi Hlane. unfold set_parents. rewrite Hi, Hlane.
  destruct replacements as [|r rs]; [done|].
  rewrite take_drop_delete_insert by (by eapply lookup_lt_Some).
  by apply append_parents_spec.
Qed.

(** [add_root] leaves the lanes with a lane of [c]. *)
Lemma add_root_spec c mParents :
  branchTopologyEdges ≠ [] →
  ∃ root parents i lane,
    add_root c mParents = Some (root, parents)
    ∧ indexOf parents c = Some i ∧ parents !! i = Some lane
    ∧ commit lane = c
    ∧ (if root
       then indexOf mParents c = None
            ∧ nextColor mParents = Some (color lane)
            ∧ parents = mParents ++ [lane] ∧ tainted lane = false
            ∧ i = length mParents
       else parents = mParents).
Proof.
  intros Hne. unfold add_root.
  destruct (indexOf mParents c) as [i|] eqn:Hi.
  - apply indexOf_Some in Hi as Hi'. destruct Hi' as (lane & Hlane & Hc & _).
    exists false, mParents, i, lane. auto.
  - destruct (nextColor_is_Some mParents Hne) as [col Hcol]. rewrite Hcol.
    exists true, (mParents ++ [mkParent c col false]), (length mParents),
      (mkParent c col false).
    simpl. repeat split; auto.
    + apply indexOf_Some. exists (mkParent c col false). repeat split.
      * by rewrite lookup_app_r, Nat.sub_diag.
      * intros j q Hq Hlt Hcq. rewrite lookup_app_l in Hq by done.
        apply indexOf_None in Hi. apply Hi. unfold lane_commits.
        apply list_elem_of_fmap. exists q. split; [done|].
        by eapply list_elem_of_lookup_2.
    + by rewrite lookup_app_r, Nat.sub_diag.
Qed.

(** [advance] on a palette that is not empty: the lanes of the row of [c]
    hold [c] in some lane [i], and the lanes of the next row are made from
    them by [set_parents]. *)
Lemma advance_spec (mRows rows : list (Row Commit QColor)) c mParents :
  branchTopologyEdges ≠ [] →
  ∃ root parents mParents' i lane,
    advance mRows rows c mParents = Some (root, parents, mParents')
    ∧ add_root c mParents = Some (root, parents)
    ∧ indexOf parents c = Some i ∧ parents !! i = Some lane
    ∧ set_parents c (replacements_of mRows rows parents c) parents
      = Some mParents'.
Proof.
  intros Hne.
  destruct (add_root_spec c mParents Hne)
    as (root & parents & i & lane & Hroot & Hi & Hlane & _).
  pose proof (set_parents_spec c (replacements_of mRows rows parents c)
                parents i lane Hne Hi Hlane) as Hset.
  assert (is_Some (set_parents c (replacements_of mRows rows parents c) parents))
    as [mParents' Hsome].
  { destruct (replacements_of mRows rows parents c).
    - by eexists.
    - destruct Hset as (new & -> & _). by eexists. }
  exists root, parents, mParents', i, lane. unfold advance.
  rewrite Hroot. simpl. rewrite Hsome. done.
Qed.

Lemma elem_of_insert_inv {A : Type} (l : list A) (i : nat) (x z : A) :
  z ∈ <[i := x]> l → z = x ∨ z ∈ l.
Proof.
  revert i. induction l as [|y l IH]; intros i; simpl.
  - intros H. by apply elem_of_nil in H.
  - destruct i as [|i]; simpl; rewrite !elem_of_cons.
    + intros [->|H]; auto.
    + intros [->|H]; auto. destruct (IH i H); auto.
Qed.

Lemma NoDup_insert_fresh {A : Type} (l : list A) (i : nat) (x : A) :
  NoDup l → x ∉ l → NoDup (<[i := x]> l).
Proof.
  revert i. induction l as [|y l IH]; intros i Hnd Hx; simpl; [done|].
  apply NoDup_cons in Hnd as [Hy Hnd]. apply not_elem_of_cons in Hx as [Hxy Hx].
  destruct i as [|i]; simpl; apply NoDup_cons; split; auto.
  intros Hin. apply elem_of_insert_inv in Hin as [->|Hin]; auto.
Qed.

(** The lanes stay free of duplicates when the parents of [c] are. *)
Lemma advance_NoDup (mRows rows : list (Row Commit QColor)) c mParents
    root parents mParents' :
  branchTopologyEdges ≠ [] →
  NoDup (lane_commits mParents) → NoDup (commit_parents c) →
  advance mRows rows c mParents = Some (root, parents, mParents') →
  NoDup (lane_commits parents) ∧ NoDup (lane_commits mParents').
Proof.
  intros Hne Hnd Hndp Hadv.
  destruct (advance_spec mRows rows c mParents Hne)
    as (root' & parents' & mParents'' & i & lane & Hadv' & Hroot & Hi & Hlane & Hset).
  rewrite Hadv in Hadv'. inversion Hadv'; subst root' parents' mParents''.
  clear Hadv'.
  assert (Hndparents : NoDup (lane_commits parents)).
  { destruct (add_root_spec c mParents Hne)
      as (root2 & parents2 & i2 & lane2 & Hroot2 & _ & _ & Hc2 & Hcase).
    rewrite Hroot in Hroot2. inversion Hroot2; subst root2 parents2.
    destruct root.
    - destruct Hcase as (Hnone & _ & -> & _).
      unfold lane_commits. rewrite fmap_app. apply NoDup_app.
      split; [done|]. split; [|apply NoDup_singleton].
      intros x Hx. simpl. rewrite list_elem_of_singleton. intros ->.
      apply indexOf_None in Hnone. apply Hnone. by rewrite <- Hc2.
    - by subst. }
  split; [done|].
  pose proof (set_parents_spec c (replacements_of mRows rows parents c)
                parents i lane Hne Hi Hlane) as Hspec.
  pose proof (replacements_of_filter mRows rows parents c) as Hfilter.
  destruct (replacements_of mRows rows parents c) as [|r rs] eqn:Hrepl.
  - rewrite Hset in Hspec. inversion Hspec. unfold lane_commits.
    rewrite list_fmap_delete. eapply sublist_NoDup; [exact Hndparents|].
    apply sublist_delete.
  - destruct Hspec as (new & Hset' & Hnew & _). rewrite Hset in Hset'.
    inversion Hset'. clear Hset'.
    assert (Hndf : NoDup (r :: rs)).
    { rewrite Hfilter. by apply NoDup_filter. }
    assert (Hin : ∀ q, q ∈ r :: rs → q ∉ lane_commits parents).
    { intros q Hq. rewrite Hfilter in Hq.
      apply list_elem_of_filter in Hq. tauto. }
    apply NoDup_cons in Hndf as [Hr Hrs].
    unfold lane_commits at 1. rewrite fmap_app, list_fmap_insert. simpl.
    fold (lane_commits parents). fold (lane_commits new). rewrite Hnew.
    apply NoDup_app. split; [|split; [|done]].
    + apply NoDup_insert_fresh; [done|]. apply Hin. left.
    + intros x Hx Hxrs. apply elem_of_insert_inv in Hx as [->|Hx]; [done|].
      apply (Hin x); [by right|done].
Qed.

(** C1: the update of the lanes by one pass of the loop of [fetchMore].
    After "Add root commits" the commit [c] is in some lane [i] of the
    lanes [parents], which are the lanes as they were when [c] was in one
    of them already. The replacements are the parents of [c], in their
    order, that are neither in [parents] nor in a row laid out so far (in
    an earlier batch or in this one). The first takes lane [i] with the
    colour of the lane; the others are appended, in their order, each with
    the colour [nextColor] returns on the lanes before it; no other lane is
    added, and without a replacement lane [i] is taken out. *)
Theorem fetchMore_replaces_lane (mRows rows : list (Row Commit QColor)) c mParents :
  branchTopologyEdges ≠ [] →
  ∃ root parents mParents' i lane,
    advance mRows rows c mParents = Some (root, parents, mParents')
    ∧ (∀ graph st', fetch_commit graph mRows c (mParents, rows) = Some st' →
                    st'.1 = mParents')
    ∧ add_root c mParents = Some (root, parents)
    ∧ (is_Some (indexOf mParents c) → root = false ∧ parents = mParents)
    ∧ indexOf parents c = Some i ∧ parents !! i = Some lane
    ∧ match filter (λ q, (q ∉ lane_commits parents)
                         ∧ (Some q ∉ emitted mRows rows))
                   (commit_parents c) with
      | [] => mParents' = delete i parents
      | r :: rs =>
          ∃ new,
            mParents' = (<[i := mkParent r (color lane) false]> parents) ++ new
            ∧ lane_commits new = rs
            ∧ ∀ k p, new !! k = Some p →
                tainted p = false
                ∧ nextColor ((<[i := mkParent r (color lane) false]> parents)
                             ++ take k new) = Some (color p)
      end.
Proof.
  intros Hne.
  destruct (advance_spec mRows rows c mParents Hne)
    as (root & parents & mParents' & i & lane & Hadv & Hroot & Hi & Hlane & Hset).
  exists root, parents, mParents', i, lane.
  split; [done|]. split; [|split; [done|split]].
  2: { intros [i0 Hi0]. unfold add_root in Hroot. rewrite Hi0 in Hroot.
       by inversion Hroot. }
  { intros graph st' Hfetch. unfold fetch_commit in Hfetch. simpl in Hfetch.
    rewrite Hadv in Hfetch. simpl in Hfetch.
    destruct (if graph then columns c parents root mParents' else Some [])
      as [row|]; simpl in Hfetch; [|done].
    by inversion Hfetch. }
  split; [done|]. split; [done|].
  pose proof (set_parents_spec c (replacements_of mRows rows parents c)
                parents i lane Hne Hi Hlane) as Hspec.
  rewrite <- replacements_of_filter.
  destruct (replacements_of mRows rows parents c) as [|r rs].
  - rewrite Hset in Hspec. by inversion Hspec.
  - destruct Hspec as (new & Hset' & Hnew & Hcol). rewrite Hset in Hset'.
    inversion Hset'. by exists new.
Qed.

(** ** Routing of one path *)

Lemma push_spec cols (i : nat) (s : Segment QColor) :
  i < length cols →
  ∃ cols',
    push cols i s = Some cols'
    ∧ length cols' = length cols
    ∧ ∀ k, cols' !! k
           = (λ column, column ++ (if bool_decide (k = i) then [s] else []))
             <$> cols !! k.
Proof.
  intros Hlt. destruct (lookup_lt_is_Some_2 cols i Hlt) as [column Hcol].
  unfold push, Column in *. rewrite Hcol. simpl. eexists. split; [done|].
  split; [by rewrite length_insert|]. intros k. case_bool_decide as Hk.
  - subst k. rewrite list_lookup_insert_eq by done. by rewrite Hcol.
  - rewrite list_lookup_insert_ne by done.
    destruct (cols !! k); simpl; [|done]. by rewrite app_nil_r.
Qed.

(** Outside the vector [columns[i]] has no defined behaviour. *)
Lemma push_out_of_range cols (i : nat) (s : Segment QColor) :
  length cols ≤ i → push cols i s = None.
Proof.
  intros Hle. unfold push, Column in *.
  by rewrite (lookup_ge_None_2 cols i Hle).
Qed.

Lemma for_loop_cross_spec (col : QColor) (n lo : nat) cols :
  lo + n ≤ length cols →
  ∃ cols',
    for_loop (λ j cols, push cols j (mkSegment Cross col)) lo n cols
    = Some cols'
    ∧ length cols' = length cols
    ∧ ∀ k, cols' !! k
           = (λ column, column ++ (if bool_decide (lo ≤ k < lo + n)
                                   then [mkSegment Cross col] else []))
             <$> cols !! k.
Proof.
  revert lo cols. induction n as [|n IH]; intros lo cols Hle.
  - exists cols. split; [done|]. split; [done|]. intros k.
    rewrite bool_decide_eq_false_2 by lia.
    destruct (cols !! k); simpl; [|done]. by rewrite app_nil_r.
  - destruct (push_spec cols lo (mkSegment Cross col)) as (cols1 & H1 & Hl1 & Hk1);
      [lia|].
    destruct (IH (S lo) cols1) as (cols2 & H2 & Hl2 & Hk2); [lia|].
    exists cols2. cbn [for_loop]. rewrite H1. simpl. rewrite H2.
    split; [done|]. split; [lia|]. intros k. rewrite Hk2, Hk1.
    destruct (cols !! k) as [column|]; simpl; [|done]. f_equal.
    rewrite <- app_assoc. f_equal.
    repeat case_bool_decide; simpl; auto; lia.
Qed.

Lemma push_cross_spec (col : QColor) (lo hi : nat) cols :
  hi ≤ length cols →
  ∃ cols',
    push_cross col lo hi cols = Some cols'
    ∧ length cols' = length cols
    ∧ ∀ k, cols' !! k
           = (λ column, column ++ (if bool_decide (lo ≤ k < hi)
                                   then [mkSegment Cross col] else []))
             <$> cols !! k.
Proof.
  intros Hle. unfold push_cross.
  destruct (decide (lo ≤ hi)) as [Hlo|Hlo].
  - destruct (for_loop_cross_spec col (hi - lo) lo cols) as (cols' & H & Hl & Hk);
      [lia|].
    exists cols'. split; [done|]. split; [done|]. intros k. rewrite Hk.
    replace (lo + (hi - lo)) with hi by lia. done.
  - replace (hi - lo) with 0 by lia. exists cols. split; [done|].
    split; [done|]. intros k. rewrite bool_decide_eq_false_2 by lia.
    destruct (cols !! k); simpl; [|done]. by rewrite app_nil_r.
Qed.

Lemma path_color_is_Some c mParents parent (successors : list Commit)
    (successor : Commit) (index : nat) :
  indexOf mParents successor = Some index →
  is_Some (path_color c mParents parent successors index).
Proof.
  intros Hi. unfold path_color. case_bool_decide; [by eexists|].
  apply indexOf_lt in Hi.
  destruct (lookup_lt_is_Some_2 mParents index Hi) as [q ->]. by eexists.
Qed.

(** One path, from lane [i] of the row to the lane [index] that the
    successor has in the next row: every column gains the segments of
    [path_segments], and a column is added when [index] is the number of
    columns. *)
Lemma route_spec c mParents parent (successors : list Commit) (i : nat)
    (successor : Commit) cols (index : nat) :
  indexOf mParents successor = Some index →
  i < length cols → index ≤ length cols →
  ∃ col cols',
    path_color c mParents parent successors index = Some col
    ∧ route c mParents parent successors i successor cols = Some cols'
    ∧ length cols' = length cols `max` S index
    ∧ ∀ k, k < length cols' →
        cols' !! k
        = Some (default [] (cols !! k) ++ path_segments i index col k).
Proof.
  intros Hidx Hi Hindex.
  destruct (path_color_is_Some c mParents parent successors successor index Hidx)
    as [col Hcol].
  exists col. unfold route. rewrite Hidx, Hcol. simpl.
  unfold path_segments.
  destruct (decide (index < i)) as [Hlt|Hge].
  - rewrite (bool_decide_eq_true_2 (index < i)) by done.
    destruct (push_spec cols index (mkSegment RightIn col)) as (c1 & H1 & L1 & K1);
      [lia|].
    destruct (push_cross_spec col (index + 1) i c1) as (c2 & H2 & L2 & K2); [lia|].
    destruct (push_spec c2 i (mkSegment LeftOut col)) as (c3 & H3 & L3 & K3); [lia|].
    exists c3. rewrite H1. simpl. rewrite H2. simpl. rewrite H3.
    split; [done|]. split; [done|]. split; [lia|].
    intros k Hk. rewrite K3, K2, K1.
    destruct (lookup_lt_is_Some_2 cols k) as [column ->]; [lia|]. simpl.
    f_equal. rewrite <- !app_assoc. f_equal.
    repeat case_bool_decide; simpl; auto; lia.
  - rewrite (bool_decide_eq_false_2 (index < i)) by done.
    destruct (decide (i < index)) as [Hlt|Heq].
    + rewrite (bool_decide_eq_true_2 (i < index)) by done.
      destruct (push_spec cols i (mkSegment RightOut col)) as (c1 & H1 & L1 & K1);
        [lia|].
      destruct (push_cross_spec col (i + 1) index c1) as (c2 & H2 & L2 & K2);
        [lia|].
      rewrite H1. simpl. rewrite H2. simpl.
      destruct (decide (index = length c2)) as [Hnew|Hold].
      * rewrite (bool_decide_eq_true_2 (index = length c2)) by done.
        destruct (push_spec (c2 ++ [[]]) index (mkSegment LeftIn col))
          as (c3 & H3 & L3 & K3); [rewrite length_app; simpl; lia|].
        exists c3. rewrite H3. split; [done|]. split; [done|].
        rewrite length_app in L3. simpl in L3. split; [lia|].
        intros k Hk. rewrite K3.
        destruct (decide (k < length c2)) as [Hin|Hout].
        -- rewrite lookup_app_l by done. rewrite K2, K1.
           destruct (lookup_lt_is_Some_2 cols k) as [column ->]; [lia|]. simpl.
           f_equal. rewrite <- !app_assoc. f_equal.
           repeat case_bool_decide; simpl; auto; lia.
        -- assert (k = length c2) as -> by lia.
           rewrite lookup_app_r, Nat.sub_diag by done. simpl.
           rewrite (lookup_ge_None_2 cols (length c2)) by lia. simpl.
           f_equal. repeat case_bool_decide; simpl; auto; lia.
      * rewrite (bool_decide_eq_false_2 (index = length c2)) by done.
        destruct (push_spec c2 index (mkSegment LeftIn col))
          as (c3 & H3 & L3 & K3); [lia|].
        exists c3. rewrite H3. split; [done|]. split; [done|]. split; [lia|].
        intros k Hk. rewrite K3, K2, K1.
        destruct (lookup_lt_is_Some_2 cols k) as [column ->]; [lia|]. simpl.
        f_equal. rewrite <- !app_assoc. f_equal.
        repeat case_bool_decide; simpl; auto; lia.
    + rewrite (bool_decide_eq_false_2 (i < index)) by done.
      destruct (push_spec cols index (mkSegment Bottom col)) as (c1 & H1 & L1 & K1);
        [lia|].
      exists c1. rewrite H1. split; [done|]. split; [done|]. split; [lia|].
      intros k Hk. rewrite K1.
      destruct (lookup_lt_is_Some_2 cols k) as [column ->]; [lia|]. simpl.
      f_equal. f_equal. repeat case_bool_decide; simpl; auto; lia.
Qed.

Lemma route_skip c mParents parent (successors : list Commit) (i : nat)
    (successor : Commit) cols :
  indexOf mParents successor = None →
  route c mParents parent successors i successor cols = Some cols.
Proof. intros H. unfold route. by rewrite H. Qed.

Lemma path_segments_color (i index : nat) (col : QColor) (k : nat) :
  Forall (λ s, segment_color s = col) (path_segments i index col k).
Proof.
  unfold path_segments. repeat case_bool_decide; repeat constructor.
Qed.

(** The body of the loop over the successors of lane [i], on the
    columns [cols] of the row under construction. A successor that
    [indexOf] does not find in the next row leaves the columns as they
    are. For one found in lane [j] (with [j] at most the number of
    columns, as far as the vector reaches after an append): to the left,
    column [j] gains [RightIn], every column strictly between [j] and [i]
    gains [Cross] and column [i] gains [LeftOut]; to the right, column [i]
    gains [RightOut], every column strictly between gains [Cross] and
    column [j] gains [LeftIn], a column being added exactly when [j] is
    the number of columns; for [j = i] column [i] gains [Bottom]. Nothing
    else changes. *)
Theorem route_segments c mParents parent (successors : list Commit) (i : nat)
    (successor : Commit) cols :
  i < length cols →
  match indexOf mParents successor with
  | None => route c mParents parent successors i successor cols = Some cols
  | Some j =>
      j ≤ length cols →
      ∃ col cols',
        path_color c mParents parent successors j = Some col
        ∧ route c mParents parent successors i successor cols = Some cols'
        ∧ (j < i →
            length cols' = length cols
            ∧ ∀ k column, cols !! k = Some column →
                cols' !! k
                = Some (column ++
                    if bool_decide (k = j) then [mkSegment RightIn col]
                    else if bool_decide (j < k < i) then [mkSegment Cross col]
                    else if bool_decide (k = i) then [mkSegment LeftOut col]
                    else []))
        ∧ (i < j →
            length cols'
            = (if bool_decide (j = length cols)
               then S (length cols) else length cols)
            ∧ (j = length cols → cols' !! j = Some [mkSegment LeftIn col])
            ∧ ∀ k column, cols !! k = Some column →
                cols' !! k
                = Some (column ++
                    if bool_decide (k = i) then [mkSegment RightOut col]
                    else if bool_decide (i < k < j) then [mkSegment Cross col]
                    else if bool_decide (k = j) then [mkSegment LeftIn col]
                    else []))
        ∧ (j = i →
            length cols' = length cols
            ∧ ∀ k column, cols !! k = Some column →
                cols' !! k
                = Some (column ++
                    if bool_decide (k = i) then [mkSegment Bottom col]
                    else []))
  end.
Proof.
  intros Hi. destruct (indexOf mParents successor) as [j|] eqn:Hidx.
  2: { by apply route_skip. }
  intros Hj.
  destruct (route_spec c mParents parent successors i successor cols j
              Hidx Hi Hj) as (col & cols' & Hcol & Hroute & Hlen & Hk).
  exists col, cols'. split; [done|]. split; [done|].
  assert (Hold : ∀ k column, cols !! k = Some column →
            cols' !! k = Some (column ++ path_segments i j col k)).
  { intros k column Hc. rewrite Hk.
    - by rewrite Hc.
    - apply lookup_lt_Some in Hc. lia. }
  split; [|split].
  - intros Hlt. split; [lia|]. intros k column Hc.
    rewrite (Hold k column Hc). unfold path_segments.
    by rewrite (bool_decide_eq_true_2 (j < i)) by done.
  - intros Hlt. split; [case_bool_decide; lia|]. split.
    + intros ->. rewrite Hk by lia.
      rewrite (lookup_ge_None_2 cols (length cols)) by lia. simpl.
      unfold path_segments. f_equal.
      repeat case_bool_decide; simpl; auto; lia.
    + intros k column Hc. rewrite (Hold k column Hc). unfold path_segments.
      rewrite (bool_decide_eq_false_2 (j < i)) by lia.
      by rewrite (bool_decide_eq_true_2 (i < j)) by done.
  - intros ->. split; [lia|]. intros k column Hc.
    rewrite (Hold k column Hc). unfold path_segments.
    rewrite (bool_decide_eq_false_2 (i < i)) by lia. done.
Qed.

(** C7: the colour of a path. When the lane has exactly one successor,
    every segment of its path has the tainted-aware colour of the lane
    ([taintedColor] at the commit of the row); when it has more, every
    segment of the path to a successor has the colour of the lane that
    the successor has in the next row. *)
Theorem route_color c mParents parent (successors : list Commit) (i : nat)
    (successor : Commit) cols (j : nat) :
  indexOf mParents successor = Some j →
  i < length cols → j ≤ length cols →
  ∃ col cols',
    route c mParents parent successors i successor cols = Some cols'
    ∧ (length successors = 1 → col = taintedColor parent (Some c))
    ∧ (1 < length successors →
       ∃ lane, mParents !! j = Some lane ∧ col = color lane)
    ∧ ∀ k, k < length cols' →
        ∃ added,
          cols' !! k = Some (default [] (cols !! k) ++ added)
          ∧ Forall (λ s, segment_color s = col) added.
Proof.
  intros Hidx Hi Hj.
  destruct (route_spec c mParents parent successors i successor cols j
              Hidx Hi Hj) as (col & cols' & Hcol & Hroute & Hlen & Hk).
  exists col, cols'. split; [done|]. unfold path_color in Hcol.
  split; [|split].
  - intros Hone. rewrite bool_decide_eq_true_2 in Hcol by done.
    by inversion Hcol.
  - intros Hmany. rewrite bool_decide_eq_false_2 in Hcol by lia.
    apply fmap_Some in Hcol as (lane & Hlane & ->). by exists lane.
  - intros k Hlt. exists (path_segments i j col k).
    split; [by apply Hk|]. apply path_segments_color.
Qed.

(** ** The row is defined on the lanes that fetchMore makes *)

(** The loops that add one segment to each lane ("Add incoming paths",
    "Add middle section last"). *)
Lemma for_loop_lanes_spec (f : Parent Commit QColor → Segment QColor)
    parents (n lo : nat) cols :
  lo + n ≤ length parents → lo + n ≤ length cols →
  ∃ cols',
    for_loop (λ i cols, parent ← parents !! i; push cols i (f parent))
             lo n cols = Some cols'
    ∧ length cols' = length cols
    ∧ ∀ k, cols' !! k
           = (λ column,
                column ++ (if bool_decide (lo ≤ k < lo + n)
                           then from_option (λ p, [f p]) [] (parents !! k)
                           else []))
             <$> cols !! k.
Proof.
  revert lo cols. induction n as [|n IH]; intros lo cols Hp Hc.
  - exists cols. split; [done|]. split; [done|]. intros k.
    rewrite bool_decide_eq_false_2 by lia.
    destruct (cols !! k); simpl; [|done]. by rewrite app_nil_r.
  - destruct (lookup_lt_is_Some_2 parents lo) as [parent Hparent]; [lia|].
    destruct (push_spec cols lo (f parent)) as (cols1 & H1 & Hl1 & Hk1); [lia|].
    destruct (IH (S lo) cols1) as (cols2 & H2 & Hl2 & Hk2); [lia|lia|].
    exists cols2. cbn [for_loop]. rewrite Hparent. simpl. rewrite H1. simpl.
    rewrite H2. split; [done|]. split; [lia|]. intros k. rewrite Hk2, Hk1.
    destruct (cols !! k) as [column|]; simpl; [|done]. f_equal.
    rewrite <- app_assoc. f_equal.
    repeat case_bool_decide; subst; simpl; rewrite ?Hparent; simpl; auto; lia.
Qed.

(** Paths to lanes inside the columns add no column. *)
Lemma foreach_route_inside c mParents parent (successors : list Commit)
    (i : nat) (P : list Commit) cols :
  i < length cols →
  (∀ s j, s ∈ P → indexOf mParents s = Some j → j < length cols) →
  ∃ cols',
    foreach (route c mParents parent successors i) P cols = Some cols'
    ∧ length cols' = length cols.
Proof.
  revert cols. induction P as [|s P IH]; intros cols Hi Hin.
  - by exists cols.
  - cbn [foreach]. destruct (indexOf mParents s) as [j|] eqn:Hidx.
    + assert (Hj : j < length cols) by (apply (Hin s j); [left|done]).
      destruct (route_spec c mParents parent successors i s cols j Hidx Hi)
        as (col & cols1 & _ & Hr & Hl & _); [lia|].
      rewrite Hr. simpl.
      destruct (IH cols1) as (cols' & H & Hl'); [lia| |].
      * intros s' j' Hs' Hidx'. rewrite Hl.
        specialize (Hin s' j' (list_elem_of_further _ _ _ Hs') Hidx'). lia.
      * exists cols'. split; [done|]. lia.
    + rewrite route_skip by done. simpl. apply IH; [done|].
      intros s' j' Hs' Hidx'. apply (Hin s' j'); [by right|done].
Qed.

Lemma filter_elem_of_as {A : Type} (Q : A → Prop) `{!∀ x, Decision (Q x)}
    `{!EqDecision A} (l l0 : list A) :
  (∀ x, x ∈ l → (x ∈ l0 ↔ Q x)) → filter (λ x, x ∈ l0) l = filter Q l.
Proof.
  induction l as [|x l IH]; intros Hiff; [done|].
  rewrite !filter_cons.
  assert (Hx : x ∈ l0 ↔ Q x) by (apply Hiff; left).
  rewrite IH by (intros y Hy; apply Hiff; by right).
  destruct (decide (x ∈ l0)), (decide (Q x)); tauto.
Qed.

(** In a list free of duplicates, the elements of the tail of a filter
    come in the order of the tail. *)
Lemma filter_elem_of_tail {A : Type} (Q : A → Prop) `{!∀ x, Decision (Q x)}
    `{!EqDecision A} (l : list A) (r : A) (rs : list A) :
  NoDup l → filter Q l = r :: rs → filter (λ x, x ∈ rs) l = rs.
Proof.
  induction l as [|x l IH]; intros Hnd Hf; [done|].
  apply NoDup_cons in Hnd as [Hx Hnd]. rewrite filter_cons in Hf.
  assert (Hsub : ∀ y, y ∈ rs → y ∈ l).
  { intros y Hy. destruct (decide (Q x)).
    - inversion Hf; subst. by apply list_elem_of_filter in Hy as [_ ?].
    - assert (y ∈ filter Q l) as Hy' by (rewrite Hf; by right).
      by apply list_elem_of_filter in Hy' as [_ ?]. }
  rewrite filter_cons. destruct (decide (x ∈ rs)) as [Hin|Hnin].
  { exfalso. apply Hx. by apply Hsub. }
  destruct (decide (Q x)).
  - inversion Hf; subst. apply filter_elem_of_as.
    intros y Hy. rewrite list_elem_of_filter. tauto.
  - by apply IH.
Qed.

(** The paths of the lane of the commit to the lanes appended for its
    parents: the appended lanes are met in their order, so every path to
    one of them ends at most one column past the columns. *)
Lemma foreach_route_new c mParents parent (successors : list Commit)
    (i count : nat) (rs : list Commit) :
  NoDup rs → i < count →
  (∀ s j, indexOf mParents s = Some j → count ≤ j →
          rs !! (j - count) = Some s) →
  (∀ s, s ∈ rs → ∃ j, indexOf mParents s = Some j ∧ count ≤ j) →
  ∀ (P rs1 rs2 : list Commit) cols,
    rs = rs1 ++ rs2 → length cols = count + length rs1 →
    filter (λ s, s ∈ rs) P = rs2 →
    ∃ cols',
      foreach (route c mParents parent successors i) P cols = Some cols'
      ∧ length cols' = count + length rs.
Proof.
  intros Hnd Hi HA HC P. induction P as [|s P IH];
    intros rs1 rs2 cols Hrs Hlen Hf.
  - exists cols. split; [done|]. simpl in Hf. subst rs2.
    rewrite app_nil_r in Hrs. by subst.
  - cbn [foreach]. rewrite filter_cons in Hf.
    destruct (indexOf mParents s) as [j|] eqn:Hidx.
    + destruct (decide (count ≤ j)) as [Hnew|Hold].
      * pose proof (HA s j Hidx Hnew) as Hat.
        assert (Hin : s ∈ rs) by (by eapply list_elem_of_lookup_2).
        destruct (decide (s ∈ rs)); [|done].
        destruct rs2 as [|s' rs2]; [done|]. inversion Hf; subst s'.
        assert (Hj : j - count = length rs1).
        { eapply NoDup_lookup; [exact Hnd|exact Hat|].
          rewrite Hrs. by rewrite list_lookup_middle. }
        destruct (route_spec c mParents parent successors i s cols j Hidx)
          as (col & cols1 & _ & Hr & Hl & _); [lia|lia|].
        rewrite Hr. simpl.
        apply (IH (rs1 ++ [s]) rs2 cols1).
        -- by rewrite <- app_assoc.
        -- rewrite length_app. simpl. lia.
        -- done.
      * assert (Hnin : s ∉ rs).
        { intros Hin. destruct (HC s Hin) as (j' & Hj' & Hle).
          rewrite Hidx in Hj'. inversion Hj'. lia. }
        destruct (decide (s ∈ rs)); [done|].
        destruct (route_spec c mParents parent successors i s cols j Hidx)
          as (col & cols1 & _ & Hr & Hl & _); [lia|lia|].
        rewrite Hr. simpl. apply (IH rs1 rs2 cols1); [done|lia|done].
    + assert (Hnin : s ∉ rs).
      { intros Hin. destruct (HC s Hin) as (j' & Hj' & _).
        by rewrite Hidx in Hj'. }
      destruct (decide (s ∈ rs)); [done|].
      rewrite route_skip by done. simpl. by apply (IH rs1 rs2 cols).
Qed.

(** "Add outgoing paths": the loop over the lanes, where the lane of the
    commit is lane [i] alone. *)
Lemma outgoing_defined c parents mParents (i : nat) lane :
  NoDup (lane_commits parents) →
  parents !! i = Some lane → commit lane = c →
  (∀ k parent j, parents !! k = Some parent → k ≠ i →
     indexOf mParents (commit parent) = Some j → j < length parents) →
  (∀ cols, length cols = length parents →
     ∃ cols',
       foreach (route c mParents lane (commit_parents c) i)
               (commit_parents c) cols = Some cols'
       ∧ length parents ≤ length cols') →
  ∀ (n lo : nat) cols,
    lo + n ≤ length parents → length parents ≤ length cols →
    (lo ≤ i → length cols = length parents) →
    ∃ cols',
      for_loop (λ i cols,
          parent ← parents !! i;
          let successors := successors_of c parent in
          foreach (route c mParents parent successors i) successors cols)
        lo n cols = Some cols'
      ∧ length parents ≤ length cols'.
Proof.
  intros Hnd Hlane Hc H1 H2 n. induction n as [|n IH];
    intros lo cols Hlo Hlen Hbefore.
  - by exists cols.
  - destruct (lookup_lt_is_Some_2 parents lo) as [parent Hparent]; [lia|].
    cbn [for_loop]. rewrite Hparent. simpl.
    destruct (decide (lo = i)) as [->|Hne].
    + rewrite Hlane in Hparent. inversion Hparent; subst parent.
      unfold successors_of. rewrite bool_decide_eq_true_2 by done. rewrite Hc.
      destruct (H2 cols) as (cols1 & Hr & Hl1); [by apply Hbefore|].
      rewrite Hr. simpl. apply IH; [lia|done|lia].
    + assert (Hcommit : commit parent ≠ c).
      { intros Heq. apply Hne.
        eapply NoDup_lookup; [exact Hnd| |]; unfold lane_commits;
          rewrite list_lookup_fmap.
        - by rewrite Hparent.
        - rewrite Hlane. simpl. by rewrite Hc, Heq. }
      unfold successors_of. rewrite bool_decide_eq_false_2 by done.
      destruct (foreach_route_inside c mParents parent [commit parent] lo
                  [commit parent] cols) as (cols1 & Hr & Hl1); [lia| |].
      { intros s j Hs Hidx. apply list_elem_of_singleton in Hs. subst s.
        specialize (H1 lo parent j Hparent Hne Hidx). lia. }
      rewrite Hr. simpl. apply IH; [lia|lia|]. intros Hle.
      rewrite Hl1. apply Hbefore. lia.
Qed.

(** On the lanes that [advance] makes from lanes free of duplicates, for a
    commit whose parents are free of duplicates, [columns] stays inside
    the vector of columns: the row is defined. *)
Lemma columns_defined (mRows rows : list (Row Commit QColor)) c mParents
    root parents mParents' :
  branchTopologyEdges ≠ [] →
  NoDup (lane_commits mParents) → NoDup (commit_parents c) →
  advance mRows rows c mParents = Some (root, parents, mParents') →
  is_Some (columns c parents root mParents').
Proof.
  intros Hne Hnd Hndp Hadv.
  destruct (advance_NoDup mRows rows c mParents root parents mParents'
              Hne Hnd Hndp Hadv) as [Hnd1 Hnd2].
  destruct (advance_spec mRows rows c mParents Hne)
    as (root' & parents' & mParents'' & i & lane & Hadv' & Hroot & Hi & Hlane & Hset).
  rewrite Hadv in Hadv'. inversion Hadv'; subst root' parents' mParents''.
  clear Hadv'.
  assert (Hc : commit lane = c).
  { apply indexOf_Some in Hi as (lane' & Hlane' & Hc & _).
    rewrite Hlane in Hlane'. by inversion Hlane'. }
  assert (Hilt : i < length parents) by (by eapply lookup_lt_Some).
  pose proof (set_parents_spec c (replacements_of mRows rows parents c)
                parents i lane Hne Hi Hlane) as Hspec.
  assert (H12 :
    (∀ k parent j, parents !! k = Some parent → k ≠ i →
       indexOf mParents' (commit parent) = Some j → j < length parents)
    ∧ (∀ cols, length cols = length parents →
         ∃ cols',
           foreach (route c mParents' lane (commit_parents c) i)
                   (commit_parents c) cols = Some cols'
           ∧ length parents ≤ length cols')).
  { destruct (replacements_of mRows rows parents c) as [|r rs] eqn:Hrepl.
    - rewrite Hset in Hspec. inversion Hspec as [Hm]. clear Hspec.
      assert (Hsmall : ∀ s j, indexOf (delete i parents) s = Some j →
                              j < length parents).
      { intros s j Hidx. apply indexOf_lt in Hidx.
        rewrite length_delete in Hidx by (by eexists). lia. }
      split.
      + intros k parent j _ _ Hidx. by apply (Hsmall (commit parent)).
      + intros cols Hlen.
        destruct (foreach_route_inside c (delete i parents) lane
                    (commit_parents c) i (commit_parents c) cols)
          as (cols' & Hr & Hl); [lia| |].
        * intros s j _ Hidx. rewrite Hlen. by apply (Hsmall s).
        * exists cols'. split; [done|]. lia.
    - destruct Hspec as (new & Hset' & Hnew & _). rewrite Hset in Hset'.
      inversion Hset' as [Hm]. clear Hset'. rewrite Hm in Hnd2.
      set (X := <[i := mkParent r (color lane) false]> parents) in *.
      assert (HX : length X = length parents) by apply length_insert.
      split.
      + intros k parent j Hk Hki Hidx.
        assert (Hk' : (X ++ new) !! k = Some parent).
        { rewrite lookup_app_l by (rewrite HX; by eapply lookup_lt_Some).
          unfold X. by rewrite list_lookup_insert_ne. }
        rewrite (indexOf_NoDup (X ++ new) k parent Hnd2 Hk') in Hidx.
        inversion Hidx; subst. by eapply lookup_lt_Some.
      + intros cols Hlen.
        assert (Hndrs : NoDup rs).
        { unfold lane_commits in Hnd2. rewrite fmap_app in Hnd2.
          apply NoDup_app in Hnd2 as (_ & _ & Hrs).
          by rewrite <- Hnew. }
        destruct (foreach_route_new c (X ++ new) lane (commit_parents c) i
                    (length parents) rs Hndrs Hilt) with
          (P := commit_parents c) (rs1 := @nil Commit) (rs2 := rs) (cols := cols)
          as (cols' & Hr & Hl).
        * intros s j Hidx Hle.
          apply indexOf_Some in Hidx as (q & Hq & Hcq & _).
          rewrite lookup_app_r in Hq by lia. rewrite HX in Hq.
          rewrite <- Hnew. unfold lane_commits. rewrite list_lookup_fmap.
          rewrite Hq. simpl. by rewrite Hcq.
        * intros s Hs. apply list_elem_of_lookup_1 in Hs as [k Hk].
          rewrite <- Hnew in Hk. unfold lane_commits in Hk.
          rewrite list_lookup_fmap in Hk.
          destruct (new !! k) as [q|] eqn:Hq; simpl in Hk; [|done].
          inversion Hk; subst s. exists (length parents + k). split; [|lia].
          apply indexOf_NoDup; [done|].
          rewrite lookup_app_r by lia. rewrite HX.
          by replace (length parents + k - length parents) with k by lia.
        * done.
        * simpl. lia.
        * unfold replacements_of in Hrepl.
          by eapply filter_elem_of_tail.
        * exists cols'. split; [done|]. lia. }
  destruct H12 as [H1 H2].
  unfold columns, Column. cbv zeta.
  destruct (for_loop_lanes_spec
              (λ parent, mkSegment Top (taintedColor parent None)) parents
              (if root then length parents - 1 else length parents) 0
              (replicate (length parents) []))
    as (cols1 & Hr1 & Hl1 & _).
  { destruct root; lia. }
  { rewrite length_replicate. destruct root; lia. }
  rewrite length_replicate in Hl1. unfold Column in *. rewrite Hr1. simpl.
  destruct (outgoing_defined c parents mParents' i lane Hnd1 Hlane Hc H1 H2
              (length parents) 0 cols1) as (cols2 & Hr2 & Hl2); [lia|lia|done|].
  unfold Column in *. rewrite Hr2. simpl.
  destruct (for_loop_lanes_spec
              (λ parent, mkSegment
                           (if bool_decide (commit parent = c)
                            then Dot else Middle)
                           (taintedColor parent None)) parents
              (length parents) 0 cols2)
    as (cols3 & Hr3 & _); [lia|lia|].
  unfold Column in *. rewrite Hr3. by eexists.
Qed.

(** One pass of the loop of [fetchMore] returns, and keeps the lanes free
    of duplicates, when the parents of the commit are free of them. *)
Lemma fetch_commit_NoDup (graph : bool) (mRows : list (Row Commit QColor)) c
    (st : list (Parent Commit QColor) * list (Row Commit QColor)) :
  branchTopologyEdges ≠ [] →
  NoDup (lane_commits st.1) → NoDup (commit_parents c) →
  ∃ mParents' row,
    fetch_commit graph mRows c st
    = Some (mParents', st.2 ++ [mkRow (Some c) row])
    ∧ NoDup (lane_commits mParents').
Proof.
  intros Hne Hnd Hndp.
  destruct (advance_spec mRows st.2 c st.1 Hne)
    as (root & parents & mParents' & i & lane & Hadv & _).
  destruct (advance_NoDup mRows st.2 c st.1 root parents mParents'
              Hne Hnd Hndp Hadv) as [_ Hnd2].
  destruct (columns_defined mRows st.2 c st.1 root parents mParents'
              Hne Hnd Hndp Hadv) as [row Hrow].
  unfold fetch_commit. rewrite Hadv. simpl.
  destruct graph.
  - rewrite Hrow. simpl. by exists mParents', row.
  - simpl. by exists mParents', [].
Qed.

(** ** The loop of fetchMore *)

Lemma fetch_commit_rows (graph : bool) (mRows : list (Row Commit QColor)) c
    (st st' : list (Parent Commit QColor) * list (Row Commit QColor)) :
  fetch_commit graph mRows c st = Some st' →
  ∃ row, st'.2 = st.2 ++ [mkRow (Some c) row].
Proof.
  unfold fetch_commit. intros H.
  destruct (advance mRows st.2 c st.1) as [[[root parents] mParents']|];
    simpl in H; [|done].
  destruct (if graph then columns c parents root mParents' else Some [])
    as [row|]; simpl in H; [|done].
  inversion H. by exists row.
Qed.

(** What a run of the loop that starts with the counter at [i] leaves: it
    lays out the first [65 - i] commits of what the walker yields (all of
    them when there are fewer), one row each, and it is left with a valid
    commit in hand exactly when there were that many. *)
Lemma fetch_loop_rows (graph : bool) (mRows : list (Row Commit QColor))
    (walker : list Commit) :
  ∀ (i : nat) c (st : list (Parent Commit QColor) * list (Row Commit QColor))
    last walker' mParents' rows',
    i ≤ 64 →
    fetch_loop graph mRows i c walker st
    = Some (last, walker', (mParents', rows')) →
    ∃ new,
      rows' = st.2 ++ new
      ∧ row_commit <$> new = Some <$> take (65 - i) (c :: walker)
      ∧ walker' = drop (65 - i) (c :: walker)
      ∧ (is_Some last ↔ 65 - i ≤ length (c :: walker)).
Proof.
  induction walker as [|c' walker IH];
    intros i c st last walker' mParents' rows' Hi Hloop;
    cbn [fetch_loop] in Hloop;
    destruct (fetch_commit graph mRows c st) as [[mParents1 rows1]|] eqn:Hc;
    simpl in Hloop; try done;
    destruct (fetch_commit_rows graph mRows c st _ Hc) as [row Hrow];
    simpl in Hrow; subst rows1.
  - replace (65 - i) with (S (64 - i)) by lia. simpl.
    rewrite take_nil, drop_nil.
    exists [mkRow (Some c) row].
    case_bool_decide; inversion Hloop; subst; clear Hloop.
    + split; [done|]. split; [done|]. split; [done|].
      split; [intros; lia|]. intros _. by eexists.
    + split; [done|]. split; [done|]. split; [done|].
      split; [|intros; lia]. by intros [? ?].
  - case_bool_decide.
    + inversion Hloop; subst; clear Hloop. assert (i = 64) as -> by lia.
      exists [mkRow (Some c) row]. simpl.
      split; [done|]. split; [done|]. split; [done|].
      split; [intros; lia|]. intros _. by eexists.
    + destruct (IH (S i) c' (mParents1, st.2 ++ [mkRow (Some c) row])
                  last walker' mParents' rows')
        as (new & Hrows & Hnew & Hw & Hlast); [lia|exact Hloop|].
      simpl in Hrows.
      exists (mkRow (Some c) row :: new). rewrite Hrows.
      replace (65 - i) with (S (65 - S i)) by lia.
      rewrite <- app_assoc. simpl.
      replace (64 - i) with (65 - S i) by lia.
      split; [done|]. split; [f_equal; exact Hnew|]. split; [done|]. split.
      * intros Hl. apply Hlast in Hl. simpl in *. lia.
      * intros Hl. apply Hlast. simpl in *. lia.
Qed.

(** The loop returns and keeps the lanes free of duplicates when the
    parents of every commit of the walk are free of them. *)
Lemma fetch_loop_NoDup (graph : bool) (mRows : list (Row Commit QColor))
    (walker : list Commit) :
  branchTopologyEdges ≠ [] →
  ∀ (i : nat) c (st : list (Parent Commit QColor) * list (Row Commit QColor)),
    NoDup (lane_commits st.1) →
    (∀ c', c' ∈ c :: walker → NoDup (commit_parents c')) →
    ∃ last walker' mParents' rows',
      fetch_loop graph mRows i c walker st
      = Some (last, walker', (mParents', rows'))
      ∧ NoDup (lane_commits mParents').
Proof.
  intros Hne. induction walker as [|c' walker IH]; intros i c st Hnd Hp;
    cbn [fetch_loop];
    destruct (fetch_commit_NoDup graph mRows c st Hne Hnd)
      as (mParents1 & row & Hc & Hnd1); try (apply Hp; left);
    rewrite Hc; simpl.
  - case_bool_decide; by do 4 eexists.
  - case_bool_decide; [by do 4 eexists|].
    apply (IH (S i) c' (mParents1, st.2 ++ [mkRow (Some c) row])); [done|].
    intros c'' Hin. apply Hp. by right.
Qed.

(** [fetchMore] appends one row for each of the first 65 commits that the
    walker has still to yield, and leaves the walker valid exactly when it
    had 65 or more. *)
Lemma fetchMore_rows m m' :
  fetchMore m = Some m' →
  ∃ new,
    mRows m' = mRows m ++ new
    ∧ row_commit <$> new = Some <$> take 65 (default [] (mWalker m))
    ∧ mWalker m'
      = (if bool_decide (65 ≤ length (default [] (mWalker m)))
         then Some (drop 65 (default [] (mWalker m))) else None).
Proof.
  unfold fetchMore. intros H.
  destruct (mWalker m) as [[|c walker]|] eqn:Hw.
  - inversion H. simpl. exists []. by rewrite app_nil_r.
  - destruct (fetch_loop _ _ 0 c walker (mParents m, []))
      as [[[last walker'] [mParents' rows']]|] eqn:Hloop;
      simpl in H; [|done].
    destruct (fetch_loop_rows _ _ walker 0 c _ last walker' mParents' rows'
                ltac:(lia) Hloop) as (new & Hrows & Hnew & Hw' & Hlast).
    simpl in Hrows. subst rows'. inversion H. simpl.
    exists new. split; [done|]. split; [done|].
    change (65 - 0) with 65 in *.
    destruct (decide (65 ≤ length (c :: walker))) as [Hlen|Hlen].
    + rewrite (bool_decide_eq_true_2 (65 ≤ _)) by exact Hlen.
      apply Hlast in Hlen as [c0 ->]. by rewrite Hw'.
    + rewrite (bool_decide_eq_false_2 (65 ≤ _)) by exact Hlen.
      destruct last as [c0|]; [|done]. exfalso. apply Hlen, Hlast.
      by eexists.
  - inversion H. simpl. exists []. by rewrite app_nil_r.
Qed.

Lemma fetchMore_NoDup m :
  branchTopologyEdges ≠ [] →
  NoDup (lane_commits (mParents m)) →
  (∀ c, c ∈ default [] (mWalker m) → NoDup (commit_parents c)) →
  ∃ m', fetchMore m = Some m' ∧ NoDup (lane_commits (mParents m')).
Proof.
  intros Hne Hnd Hp. unfold fetchMore.
  destruct (mWalker m) as [[|c walker]|] eqn:Hw; try (by eexists).
  destruct (fetch_loop_NoDup
              (mGraphVisible m && bool_decide (mPathspec m = ""))
              (mRows m) walker Hne 0 c (mParents m, []) Hnd Hp)
    as (last & walker' & mParents' & rows' & Hloop & Hnd').
  rewrite Hloop. simpl. by eexists.
Qed.

(** ** resetWalker and the status row *)

Lemma status_row_shown_iff m :
  status_row_shown m = true ↔
  (mRef m = None ∨ ∃ r, mRef m = Some r ∧ isHead r = true)
  ∧ (mCleanStatus m = true ∨ isFinished (mStatus m) = false
     ∨ is_Some (status m))
  ∧ mPathspec m = "".
Proof.
  unfold status_row_shown, status_head, status_valid.
  rewrite !andb_true_iff, !orb_true_iff, negb_true_iff, !bool_decide_eq_true.
  destruct (mRef m) as [r|]; split.
  - intros [[H1 H2] H3]. split; [|tauto]. right. by exists r.
  - intros (H1 & H2 & H3). split; [|done]. split; [|tauto].
    destruct H1 as [H1|(r' & Hr & H1)]; [done|]. by inversion Hr; subst.
  - intros [[H1 H2] H3]. split; [by left|tauto].
  - intros (H1 & H2 & H3). split; [|done]. split; [done|tauto].
Qed.

(** What "Update status row" leaves: at most one lane, and the row of the
    status alone when it is shown. *)
Lemma status_row_spec m parents (rows : list (Row Commit QColor)) :
  status_row m = Some (parents, rows) →
  length parents ≤ 1
  ∧ (if status_row_shown m
     then ∃ cols, rows = [mkRow None cols]
                  ∧ (mRef m = None → parents = [] ∧ cols = [])
     else rows = [] ∧ parents = []).
Proof.
  unfold status_row. intros H. destruct (status_row_shown m).
  - destruct (mRef m) as [r|].
    + destruct (mGraphVisible m && isFinished (mStatus m)).
      * destruct (nextColor []) as [col|]; simpl in H; [|done].
        inversion H. simpl. split; [lia|]. by eexists.
      * inversion H. simpl. split; [lia|]. by eexists.
    + inversion H. simpl. split; [lia|]. by eexists.
  - inversion H. simpl. split; [lia|done].
Qed.

Lemma rows_commits_Some (new : list (Row Commit QColor)) (l : list Commit) :
  row_commit <$> new = Some <$> l →
  Forall (λ row, is_Some (row_commit row)) new.
Proof.
  revert l. induction new as [|row new IH]; intros l H; [constructor|].
  destruct l as [|c l]; [done|]. inversion H as [[H1 H2]].
  constructor; [by eexists|]. by eapply IH.
Qed.

(** The rows after [resetWalker]: those of the status row, then one row
    for each commit fetched. *)
Lemma resetWalker_rows m m' :
  resetWalker m = Some m' →
  ∃ parents rows new,
    status_row m = Some (parents, rows)
    ∧ mRows m' = rows ++ new
    ∧ Forall (λ row, is_Some (row_commit row)) new.
Proof.
  unfold resetWalker. intros H.
  destruct (status_row m) as [[parents rows]|]; simpl in H; [|done].
  exists parents, rows. destruct (canFetchMore _).
  - apply fetchMore_rows in H as (new & Hrows & Hnew & _). simpl in Hrows.
    exists new. split; [done|]. split; [done|]. by eapply rows_commits_Some.
  - inversion H. simpl. exists []. by rewrite app_nil_r.
Qed.

(** The rows past the first are rows of commits. *)
Lemma reachable_rows_after_first m :
  reachable m →
  Forall (λ row, is_Some (row_commit row)) (drop 1 (mRows m)).
Proof.
  induction 1 as [m m' Hreset|m m' Hm IH Hfetch|m m' Hm IH Hp Hr].
  - destruct (resetWalker_rows m m' Hreset)
      as (parents & rows & new & Hstatus & -> & Hnew).
    apply status_row_spec in Hstatus as [_ Hrows].
    rewrite drop_app. apply Forall_app. split; [|by apply Forall_drop].
    destruct (status_row_shown m).
    + destruct Hrows as (cols & -> & _). simpl. constructor.
    + destruct Hrows as [-> _]. constructor.
  - apply fetchMore_rows in Hfetch as (new & -> & Hnew & _).
    rewrite drop_app. apply Forall_app. split; [done|].
    apply Forall_drop. by eapply rows_commits_Some.
  - by rewrite Hr.
Qed.

(** Where no commit has the same parent twice, the lanes of every state
    that [resetWalker] and [fetchMore] reach are free of duplicates. *)
Lemma reachable_NoDup m :
  branchTopologyEdges ≠ [] →
  (∀ c, NoDup (commit_parents c)) →
  reachable m → NoDup (lane_commits (mParents m)).
Proof.
  intros Hne Hp.
  induction 1 as [m m' Hreset|m m' Hm IH Hfetch|m m' Hm IH Hpar Hr].
  - unfold resetWalker in Hreset.
    destruct (status_row m) as [[parents rows]|] eqn:Hstatus;
      simpl in Hreset; [|done].
    apply status_row_spec in Hstatus as [Hlen _].
    assert (Hnd : NoDup (lane_commits parents)).
    { destruct parents as [|p [|q parents]]; simpl in *; try lia.
      - constructor.
      - apply NoDup_singleton. }
    destruct (canFetchMore _).
    + match type of Hreset with
      | fetchMore ?m1 = _ =>
          destruct (fetchMore_NoDup m1 Hne Hnd ltac:(auto)) as (m2 & Hf & Hnd2)
      end.
      rewrite Hf in Hreset. by inversion Hreset; subst.
    + by inversion Hreset.
  - destruct (fetchMore_NoDup m Hne IH ltac:(auto)) as (m2 & Hf & Hnd2).
    rewrite Hf in Hfetch. by inversion Hfetch; subst.
  - by rewrite Hpar.
Qed.

(** Under the same conditions [fetchMore] and [resetWalker] return. *)
Lemma fetchMore_total m :
  branchTopologyEdges ≠ [] →
  (∀ c, NoDup (commit_parents c)) →
  reachable m → is_Some (fetchMore m).
Proof.
  intros Hne Hp Hm.
  destruct (fetchMore_NoDup m Hne (reachable_NoDup m Hne Hp Hm) ltac:(auto))
    as (m' & Hf & _).
  by exists m'.
Qed.

Lemma resetWalker_total m :
  branchTopologyEdges ≠ [] →
  (∀ c, NoDup (commit_parents c)) →
  is_Some (resetWalker m).
Proof.
  intros Hne Hp. unfold resetWalker.
  destruct (status_row m) as [[parents rows]|] eqn:Hstatus.
  - simpl. apply status_row_spec in Hstatus as Hspec. destruct Hspec as [Hlen _].
    destruct (canFetchMore _); [|by eexists].
    assert (Hnd : NoDup (lane_commits parents)).
    { destruct parents as [|p [|q parents]]; simpl in *; try lia.
      - constructor.
      - apply NoDup_singleton. }
    match goal with
    | |- is_Some (fetchMore ?m1) =>
        destruct (fetchMore_NoDup m1 Hne Hnd ltac:(auto)) as (m2 & Hf & _)
    end.
    by exists m2.
  - unfold status_row in Hstatus.
    destruct (nextColor_is_Some [] Hne) as [col Hcol].
    destruct (status_row_shown m); [|done].
    destruct (mRef m); [|done].
    destruct (mGraphVisible m && isFinished (mStatus m)); [|done].
    by rewrite Hcol in Hstatus.
Qed.

(** C8: in every state that [resetWalker] and [fetchMore] reach, a row
    without a commit (the row of the status) is row 0; and after
    [resetWalker] there is such a row exactly when the reference is HEAD
    or there is none, and the clean-status setting is on or the status has
    not finished or [status()] is a valid diff, and the pathspec is
    empty. *)
Theorem status_row_first_and_shown :
  (∀ m, reachable m →
     ∀ k row, mRows m !! k = Some row → row_commit row = None → k = 0)
  ∧ (∀ m m', resetWalker m = Some m' →
       ((∃ k row, mRows m' !! k = Some row ∧ row_commit row = None)
        ↔ (mRef m = None ∨ ∃ r, mRef m = Some r ∧ isHead r = true)
          ∧ (mCleanStatus m = true ∨ isFinished (mStatus m) = false
             ∨ is_Some (status m))
          ∧ mPathspec m = "")).
Proof.
  split.
  - intros m Hm k row Hk Hnone.
    destruct k as [|k]; [done|]. exfalso.
    pose proof (reachable_rows_after_first m Hm) as Hall.
    rewrite Forall_forall in Hall.
    destruct (Hall row) as [c Hc]; [|by rewrite Hnone in Hc].
    apply list_elem_of_lookup. exists k. by rewrite lookup_drop.
  - intros m m' Hreset. rewrite <- status_row_shown_iff.
    destruct (resetWalker_rows m m' Hreset)
      as (parents & rows & new & Hstatus & Hrows & Hnew).
    apply status_row_spec in Hstatus as [_ Hspec]. rewrite Hrows.
    destruct (status_row_shown m).
    + destruct Hspec as (cols & -> & _). split; [done|]. intros _.
      by exists 0, (mkRow None cols).
    + destruct Hspec as [-> _]. simpl. split; [|done].
      intros (k & row & Hk & Hnone). rewrite Forall_forall in Hnew.
      destruct (Hnew row) as [c Hc]; [|by rewrite Hnone in Hc].
      by eapply list_elem_of_lookup_2.
Qed.

(** C9, as the code has it: without a reference, and with no walker left
    from an earlier reset, [resetWalker] returns with no lane and no
    walker; the rows are the row of the status alone, without a column,
    when the clean-status setting is on or the status has not finished or
    [status()] is a valid diff, and the pathspec is empty, and no row
    otherwise. *)
Theorem resetWalker_no_reference m :
  mRef m = None → mWalker m = None →
  ∃ m',
    resetWalker m = Some m'
    ∧ mParents m' = []
    ∧ mWalker m' = None
    ∧ mRows m'
      = (if (mCleanStatus m || negb (isFinished (mStatus m))
             || bool_decide (is_Some (status m)))
            && bool_decide (mPathspec m = "")
         then [mkRow None []] else []).
Proof.
  intros Href Hwalker. unfold resetWalker, status_row, begin_walk.
  unfold status_row_shown, status_head, status_valid, canFetchMore.
  rewrite Href, Hwalker. simpl.
  destruct ((mCleanStatus m || negb (isFinished (mStatus m))
             || bool_decide (is_Some (status m)))
            && bool_decide (mPathspec m = "")); simpl;
    by eexists.
Qed.

(** ** A linear history *)

Lemma nextColor_nil (col : QColor) (colors : list QColor) :
  branchTopologyEdges = col :: colors →
  nextColor (Commit := Commit) [] = Some col.
Proof.
  intros Hpal. unfold nextColor. rewrite Hpal. simpl.
  unfold first_with_count. simpl.
  rewrite decide_True; [done|]. by rewrite counts_value_usage.
Qed.

Lemma indexOf_singleton p c :
  indexOf [p] c = if decide (commit p = c) then Some 0 else None.
Proof. unfold indexOf. simpl. by destruct (decide (commit p = c)). Qed.

Lemma replacements_of_one (mRows rows : list (Row Commit QColor)) mParents
    (X Y : Commit) :
  commit_parents X = [Y] → indexOf mParents Y = None →
  contains mRows Y rows = false →
  replacements_of mRows rows mParents X = [Y].
Proof.
  intros HX Hi Hc. unfold replacements_of. rewrite HX.
  rewrite filter_cons, decide_True by done. done.
Qed.

Lemma replacements_of_none (mRows rows : list (Row Commit QColor)) mParents
    (X : Commit) :
  commit_parents X = [] → replacements_of mRows rows mParents X = [].
Proof. intros HX. unfold replacements_of. by rewrite HX. Qed.

Ltac eval_decide :=
  repeat (first [ rewrite decide_True by (simpl; congruence)
                | rewrite decide_False by (simpl; congruence)
                | rewrite bool_decide_eq_true_2 by (simpl; congruence)
                | rewrite bool_decide_eq_false_2 by (simpl; congruence) ];
          simpl).

(** The first commit of a history, laid out on no lane: its lane is new, so
    nothing comes in from above, and its one parent takes the lane. *)
Lemma fetch_commit_tip (mRows rows : list (Row Commit QColor)) (X Y : Commit)
    (col : QColor) (colors : list QColor) :
  branchTopologyEdges = col :: colors →
  commit_parents X = [Y] → Y ≠ X → contains mRows Y rows = false →
  fetch_commit true mRows X ([], rows)
  = Some ([mkParent Y col false],
          rows ++ [mkRow (Some X) [[mkSegment Bottom col; mkSegment Dot col]]]).
Proof.
  intros Hpal HX Hne Hc. unfold fetch_commit, advance, add_root. simpl.
  rewrite (nextColor_nil col colors Hpal). simpl.
  rewrite (replacements_of_one mRows rows _ X Y HX);
    [|by rewrite indexOf_singleton, decide_False|done].
  unfold set_parents. rewrite indexOf_singleton. simpl. eval_decide.
  unfold columns, successors_of, route, path_color, push, taintedColor. simpl.
  eval_decide. rewrite HX. simpl. rewrite indexOf_singleton. eval_decide.
  done.
Qed.

(** A commit laid out on its lane alone, with one parent that is new: the
    line comes in from above and goes out of the bottom, to the parent,
    which takes the lane with its colour. *)
Lemma fetch_commit_interior (mRows rows : list (Row Commit QColor))
    (X Y : Commit) lane :
  commit lane = X →
  commit_parents X = [Y] → Y ≠ X → contains mRows Y rows = false →
  fetch_commit true mRows X ([lane], rows)
  = Some ([mkParent Y (color lane) false],
          rows ++ [mkRow (Some X)
                     [[mkSegment Top (taintedColor lane None);
                       mkSegment Bottom (taintedColor lane (Some X));
                       mkSegment Dot (taintedColor lane None)]]]).
Proof.
  intros Hlane HX Hne Hc. unfold fetch_commit, advance, add_root. simpl.
  rewrite indexOf_singleton. eval_decide.
  rewrite (replacements_of_one mRows rows _ X Y HX);
    [|by rewrite indexOf_singleton, decide_False by congruence|done].
  unfold set_parents. rewrite indexOf_singleton. eval_decide.
  unfold columns, successors_of, route, path_color, push. simpl.
  eval_decide. rewrite Hlane, HX. simpl. rewrite indexOf_singleton. eval_decide.
  done.
Qed.

(** A commit without parents laid out on its lane alone: the line comes in
    from above and ends at the commit, and no lane is left. *)
Lemma fetch_commit_last (mRows rows : list (Row Commit QColor))
    (X : Commit) lane :
  commit lane = X → commit_parents X = [] →
  fetch_commit true mRows X ([lane], rows)
  = Some ([],
          rows ++ [mkRow (Some X)
                     [[mkSegment Top (taintedColor lane None);
                       mkSegment Dot (taintedColor lane None)]]]).
Proof.
  intros Hlane HX. unfold fetch_commit, advance, add_root. simpl.
  rewrite indexOf_singleton. eval_decide.
  rewrite (replacements_of_none mRows rows _ X HX).
  unfold set_parents. rewrite indexOf_singleton. eval_decide.
  unfold columns, successors_of, route, path_color, push. simpl.
  eval_decide. rewrite Hlane, HX. simpl. eval_decide.
  done.
Qed.

(** C6, as the code has it: a linear history of three commits (the parent
    of [C] is [B], the parent of [B] is [A], [A] has none) that the walker
    yields as [C], [B], [A], laid out by [fetchMore] with the graph shown
    and no pathspec, from no lane and no row. Each of the three rows has
    one column. The column of [C], whose lane is new, is [Bottom, Dot]; the
    column of the interior commit [B] is [Top, Bottom, Dot]; the column of
    the last commit [A] is [Top, Dot], with no [Bottom]; no lane is left. *)
Theorem linear_chain_rows m (A B C : Commit) :
  branchTopologyEdges ≠ [] →
  A ≠ B → B ≠ C → A ≠ C →
  commit_parents C = [B] → commit_parents B = [A] → commit_parents A = [] →
  mWalker m = Some [C; B; A] → mParents m = [] → mRows m = [] →
  mGraphVisible m = true → mPathspec m = "" →
  ∃ m',
    fetchMore m = Some m'
    ∧ row_commit <$> mRows m' = [Some C; Some B; Some A]
    ∧ row_segments <$> mRows m'
      = [[[Bottom; Dot]]; [[Top; Bottom; Dot]]; [[Top; Dot]]]
    ∧ mParents m' = [].
Proof.
  intros Hne HAB HBC HAC HC HB HA Hw Hp Hr Hg Hs.
  destruct branchTopologyEdges as [|col colors] eqn:Hpal; [done|].
  unfold fetchMore. rewrite Hw, Hp, Hr, Hg, Hs. simpl.
  rewrite (fetch_commit_tip [] [] C B col colors Hpal HC) by done. simpl.
  rewrite (fetch_commit_interior [] _ B A (mkParent B col false) eq_refl HB);
    [|done|unfold contains; simpl;
           by rewrite bool_decide_eq_false_2 by congruence].
  simpl.
  rewrite (fetch_commit_last [] _ A (mkParent A col false) eq_refl HA).
  simpl. eexists. split; [reflexivity|]. unfold set_fetched. simpl.
  rewrite Hr. repeat split; reflexivity.
Qed.
(** ** The whole row *)

Lemma push_inv cols (i : nat) (s : Segment QColor) cols' :
  push cols i s = Some cols' → i < length cols ∧ length cols' = length cols.
Proof.
  intros H. destruct (decide (i < length cols)) as [Hlt|Hge].
  - split; [done|]. destruct (push_spec cols i s Hlt) as (c1 & H1 & Hl & _).
    rewrite H in H1. by inversion H1.
  - rewrite push_out_of_range in H by lia. done.
Qed.

Lemma push_cross_inv (col : QColor) (lo hi : nat) cols cols' :
  push_cross col lo hi cols = Some cols' → length cols' = length cols.
Proof.
  unfold push_cross. generalize (hi - lo). intros n. revert lo cols.
  induction n as [|n IH]; intros lo cols H; simpl in H.
  - by inversion H.
  - destruct (push cols lo (mkSegment Cross col)) as [c1|] eqn:H1;
      simpl in H; [|done].
    apply push_inv in H1 as [_ Hl]. rewrite <- Hl. by apply (IH (S lo)).
Qed.

(** A path that is drawn stays inside the vector of columns. *)
Lemma route_inv c mParents parent (successors : list Commit) (i : nat)
    (successor : Commit) cols cols' (index : nat) :
  indexOf mParents successor = Some index →
  route c mParents parent successors i successor cols = Some cols' →
  i < length cols ∧ index ≤ length cols.
Proof.
  intros Hidx. unfold route. rewrite Hidx.
  destruct (path_color_is_Some c mParents parent successors successor index Hidx)
    as [col ->].
  simpl. intros Hroute.
  destruct (decide (index < i)) as [Hlt|Hge].
  - rewrite (bool_decide_eq_true_2 (index < i)) in Hroute by done.
    destruct (push cols index _) as [c1|] eqn:H1; simpl in Hroute; [|done].
    destruct (push_cross col (index + 1) i c1) as [c2|] eqn:H2;
      simpl in Hroute; [|done].
    apply push_inv in H1 as [_ L1]. apply push_cross_inv in H2.
    apply push_inv in Hroute as [Hi _]. lia.
  - rewrite (bool_decide_eq_false_2 (index < i)) in Hroute by done.
    destruct (decide (i < index)) as [Hlt|Heq].
    + rewrite (bool_decide_eq_true_2 (i < index)) in Hroute by done.
      destruct (push cols i _) as [c1|] eqn:H1; simpl in Hroute; [|done].
      destruct (push_cross col (i + 1) index c1) as [c2|] eqn:H2;
        simpl in Hroute; [|done].
      apply push_inv in H1 as [Hi L1]. apply push_cross_inv in H2.
      split; [done|]. unfold Column in *.
      destruct (decide (index = length c2)) as [Hnew|Hold]; [lia|].
      rewrite (bool_decide_eq_false_2 (index = length c2)) in Hroute by done.
      apply push_inv in Hroute as [Hj _]. lia.
    + rewrite (bool_decide_eq_false_2 (i < index)) in Hroute by done.
      apply push_inv in Hroute as [Hj _]. lia.
Qed.

Lemma path_segments_outside (i index : nat) (col : QColor) (k : nat) :
  i < k → index < k → path_segments i index col k = [].
Proof.
  intros Hi Hj. unfold path_segments.
  repeat case_bool_decide; try done; lia.
Qed.

(** The loop over the successors of a lane adds, to every column, the
    segments of its paths in their order. *)
Lemma foreach_route_segments c mParents parent (successors : list Commit)
    (i : nat) (l : list Commit) :
  ∀ cols cols',
    foreach (route c mParents parent successors i) l cols = Some cols' →
    length cols ≤ length cols'
    ∧ ∀ k, k < length cols' →
        cols' !! k
        = Some (default [] (cols !! k)
                ++ flat_map (λ '(i, index, col), path_segments i index col k)
                            (paths_of c mParents parent successors i l)).
Proof.
  induction l as [|s l IH]; intros cols cols' H; cbn [foreach] in H.
  - inversion H; subst. split; [done|]. intros k Hk. simpl.
    rewrite app_nil_r. by destruct (lookup_lt_is_Some_2 cols' k Hk) as [? ->].
  - destruct (route c mParents parent successors i s cols) as [cols1|] eqn:Hr;
      simpl in H; [|done].
    destruct (IH cols1 cols' H) as [Hlen Hk]. unfold paths_of. simpl.
    destruct (indexOf mParents s) as [j|] eqn:Hidx; simpl.
    + destruct (route_inv c mParents parent successors i s cols cols1 j
                  Hidx Hr) as [Hi Hj].
      destruct (route_spec c mParents parent successors i s cols j Hidx Hi Hj)
        as (col & cols1' & Hcol & Hr' & Hl1 & Hk1).
      rewrite Hr in Hr'. inversion Hr'; subst cols1'. clear Hr'.
      rewrite Hcol. simpl. split; [lia|]. intros k Hlt. unfold Column in *.
      rewrite (Hk k Hlt). f_equal. rewrite app_assoc. f_equal.
      destruct (decide (k < length cols1)) as [Hin|Hout].
      * by rewrite (Hk1 k Hin).
      * rewrite (lookup_ge_None_2 cols1 k) by lia.
        rewrite (lookup_ge_None_2 cols k) by lia.
        rewrite path_segments_outside by lia. done.
    + rewrite route_skip in Hr by done. inversion Hr; subst cols1.
      split; [done|]. exact Hk.
Qed.

(** "Add outgoing paths", from lane [lo] on. *)
Lemma outgoing_segments c parents mParents :
  ∀ (n lo : nat) cols cols',
    lo + n = length parents →
    for_loop (λ i cols,
        parent ← parents !! i;
        let successors := successors_of c parent in
        foreach (route c mParents parent successors i) successors cols)
      lo n cols = Some cols' →
    length cols ≤ length cols'
    ∧ ∀ k, k < length cols' →
        cols' !! k
        = Some (default [] (cols !! k)
                ++ flat_map (λ '(i, index, col), path_segments i index col k)
                            (lanes_paths c mParents lo (drop lo parents))).
Proof.
  induction n as [|n IH]; intros lo cols cols' Hlo H; cbn [for_loop] in H.
  - inversion H; subst. split; [done|]. intros k Hk.
    rewrite drop_ge by lia. simpl. rewrite app_nil_r.
    by destruct (lookup_lt_is_Some_2 cols' k Hk) as [? ->].
  - destruct (lookup_lt_is_Some_2 parents lo) as [parent Hparent]; [lia|].
    rewrite Hparent in H. simpl in H.
    destruct (foreach (route c mParents parent (successors_of c parent) lo)
                (successors_of c parent) cols) as [cols1|] eqn:Hf;
      simpl in H; [|done].
    destruct (foreach_route_segments c mParents parent _ lo _ cols cols1 Hf)
      as [Hl1 Hk1].
    destruct (IH (S lo) cols1 cols' ltac:(lia) H) as [Hl Hk].
    split; [lia|]. intros k Hlt. unfold Column in *.
    rewrite (drop_S parents parent lo Hparent). cbn [lanes_paths].
    rewrite flat_map_app, app_assoc. rewrite (Hk k Hlt). f_equal. f_equal.
    destruct (decide (k < length cols1)) as [Hin|Hout].
    + by rewrite (Hk1 k Hin).
    + rewrite (lookup_ge_None_2 cols1 k) by lia.
      rewrite (lookup_ge_None_2 cols k) by lia. simpl.
      destruct (foreach_route_segments c mParents parent
                  (successors_of c parent) lo (successors_of c parent)
                  cols cols1 Hf) as [_ Hk1'].
      clear Hk1 Hk IH H.
      (* no path of this lane reaches column [k], which is past [cols1] *)
      assert (Hnone : ∀ l cols0 cols2,
                foreach (route c mParents parent (successors_of c parent) lo)
                        l cols0 = Some cols2 →
                length cols2 ≤ k →
                flat_map (λ '(i, index, col), path_segments i index col k)
                  (paths_of c mParents parent (successors_of c parent) lo l)
                = []).
      { clear. induction l as [|s l IHl]; intros cols0 cols2 H Hle; [done|].
        cbn [foreach] in H.
        destruct (route c mParents parent (successors_of c parent) lo s cols0)
          as [cols1|] eqn:Hr; simpl in H; [|done].
        destruct (foreach_route_segments c mParents parent _ lo l cols1 cols2 H)
          as [Hl12 _].
        unfold paths_of. simpl.
        destruct (indexOf mParents s) as [j|] eqn:Hidx; simpl.
        - destruct (route_inv c mParents parent _ lo s cols0 cols1 j Hidx Hr)
            as [Hi Hj].
          destruct (route_spec c mParents parent (successors_of c parent) lo s
                      cols0 j Hidx Hi Hj)
            as (col & cols1' & Hcol & Hr' & Hl1 & _).
          rewrite Hr in Hr'. inversion Hr'; subst cols1'.
          rewrite Hcol. simpl. rewrite path_segments_outside by lia.
          simpl. by apply (IHl cols1 cols2).
        - by apply (IHl cols1 cols2). }
      by rewrite (Hnone _ cols cols1 Hf) by lia.
Qed.

(** The row that [columns] returns: column [k] is [row_column] at [k], and
    there are at least as many columns as lanes. *)
Lemma columns_spec c parents root mParents (row : list (list (Segment QColor))) :
  columns c parents root mParents = Some row →
  length parents ≤ length row
  ∧ ∀ k, k < length row →
      row !! k = Some (row_column c parents root mParents k).
Proof.
  unfold columns, Column. cbv zeta. intros H.
  destruct (for_loop_lanes_spec
              (λ parent, mkSegment Top (taintedColor parent None)) parents
              (if root then length parents - 1 else length parents) 0
              (replicate (length parents) []))
    as (cols1 & Hr1 & Hl1 & Hk1).
  { destruct root; lia. }
  { rewrite length_replicate. destruct root; lia. }
  rewrite length_replicate in Hl1. unfold Column in *. rewrite Hr1 in H.
  simpl in H.
  destruct (for_loop _ 0 (length parents) cols1) as [cols2|] eqn:Hr2;
    simpl in H; [|done].
  destruct (outgoing_segments c parents mParents (length parents) 0 cols1 cols2
              ltac:(lia) Hr2) as [Hl2 Hk2].
  destruct (for_loop_lanes_spec
              (λ parent, mkSegment
                           (if bool_decide (commit parent = c)
                            then Dot else Middle)
                           (taintedColor parent None)) parents
              (length parents) 0 cols2)
    as (cols3 & Hr3 & Hl3 & Hk3); [lia|lia|].
  unfold Column in *. rewrite Hr3 in H. inversion H; subst cols3. clear H.
  split; [lia|]. intros k Hk. rewrite Hk3, Hk2 by lia. rewrite Hk1.
  unfold row_column. cbv zeta. rewrite drop_0.
  destruct (decide (k < length parents)) as [Hin|Hout].
  - rewrite lookup_replicate_2 by done.
    destruct (lookup_lt_is_Some_2 parents k Hin) as [p Hp]. rewrite Hp. simpl.
    rewrite (bool_decide_eq_true_2 (0 ≤ k < 0 + length parents)) by lia.
    f_equal. rewrite <- !app_assoc. simpl.
    destruct root; repeat case_bool_decide; try lia; reflexivity.
  - rewrite (proj1 (lookup_replicate_None _ _ _)) by lia.
    rewrite (lookup_ge_None_2 parents k) by lia. simpl.
    rewrite (bool_decide_eq_false_2 (0 ≤ k < 0 + length parents)) by lia.
    rewrite (bool_decide_eq_false_2 (k < _)) by (destruct root; lia).
    by rewrite !app_nil_r.
Qed.

End Properties.

(** ** Instances of the theorems *)

Lemma nextColor_first_least_used_witness :
  ∃ k col,
    nextColor (theme := two_colors) three_lanes = Some col
    ∧ branchTopologyEdges (Theme := two_colors) !! k = Some col
    ∧ (∀ y, y ∈ branchTopologyEdges (Theme := two_colors) →
            usage (theme := two_colors) three_lanes col
            ≤ usage (theme := two_colors) three_lanes y)
    ∧ (∀ j y, branchTopologyEdges (Theme := two_colors) !! j = Some y → j < k →
              usage (theme := two_colors) three_lanes y
              ≠ usage (theme := two_colors) three_lanes col).
Proof.
  apply (nextColor_first_least_used (theme := two_colors) three_lanes).
  simpl. discriminate.
Defined.

Lemma fetchMore_replaces_lane_witness :
  ∃ root parents mParents' i lane,
    advance (repo := merge_repo) (theme := two_colors) [] [] 3 lanes_of_head
    = Some (root, parents, mParents')
    ∧ (∀ graph st',
         fetch_commit (repo := merge_repo) (theme := two_colors)
                      graph [] 3 (lanes_of_head, []) = Some st' →
         st'.1 = mParents')
    ∧ add_root (repo := merge_repo) (theme := two_colors) 3 lanes_of_head
      = Some (root, parents)
    ∧ (is_Some (indexOf (repo := merge_repo) lanes_of_head 3) →
       root = false ∧ parents = lanes_of_head)
    ∧ indexOf (repo := merge_repo) parents 3 = Some i
    ∧ parents !! i = Some lane
    ∧ match filter (λ q, (q ∉ lane_commits parents)
                         ∧ (Some q ∉ emitted (QColor := string) [] []))
                   (commit_parents (Repository := merge_repo) 3) with
      | [] => mParents' = delete i parents
      | r :: rs =>
          ∃ new,
            mParents' = (<[i := mkParent r (color lane) false]> parents) ++ new
            ∧ lane_commits new = rs
            ∧ ∀ k p, new !! k = Some p →
                tainted p = false
                ∧ nextColor (theme := two_colors)
                    ((<[i := mkParent r (color lane) false]> parents)
                     ++ take k new) = Some (color p)
      end.
Proof.
  apply (fetchMore_replaces_lane (repo := merge_repo) (theme := two_colors)
           [] [] 3 lanes_of_head).
  simpl. discriminate.
Defined.

Lemma route_segments_witness :
  ∃ col cols',
    route (repo := merge_repo) (theme := two_colors) 3 lanes_after_merge
          lane_of_merge [1; 2] 0 2 columns_of_merge = Some cols'
    ∧ length cols' = 2
    ∧ cols' !! 0
      = Some [mkSegment Bottom "#2a82da"; mkSegment RightOut col]
    ∧ cols' !! 1 = Some [mkSegment LeftIn col].
Proof.
  pose proof (route_segments (repo := merge_repo) (theme := two_colors)
                3 lanes_after_merge lane_of_merge [1; 2] 0 2 columns_of_merge
                ltac:(simpl; lia)) as H.
  change (indexOf (repo := merge_repo) lanes_after_merge 2) with (Some 1) in H.
  destruct (H ltac:(simpl; lia)) as (col & cols' & _ & Hroute & _ & Hright & _).
  destruct (Hright ltac:(lia)) as (Hlen & Hnew & Hold).
  exists col, cols'. split; [exact Hroute|]. split; [exact Hlen|].
  split; [|by apply Hnew].
  apply (Hold 0 [mkSegment Bottom "#2a82da"]). reflexivity.
Defined.

Lemma route_color_witness :
  ∃ col cols',
    route (repo := merge_repo) (theme := two_colors) 3 lanes_after_merge
          lane_of_merge [1; 2] 0 2 columns_of_merge = Some cols'
    ∧ (length [1; 2] = 1 →
       col = taintedColor (repo := merge_repo) (theme := two_colors)
               lane_of_merge (Some 3))
    ∧ (1 < length [1; 2] →
       ∃ lane, lanes_after_merge !! 1 = Some lane ∧ col = color lane)
    ∧ ∀ k, k < length cols' →
        ∃ added,
          cols' !! k = Some (default [] (columns_of_merge !! k) ++ added)
          ∧ Forall (λ s, segment_color s = col) added.
Proof.
  apply (route_color (repo := merge_repo) (theme := two_colors)
           3 lanes_after_merge lane_of_merge [1; 2] 0 2 columns_of_merge 1).
  - reflexivity.
  - simpl. lia.
  - simpl. lia.
Defined.

Lemma nextColor_terminates_witness :
  (∃ n col,
     n ≤ length three_lanes
     ∧ col ∈ branchTopologyEdges (Theme := two_colors)
     ∧ nextColor_search (theme := two_colors) n
         (count_colors (theme := two_colors) three_lanes)
         (branchTopologyEdges (Theme := two_colors)) 0 = None
     ∧ (∀ fuel, n < fuel →
          nextColor_search (theme := two_colors) fuel
            (count_colors (theme := two_colors) three_lanes)
            (branchTopologyEdges (Theme := two_colors)) 0 = Some col)
     ∧ nextColor (theme := two_colors) three_lanes = Some col)
  ∧ (∀ fuel,
       nextColor_search (theme := no_colors) fuel
         (count_colors (theme := no_colors) three_lanes)
         (branchTopologyEdges (Theme := no_colors)) 0 = None).
Proof.
  split.
  - apply (proj1 (nextColor_terminates (theme := two_colors) three_lanes)).
    simpl. discriminate.
  - apply (proj2 (nextColor_terminates (theme := no_colors) three_lanes)).
    reflexivity.
Defined.

(** C4, where the code breaks it: [twice_repo] with the settings of
    [on_reference]. The first [fetchMore], the one of [resetWalker], lays
    out the commits [65] to [1]; the parent [0] that commit [1] lists
    twice passes the test of "Replace commit with its parents" twice, and
    the lanes are left with two lanes of commit [0]. *)
Theorem fetchMore_duplicate_lane :
  ∃ m',
    resetWalker (repo := twice_repo) (theme := two_colors) on_reference
    = Some m'
    ∧ reachable (repo := twice_repo) (theme := two_colors) m'
    ∧ length (mRows m') = 65
    ∧ lane_commits (mParents m') = [0; 0]
    ∧ ¬ NoDup (lane_commits (mParents m')).
Proof.
  eexists. split; [vm_compute; reflexivity|].
  split; [by apply (reachable_reset on_reference)|].
  split; [reflexivity|]. split; [reflexivity|].
  intros H. apply NoDup_cons in H as [H _]. apply H. left.
Qed.

(** With a parent listed twice and one more parent, the path to the last
    parent crosses a column that the row does not have: [columns] leaves
    the vector, and [resetWalker] has no result. *)
Lemma fetchMore_duplicate_parent_out_of_range :
  advance (repo := twice_more_repo) (theme := two_colors) [] [] 3 []
  = Some (true, [mkParent 3 "#2a82da" false],
          [mkParent 1 "#2a82da" false; mkParent 1 "#da2a2a" false;
           mkParent 2 "#2a82da" false])
  ∧ columns (repo := twice_more_repo) (theme := two_colors) 3
      [mkParent 3 "#2a82da" false] true
      [mkParent 1 "#2a82da" false; mkParent 1 "#da2a2a" false;
       mkParent 2 "#2a82da" false] = None
  ∧ resetWalker (repo := twice_more_repo) (theme := two_colors) on_reference
    = None.
Proof. split; [|split]; vm_compute; reflexivity. Qed.

(** C5, where the code breaks it: on the 200 commits of [chain_repo] the
    first three calls of [fetchMore] append 65 rows each and the fourth
    the last 5; the walker is valid after the third call and not after the
    fourth. *)
Theorem fetchMore_batch_of_65 :
  (length ∘ mRows <$> fetchMore_times (repo := chain_repo)
                        (theme := two_colors) 1 two_hundred_commits)
  = Some 65
  ∧ (length ∘ mRows <$> fetchMore_times (repo := chain_repo)
                          (theme := two_colors) 2 two_hundred_commits)
    = Some 130
  ∧ (length ∘ mRows <$> fetchMore_times (repo := chain_repo)
                          (theme := two_colors) 3 two_hundred_commits)
    = Some 195
  ∧ (mWalker <$> fetchMore_times (repo := chain_repo)
                   (theme := two_colors) 3 two_hundred_commits)
    = Some (Some [4; 3; 2; 1; 0])
  ∧ (length ∘ mRows <$> fetchMore_times (repo := chain_repo)
                          (theme := two_colors) 4 two_hundred_commits)
    = Some 200
  ∧ (mWalker <$> fetchMore_times (repo := chain_repo)
                   (theme := two_colors) 4 two_hundred_commits)
    = Some None.
Proof. repeat split; vm_compute; reflexivity. Qed.

(** C6 fails on the linear history [2], [1], [0] of [chain_repo]: the
    column of the interior commit [1] is not [Top, Dot] and the column of
    the last commit [0] is not [Dot]. *)
Lemma linear_chain_rows_counterexample :
  ∃ m',
    fetchMore (repo := chain_repo) (theme := two_colors) three_commits
    = Some m'
    ∧ ¬ (∃ tip, row_segments <$> mRows m' = [tip; [[Top; Dot]]; [[Dot]]]).
Proof.
  eexists. split; [vm_compute; reflexivity|].
  intros [tip H]. vm_compute in H. discriminate H.
Qed.

Lemma linear_chain_rows_witness :
  ∃ m',
    fetchMore (repo := chain_repo) (theme := two_colors) three_commits
    = Some m'
    ∧ row_commit <$> mRows m' = [Some 2; Some 1; Some 0]
    ∧ row_segments <$> mRows m'
      = [[[Bottom; Dot]]; [[Top; Bottom; Dot]]; [[Top; Dot]]]
    ∧ mParents m' = [].
Proof.
  apply (linear_chain_rows (repo := chain_repo) (theme := two_colors)
           three_commits 0 1 2);
    first [reflexivity | simpl; discriminate | simpl; lia].
Defined.

Lemma status_row_first_and_shown_witness :
  reachable (repo := chain_repo) (theme := two_colors)
    (default head_with_changes
       (resetWalker (repo := chain_repo) (theme := two_colors)
                    head_with_changes))
  ∧ (∀ k row,
       mRows (default head_with_changes
                (resetWalker (repo := chain_repo) (theme := two_colors)
                             head_with_changes)) !! k = Some row →
       row_commit row = None → k = 0)
  ∧ ((∃ k row,
        mRows (default head_with_changes
                 (resetWalker (repo := chain_repo) (theme := two_colors)
                              head_with_changes)) !! k = Some row
        ∧ row_commit row = None)
     ↔ (mRef head_with_changes = None
        ∨ ∃ r, mRef head_with_changes = Some r
               ∧ isHead (Repository := chain_repo) r = true)
       ∧ (mCleanStatus head_with_changes = true
          ∨ isFinished (mStatus head_with_changes) = false
          ∨ is_Some (status head_with_changes))
       ∧ mPathspec head_with_changes = "").
Proof.
  assert (Hreset : resetWalker (repo := chain_repo) (theme := two_colors)
                     head_with_changes
                   = Some (default head_with_changes
                             (resetWalker (repo := chain_repo)
                                (theme := two_colors) head_with_changes))).
  { vm_compute. reflexivity. }
  assert (Hreach : reachable (repo := chain_repo) (theme := two_colors)
            (default head_with_changes
               (resetWalker (repo := chain_repo) (theme := two_colors)
                            head_with_changes))).
  { exact (reachable_reset head_with_changes _ Hreset). }
  split; [exact Hreach|]. split.
  - exact (proj1 (status_row_first_and_shown (repo := chain_repo)
                    (theme := two_colors) (Diff := unit)) _ Hreach).
  - exact (proj2 (status_row_first_and_shown (repo := chain_repo)
                    (theme := two_colors) (Diff := unit)) _ _ Hreset).
Defined.

(** C9 fails on [no_reference]: there is no reference and the clean status
    is shown, and the reset leaves one row, the row of the status. *)
Lemma resetWalker_no_reference_counterexample :
  ∃ m',
    resetWalker (repo := chain_repo) (theme := two_colors) no_reference
    = Some m'
    ∧ mRef no_reference = None
    ∧ mRows m' ≠ [].
Proof.
  eexists. split; [vm_compute; reflexivity|]. split; [reflexivity|].
  discriminate.
Qed.

Lemma resetWalker_no_reference_witness :
  ∃ m',
    resetWalker (repo := chain_repo) (theme := two_colors) no_reference
    = Some m'
    ∧ mParents m' = []
    ∧ mWalker m' = None
    ∧ mRows m' = [mkRow None []].
Proof.
  apply (resetWalker_no_reference (repo := chain_repo) (theme := two_colors)
           no_reference); reflexivity.
Defined.

(** ** More properties of the model *)

Section MoreProperties.

Context {Commit Reference QColor Diff : Type}.
Context {repo : Repository Commit Reference} {theme : Theme QColor}.

Implicit Types (c : Commit) (p parent : Parent Commit QColor).
Implicit Types (mParents parents : list (Parent Commit QColor)).
Implicit Types (cols : list (list (Segment QColor))).
Implicit Types (m : CommitModel Commit Reference QColor Diff).

Lemma row_commits_app (rows new : list (Row Commit QColor)) :
  row_commits (rows ++ new) = row_commits rows ++ row_commits new.
Proof. unfold row_commits. apply omap_app. Qed.

Lemma row_commits_of_commits (new : list (Row Commit QColor)) (l : list Commit) :
  row_commit <$> new = Some <$> l → row_commits new = l.
Proof.
  revert l. induction new as [|row new IH]; intros [|c l] Heq;
    try done; simpl in Heq; inversion Heq as [[H1 H2]].
  unfold row_commits. simpl. rewrite H1. simpl. f_equal. by apply IH.
Qed.

(** X1: The law of one page. In a state that [resetWalker] and [fetchMore]
    reach, on a palette that is not empty and where no commit lists a parent
    twice, [fetchMore] returns; it leaves the rows it finds as they are and
    appends one row for each of the first 65 commits the walker has left, in
    their order; the walker stays valid exactly when it had 65 or more, with
    the rest; and the commits shown and still to show together are the same as
    before. *)
Theorem fetchMore_appends_batch m :
  branchTopologyEdges ≠ [] →
  (∀ c, NoDup (commit_parents c)) →
  reachable m →
  ∃ m' new,
    fetchMore m = Some m'
    ∧ mRows m' = mRows m ++ new
    ∧ row_commit <$> new = Some <$> take 65 (default [] (mWalker m))
    ∧ mWalker m'
      = (if bool_decide (65 ≤ length (default [] (mWalker m)))
         then Some (drop 65 (default [] (mWalker m))) else None)
    ∧ history m' = history m.
Proof.
  intros Hne Hp Hm.
  destruct (fetchMore_total m Hne Hp Hm) as [m' Hf].
  destruct (fetchMore_rows m m' Hf) as (new & Hrows & Hnew & Hw).
  exists m', new. split; [done|]. split; [done|]. split; [done|].
  split; [done|]. unfold history. rewrite Hrows, Hw, row_commits_app.
  rewrite (row_commits_of_commits new _ Hnew), <- app_assoc. f_equal.
  case_bool_decide as Hlen; simpl.
  - apply take_drop.
  - rewrite take_ge by lia. by rewrite app_nil_r.
Qed.

(** X2: After a reset the model is not left with more to fetch and less than a
    full page of commits: when [canFetchMore] holds after [resetWalker], the
    rows hold 65 commits at least. *)
Theorem resetWalker_fetches_first_page m m' :
  resetWalker m = Some m' →
  canFetchMore m' = true →
  65 ≤ length (row_commits (mRows m')).
Proof.
  unfold resetWalker. intros Hreset Hcan.
  destruct (status_row m) as [[parents rows]|]; simpl in Hreset; [|done].
  destruct (canFetchMore _) eqn:Hcan1.
  - destruct (fetchMore_rows _ m' Hreset) as (new & Hrows & Hnew & Hw).
    unfold canFetchMore in Hcan. apply bool_decide_eq_true in Hcan.
    rewrite Hw in Hcan. case_bool_decide as Hlen; [|by destruct Hcan].
    rewrite Hrows, row_commits_app, (row_commits_of_commits new _ Hnew).
    rewrite length_app, length_take. lia.
  - inversion Hreset; subst m'. by rewrite Hcan in Hcan1.
Qed.

(** X3: Where no commit lists a parent twice, no two lanes hold the same
    commit, in every state that [resetWalker] and [fetchMore] reach. *)
Theorem lanes_unique_without_repeated_parent m :
  branchTopologyEdges ≠ [] →
  (∀ c, NoDup (commit_parents c)) →
  reachable m →
  ∀ i j p q,
    mParents m !! i = Some p → mParents m !! j = Some q →
    commit p = commit q → i = j.
Proof.
  intros Hne Hp Hm i j p q Hi Hj Heq.
  pose proof (reachable_NoDup m Hne Hp Hm) as Hnd.
  eapply NoDup_lookup; [exact Hnd| |]; unfold lane_commits;
    rewrite list_lookup_fmap.
  - by rewrite Hi.
  - rewrite Hj. simpl. by rewrite Heq.
Qed.

(** ** Lanes and rows *)

(** Every tainted lane of [new] is a lane of [old], not further to the
    left there. *)
Local Abbreviation tainted_kept old new :=
  (∀ k p, new !! k = Some p → tainted p = true →
          ∃ k', k ≤ k' ∧ old !! k' = Some p).

Local Abbreviation fresh_lanes mRows rows lanes :=
  (∀ q, q ∈ lane_commits lanes → Some q ∉ emitted mRows rows).

Lemma advance_inv (mRows rows : list (Row Commit QColor)) c mParents
    root parents mParents' :
  branchTopologyEdges ≠ [] →
  advance mRows rows c mParents = Some (root, parents, mParents') →
  ∃ i lane,
    indexOf parents c = Some i ∧ parents !! i = Some lane ∧ commit lane = c
    ∧ (parents = mParents
       ∨ (parents = mParents ++ [lane] ∧ tainted lane = false
          ∧ c ∉ lane_commits mParents))
    ∧ match replacements_of mRows rows parents c with
      | [] => mParents' = delete i parents
      | r :: rs =>
          ∃ new,
            mParents' = (<[i := mkParent r (color lane) false]> parents) ++ new
            ∧ lane_commits new = rs
            ∧ ∀ k p, new !! k = Some p → tainted p = false
      end.
Proof.
  intros Hne Hadv.
  destruct (add_root_spec c mParents Hne)
    as (root1 & parents1 & i & lane & Hroot & Hi & Hlane & Hc & Hcase).
  unfold advance in Hadv. rewrite Hroot in Hadv. simpl in Hadv.
  destruct (set_parents c (replacements_of mRows rows parents1 c) parents1)
    as [mParents1|] eqn:Hset; simpl in Hadv; [|done].
  inversion Hadv; subst root1 parents1 mParents1. clear Hadv.
  exists i, lane. split; [done|]. split; [done|]. split; [done|]. split.
  - destruct root; [|by left]. right.
    destruct Hcase as (Hnone & _ & Heq & Ht & _).
    split; [done|]. split; [done|]. by apply indexOf_None.
  - pose proof (set_parents_spec c (replacements_of mRows rows parents c)
                  parents i lane Hne Hi Hlane) as Hspec.
    destruct (replacements_of mRows rows parents c) as [|r rs].
    + rewrite Hset in Hspec. by inversion Hspec.
    + destruct Hspec as (new & Hset' & Hnew & Hcol). rewrite Hset in Hset'.
      inversion Hset'. exists new. split; [done|]. split; [done|].
      intros k p Hk. by destruct (Hcol k p Hk).
Qed.

Lemma advance_tainted_kept (mRows rows : list (Row Commit QColor)) c mParents
    root parents mParents' :
  branchTopologyEdges ≠ [] →
  advance mRows rows c mParents = Some (root, parents, mParents') →
  tainted_kept mParents mParents'.
Proof.
  intros Hne Hadv.
  destruct (advance_inv mRows rows c mParents root parents mParents' Hne Hadv)
    as (i & lane & Hi & Hlane & Hc & Hparents & Hnext).
  assert (Hold : ∀ k p, parents !! k = Some p → tainted p = true →
                        mParents !! k = Some p).
  { destruct Hparents as [->|(-> & Ht & _)]; [done|].
    intros k p Hk Hp. apply lookup_app_Some in Hk as [Hk|[Hlen Hk]]; [done|].
    apply list_lookup_singleton_Some in Hk as [_ <-]. congruence. }
  destruct (replacements_of mRows rows parents c) as [|r rs].
  - subst mParents'. intros k p Hk Hp.
    destruct (decide (k < i)) as [Hlt|Hge].
    + rewrite list_lookup_delete_lt in Hk by done.
      exists k. split; [done|]. by apply Hold.
    + rewrite list_lookup_delete_ge in Hk by lia.
      exists (S k). split; [lia|]. by apply Hold.
  - destruct Hnext as (new & -> & _ & Hnew). intros k p Hk Hp.
    apply lookup_app_Some in Hk as [Hk|[Hlen Hk]].
    + destruct (decide (k = i)) as [->|Hne'].
      * rewrite list_lookup_insert_eq in Hk by (by eapply lookup_lt_Some).
        inversion Hk; subst p. done.
      * rewrite list_lookup_insert_ne in Hk by done.
        exists k. split; [done|]. by apply Hold.
    + specialize (Hnew _ p Hk). congruence.
Qed.

Lemma fetch_commit_advance (graph : bool) (mRows : list (Row Commit QColor)) c
    (st st' : list (Parent Commit QColor) * list (Row Commit QColor)) :
  fetch_commit graph mRows c st = Some st' →
  ∃ root parents row,
    advance mRows st.2 c st.1 = Some (root, parents, st'.1)
    ∧ st'.2 = st.2 ++ [mkRow (Some c) row]
    ∧ (if graph then columns c parents root st'.1 = Some row else row = []).
Proof.
  unfold fetch_commit. intros H.
  destruct (advance mRows st.2 c st.1) as [[[root parents] mParents']|];
    simpl in H; [|done].
  destruct graph.
  - destruct (columns c parents root mParents') as [row|] eqn:Hrow;
      simpl in H; [|done].
    inversion H. by exists root, parents, row.
  - simpl in H. inversion H. by exists root, parents, [].
Qed.

Lemma fetch_loop_tainted_kept (graph : bool) (mRows : list (Row Commit QColor))
    (walker : list Commit) :
  branchTopologyEdges ≠ [] →
  ∀ (i : nat) c (st : list (Parent Commit QColor) * list (Row Commit QColor))
    last walker' mParents' rows',
    fetch_loop graph mRows i c walker st
    = Some (last, walker', (mParents', rows')) →
    tainted_kept st.1 mParents'.
Proof.
  intros Hne. induction walker as [|c' walker IH];
    intros i c st last walker' mParents' rows' Hloop;
    cbn [fetch_loop] in Hloop;
    destruct (fetch_commit graph mRows c st) as [st1|] eqn:Hc;
    simpl in Hloop; try done;
    destruct (fetch_commit_advance graph mRows c st st1 Hc)
      as (root & parents & row & Hadv & _);
    pose proof (advance_tainted_kept mRows st.2 c st.1 root parents st1.1
                  Hne Hadv) as HT1.
  - case_bool_decide; inversion Hloop; subst; exact HT1.
  - case_bool_decide.
    + inversion Hloop; subst; exact HT1.
    + intros k p Hk Hp.
      destruct (IH (S i) c' st1 last walker' mParents' rows' Hloop k p Hk Hp)
        as (k1 & Hk1 & Hp1).
      destruct (HT1 k1 p Hp1 Hp) as (k2 & Hk2 & Hp2).
      exists k2. split; [lia|done].
Qed.

(** The tainted lanes that [fetchMore] leaves are lanes it found: every
    lane it makes is not tainted. *)
Lemma fetchMore_tainted_kept m m' :
  branchTopologyEdges ≠ [] →
  fetchMore m = Some m' →
  tainted_kept (mParents m) (mParents m').
Proof.
  intros Hne. unfold fetchMore. intros H.
  destruct (mWalker m) as [[|c walker]|].
  - inversion H. simpl. intros k p Hk _. by exists k.
  - destruct (fetch_loop _ _ 0 c walker (mParents m, []))
      as [[[last walker'] [mParents' rows']]|] eqn:Hloop;
      simpl in H; [|done].
    inversion H. simpl.
    exact (fetch_loop_tainted_kept _ _ walker Hne 0 c (mParents m, [])
             last walker' mParents' rows' Hloop).
  - inversion H. simpl. intros k p Hk _. by exists k.
Qed.

(** The lanes that "Update status row" makes: none, or the one tainted lane
    of the target of the reference, in the first colour, when the row of
    the status is shown with the graph and the status has finished. *)
Lemma status_row_lanes m parents (rows : list (Row Commit QColor)) :
  status_row m = Some (parents, rows) →
  parents = []
  ∨ ∃ (r : Reference) (col : QColor),
      mRef m = Some r ∧ nextColor (@nil (Parent Commit QColor)) = Some col
      ∧ parents = [mkParent (target r) col true]
      ∧ status_row_shown m = true
      ∧ mGraphVisible m && isFinished (mStatus m) = true.
Proof.
  unfold status_row. intros H.
  destruct (status_row_shown m); [|inversion H; by left].
  destruct (mRef m) as [r|]; [|inversion H; by left].
  destruct (mGraphVisible m && isFinished (mStatus m));
    [|inversion H; by left].
  destruct (nextColor []) as [col|]; simpl in H; [|done].
  inversion H. right. by exists r, col.
Qed.

(** What [resetWalker] leaves of the lanes of the status row. *)
Lemma resetWalker_tainted m m' :
  branchTopologyEdges ≠ [] →
  resetWalker m = Some m' →
  ∀ k p, mParents m' !! k = Some p → tainted p = true →
    k = 0
    ∧ ∃ (r : Reference) (col : QColor),
        mRef m = Some r ∧ nextColor (@nil (Parent Commit QColor)) = Some col
        ∧ p = mkParent (target r) col true
        ∧ status_row_shown m = true
        ∧ mGraphVisible m && isFinished (mStatus m) = true.
Proof.
  intros Hne. unfold resetWalker. intros Hreset k p Hk Hp.
  destruct (status_row m) as [[parents rows]|] eqn:Hstatus;
    simpl in Hreset; [|done].
  apply status_row_lanes in Hstatus.
  assert (Hin : ∃ k', k ≤ k' ∧ parents !! k' = Some p).
  { destruct (canFetchMore _).
    - by apply (fetchMore_tainted_kept _ m' Hne Hreset k p).
    - inversion Hreset; subst m'. by exists k. }
  destruct Hin as (k' & Hle & Hk').
  destruct Hstatus as [->|(r & col & Href & Hcol & -> & Hshown & Hgraph)];
    [done|].
  apply list_lookup_singleton_Some in Hk' as [-> <-].
  split; [lia|]. by exists r, col.
Qed.

(** X4: The one tainted lane. In every state that [resetWalker] and
    [fetchMore] reach, a tainted lane is lane 0 and is the lane of the
    target of a reference, in the first colour of the palette. After a reset
    it is the lane that [resetWalker] made for the row of the status: the
    reference is that of the model, and the row of the status is shown with
    the graph once the status has finished. And [fetchMore] makes no tainted
    lane: a tainted lane it leaves is lane 0 and was lane 0, the same, when
    it began. *)
Theorem tainted_lane_is_first m :
  branchTopologyEdges ≠ [] →
  reachable m →
  (∀ k p, mParents m !! k = Some p → tainted p = true →
     k = 0
     ∧ ∃ (r : Reference) (col : QColor),
         nextColor (@nil (Parent Commit QColor)) = Some col ∧ p = mkParent (target r) col true)
  ∧ (∀ m0 k p,
       resetWalker m0 = Some m → mParents m !! k = Some p →
       tainted p = true →
       ∃ r : Reference,
         mRef m0 = Some r ∧ commit p = target r
         ∧ status_row_shown m0 = true
         ∧ mGraphVisible m0 && isFinished (mStatus m0) = true)
  ∧ (∀ m' k p,
       fetchMore m = Some m' → mParents m' !! k = Some p →
       tainted p = true →
       k = 0 ∧ mParents m !! 0 = Some p).
Proof.
  intros Hne Hm.
  assert (Hinv : ∀ k p, mParents m !! k = Some p → tainted p = true →
            k = 0
            ∧ ∃ (r : Reference) (col : QColor),
                nextColor (@nil (Parent Commit QColor)) = Some col ∧ p = mkParent (target r) col true).
  { induction Hm as [m m' Hreset|m m' Hm IH Hfetch|m m' Hm IH Hpar Hr].
    - intros k p Hk Hp.
      destruct (resetWalker_tainted m m' Hne Hreset k p Hk Hp)
        as (-> & r & col & _ & Hcol & -> & _).
      split; [done|]. by exists r, col.
    - intros k p Hk Hp.
      destruct (fetchMore_tainted_kept m m' Hne Hfetch k p Hk Hp)
        as (k' & Hle & Hk').
      destruct (IH k' p Hk' Hp) as [-> Hshape]. split; [lia|done].
    - by rewrite Hpar. }
  split; [exact Hinv|]. split.
  - intros m0 k p Hreset Hk Hp.
    destruct (resetWalker_tainted m0 m Hne Hreset k p Hk Hp)
      as (_ & r & col & Href & _ & -> & Hshown & Hgraph).
    by exists r.
  - intros m' k p Hfetch Hk Hp.
    destruct (fetchMore_tainted_kept m m' Hne Hfetch k p Hk Hp)
      as (k' & Hle & Hk').
    destruct (Hinv k' p Hk' Hp) as [-> _].
    split; [lia|done].
Qed.

(** X5: Laying out a commit leaves every other lane as it is, with its commit,
    its colour and its taint: in the same place when a parent takes the lane
    of the commit, one place to the left for the lanes after it when the lane
    of the commit is taken out. *)
Theorem other_lanes_keep_place (mRows rows : list (Row Commit QColor)) c
    mParents root parents mParents' (i : nat) :
  branchTopologyEdges ≠ [] →
  advance mRows rows c mParents = Some (root, parents, mParents') →
  indexOf parents c = Some i →
  (∀ k p, mParents !! k = Some p → parents !! k = Some p)
  ∧ ∀ k p, parents !! k = Some p → k ≠ i →
      if decide (replacements_of mRows rows parents c = [])
      then mParents' !! (if bool_decide (k < i) then k else k - 1) = Some p
      else mParents' !! k = Some p.
Proof.
  intros Hne Hadv Hi.
  destruct (advance_inv mRows rows c mParents root parents mParents' Hne Hadv)
    as (i' & lane & Hi' & Hlane & Hc & Hparents & Hnext).
  rewrite Hi in Hi'. inversion Hi'; subst i'. clear Hi'. split.
  - intros k p Hk. destruct Hparents as [->|(-> & _)]; [done|].
    by apply lookup_app_l_Some.
  - intros k p Hk Hki.
    destruct (replacements_of mRows rows parents c) as [|r rs].
    + rewrite decide_True by done. subst mParents'.
      case_bool_decide as Hlt.
      * by rewrite list_lookup_delete_lt.
      * rewrite list_lookup_delete_ge by lia.
        by replace (S (k - 1)) with k by lia.
    + rewrite decide_False by done.
      destruct Hnext as (new & -> & _).
      rewrite lookup_app_l
        by (rewrite length_insert; by eapply lookup_lt_Some).
      by rewrite list_lookup_insert_ne.
Qed.

Lemma elem_of_delete_NoDup {A : Type} (l : list A) (i : nat) (x y : A) :
  NoDup l → l !! i = Some x → y ∈ delete i l → y ∈ l ∧ y ≠ x.
Proof.
  revert i. induction l as [|z l IH]; intros i Hnd Hi Hy; [done|].
  apply NoDup_cons in Hnd as [Hz Hnd]. destruct i as [|i]; simpl in *.
  - inversion Hi; subst z. split; [by right|]. by intros ->.
  - apply elem_of_cons in Hy as [->|Hy].
    + split; [by left|]. intros ->. apply Hz. by eapply list_elem_of_lookup_2.
    + destruct (IH i Hnd Hi Hy). split; [by right|done].
Qed.

Lemma elem_of_insert_delete {A : Type} (l : list A) (i : nat) (x y : A) :
  y ∈ <[i := x]> l → y = x ∨ y ∈ delete i l.
Proof.
  revert i. induction l as [|z l IH]; intros i; simpl.
  - intros Hy. by apply elem_of_nil in Hy.
  - destruct i as [|i]; simpl; rewrite !elem_of_cons.
    + intros [->|Hy]; auto.
    + intros [->|Hy]; auto. destruct (IH i Hy); auto.
Qed.

Lemma advance_fresh (mRows rows : list (Row Commit QColor)) c mParents
    root parents mParents' (cols : list (list (Segment QColor))) :
  branchTopologyEdges ≠ [] →
  NoDup (lane_commits mParents) → NoDup (commit_parents c) →
  advance mRows rows c mParents = Some (root, parents, mParents') →
  fresh_lanes mRows rows mParents →
  fresh_lanes mRows (rows ++ [mkRow (Some c) cols]) mParents'.
Proof.
  intros Hne Hnd Hndp Hadv Hfresh.
  destruct (advance_NoDup mRows rows c mParents root parents mParents'
              Hne Hnd Hndp Hadv) as [Hndparents _].
  destruct (advance_inv mRows rows c mParents root parents mParents' Hne Hadv)
    as (i & lane & Hi & Hlane & Hc & Hparents & Hnext).
  assert (Hold : ∀ q, q ∈ lane_commits (delete i parents) →
                      Some q ∉ emitted mRows (rows ++ [mkRow (Some c) cols])).
  { intros q Hq. unfold lane_commits in Hq. rewrite list_fmap_delete in Hq.
    apply (elem_of_delete_NoDup _ i c) in Hq as [Hq Hqc].
    - unfold emitted. rewrite app_assoc, fmap_app. simpl.
      rewrite elem_of_app, list_elem_of_singleton.
      intros [Hin|Heq]; [|congruence].
      apply (Hfresh q); [|exact Hin].
      destruct Hparents as [->|(-> & _)]; [exact Hq|].
      unfold lane_commits in Hq. rewrite fmap_app in Hq. simpl in Hq.
      apply elem_of_app in Hq as [Hq|Hq]; [exact Hq|].
      apply list_elem_of_singleton in Hq. congruence.
    - exact Hndparents.
    - rewrite list_lookup_fmap, Hlane. simpl. by rewrite Hc. }
  assert (Hnew : ∀ q, q ∈ replacements_of mRows rows parents c →
                      Some q ∉ emitted mRows (rows ++ [mkRow (Some c) cols])).
  { intros q Hq. rewrite replacements_of_filter in Hq.
    apply list_elem_of_filter in Hq as [[Hq1 Hq2] _].
    unfold emitted. rewrite app_assoc, fmap_app. simpl.
    rewrite elem_of_app, list_elem_of_singleton.
    intros [Hin|Heq]; [by apply Hq2|].
    inversion Heq; subst q. apply Hq1. unfold lane_commits.
    apply list_elem_of_fmap. exists lane. split; [done|].
    by eapply list_elem_of_lookup_2. }
  destruct (replacements_of mRows rows parents c) as [|r rs].
  - subst mParents'. exact Hold.
  - destruct Hnext as (new & -> & Hrs & _). intros q Hq.
    unfold lane_commits in Hq. rewrite fmap_app, list_fmap_insert in Hq.
    simpl in Hq. apply elem_of_app in Hq as [Hq|Hq].
    + apply elem_of_insert_delete in Hq as [->|Hq].
      * apply Hnew. by left.
      * apply Hold. unfold lane_commits. by rewrite list_fmap_delete.
    + apply Hnew. right. unfold lane_commits in Hrs. by rewrite <- Hrs.
Qed.

Lemma fetch_loop_fresh (graph : bool) (mRows : list (Row Commit QColor))
    (walker : list Commit) :
  branchTopologyEdges ≠ [] →
  (∀ c, NoDup (commit_parents c)) →
  ∀ (i : nat) c (st : list (Parent Commit QColor) * list (Row Commit QColor))
    last walker' mParents' rows',
    NoDup (lane_commits st.1) →
    fresh_lanes mRows st.2 st.1 →
    fetch_loop graph mRows i c walker st
    = Some (last, walker', (mParents', rows')) →
    fresh_lanes mRows rows' mParents'.
Proof.
  intros Hne Hp. induction walker as [|c' walker IH];
    intros i c st last walker' mParents' rows' Hnd Hfresh Hloop;
    cbn [fetch_loop] in Hloop;
    destruct (fetch_commit graph mRows c st) as [st1|] eqn:Hc;
    simpl in Hloop; try done;
    destruct (fetch_commit_advance graph mRows c st st1 Hc)
      as (root & parents & row & Hadv & Hrows & _);
    pose proof (advance_fresh mRows st.2 c st.1 root parents st1.1 row
                  Hne Hnd (Hp c) Hadv Hfresh) as Hfresh1;
    rewrite <- Hrows in Hfresh1;
    destruct (advance_NoDup mRows st.2 c st.1 root parents st1.1
                Hne Hnd (Hp c) Hadv) as [_ Hnd1].
  - case_bool_decide; inversion Hloop; subst; exact Hfresh1.
  - case_bool_decide.
    + inversion Hloop; subst; exact Hfresh1.
    + by apply (IH (S i) c' st1 last walker' mParents' rows').
Qed.

Lemma fetchMore_fresh m m' :
  branchTopologyEdges ≠ [] →
  (∀ c, NoDup (commit_parents c)) →
  NoDup (lane_commits (mParents m)) →
  fetchMore m = Some m' →
  fresh_lanes (mRows m) [] (mParents m) →
  fresh_lanes (mRows m') [] (mParents m').
Proof.
  intros Hne Hp Hnd. unfold fetchMore. intros H Hfresh.
  destruct (mWalker m) as [[|c walker]|].
  - inversion H. simpl. by rewrite app_nil_r.
  - destruct (fetch_loop _ _ 0 c walker (mParents m, []))
      as [[[last walker'] [mParents' rows']]|] eqn:Hloop;
      simpl in H; [|done].
    inversion H. simpl. unfold emitted. rewrite app_nil_r.
    by apply (fetch_loop_fresh _ _ walker Hne Hp 0 c (mParents m, [])
                last walker' mParents' rows' Hnd Hfresh Hloop).
  - inversion H. simpl. by rewrite app_nil_r.
Qed.

(** X6: A commit is never in a lane and in a row at once: where no commit
    lists a parent twice, the commit of a lane has no row yet, in every state
    that [resetWalker] and [fetchMore] reach. *)
Theorem lane_commit_has_no_row m :
  branchTopologyEdges ≠ [] →
  (∀ c, NoDup (commit_parents c)) →
  reachable m →
  ∀ p, p ∈ mParents m → commit p ∉ row_commits (mRows m).
Proof.
  intros Hne Hp Hm.
  assert (Hfresh : fresh_lanes (mRows m) [] (mParents m)).
  { induction Hm as [m m' Hreset|m m' Hm IH Hfetch|m m' Hm IH Hpar Hr].
    - unfold resetWalker in Hreset.
      destruct (status_row m) as [[parents rows]|] eqn:Hstatus;
        simpl in Hreset; [|done].
      apply status_row_spec in Hstatus as [Hlen Hrows].
      assert (Hnd : NoDup (lane_commits parents)).
      { destruct parents as [|p [|q parents]]; simpl in *; try lia.
        - constructor.
        - apply NoDup_singleton. }
      assert (Hfr : fresh_lanes rows [] parents).
      { intros q _. unfold emitted. rewrite app_nil_r.
        destruct (status_row_shown m).
        - destruct Hrows as (cols & -> & _). simpl.
          rewrite list_elem_of_singleton. done.
        - destruct Hrows as [-> _]. simpl. apply not_elem_of_nil. }
      destruct (canFetchMore _).
      + match type of Hreset with
        | fetchMore ?m1 = _ =>
            exact (fetchMore_fresh m1 m' Hne Hp Hnd Hreset Hfr)
        end.
      + by inversion Hreset.
    - apply (fetchMore_fresh m m' Hne Hp); try done.
      by apply reachable_NoDup.
    - by rewrite Hpar, Hr. }
  intros p Hin Hrow. apply (Hfresh (commit p)).
  - unfold lane_commits. apply list_elem_of_fmap. by exists p.
  - unfold emitted. rewrite app_nil_r. unfold row_commits in Hrow.
    apply list_elem_of_omap in Hrow as (row & Hrow & Heq).
    apply list_elem_of_fmap. by exists row.
Qed.

(** ** The width and the marks of a row *)

Lemma route_width c mParents parent (successors : list Commit) (i : nat)
    (successor : Commit) cols cols' :
  route c mParents parent successors i successor cols = Some cols' →
  length cols' ≤ length cols `max` length mParents.
Proof.
  intros Hr. destruct (indexOf mParents successor) as [j|] eqn:Hidx.
  - destruct (route_inv c mParents parent successors i successor cols cols' j
                Hidx Hr) as [Hi Hj].
    destruct (route_spec c mParents parent successors i successor cols j
                Hidx Hi Hj) as (col & cols1 & _ & Hr' & Hl & _).
    rewrite Hr in Hr'. inversion Hr'; subst cols1.
    apply indexOf_lt in Hidx. unfold Column in *. lia.
  - rewrite route_skip in Hr by done. inversion Hr. lia.
Qed.

Lemma foreach_route_width c mParents parent (successors : list Commit)
    (i : nat) (l : list Commit) :
  ∀ cols cols',
    foreach (route c mParents parent successors i) l cols = Some cols' →
    length cols' ≤ length cols `max` length mParents.
Proof.
  induction l as [|s l IH]; intros cols cols' H; cbn [foreach] in H.
  - inversion H. lia.
  - destruct (route c mParents parent successors i s cols) as [cols1|] eqn:Hr;
      simpl in H; [|done].
    apply route_width in Hr. apply IH in H. unfold Column in *. lia.
Qed.

Lemma outgoing_width c parents mParents :
  ∀ (n lo : nat) cols cols',
    for_loop (λ i cols,
        parent ← parents !! i;
        let successors := successors_of c parent in
        foreach (route c mParents parent successors i) successors cols)
      lo n cols = Some cols' →
    length cols' ≤ length cols `max` length mParents.
Proof.
  induction n as [|n IH]; intros lo cols cols' H; cbn [for_loop] in H.
  - inversion H. lia.
  - destruct (parents !! lo) as [parent|]; simpl in H; [|done].
    destruct (foreach (route c mParents parent (successors_of c parent) lo)
                (successors_of c parent) cols) as [cols1|] eqn:Hf;
      simpl in H; [|done].
    apply foreach_route_width in Hf. apply IH in H. unfold Column in *. lia.
Qed.

(** X7: A row has a column for every lane of its commit and is never wider
    than the wider of the two rows of lanes it joins: the lanes of the commit
    and the lanes of the next row. *)
Theorem columns_width c parents root mParents
    (row : list (list (Segment QColor))) :
  columns c parents root mParents = Some row →
  length parents ≤ length row ≤ length parents `max` length mParents.
Proof.
  intros H. split; [by apply (columns_spec c parents root mParents row)|].
  revert H. unfold columns, Column. cbv zeta. intros H.
  destruct (for_loop_lanes_spec
              (λ parent, mkSegment Top (taintedColor parent None)) parents
              (if root then length parents - 1 else length parents) 0
              (replicate (length parents) []))
    as (cols1 & Hr1 & Hl1 & _).
  { destruct root; lia. }
  { rewrite length_replicate. destruct root; lia. }
  rewrite length_replicate in Hl1. unfold Column in *. rewrite Hr1 in H.
  simpl in H.
  destruct (for_loop _ 0 (length parents) cols1) as [cols2|] eqn:Hr2;
    simpl in H; [|done].
  pose proof (outgoing_width c parents mParents (length parents) 0 cols1 cols2
                Hr2) as Hw.
  destruct (outgoing_segments c parents mParents (length parents) 0 cols1 cols2
              ltac:(lia) Hr2) as [Hl2 _].
  destruct (for_loop_lanes_spec
              (λ parent, mkSegment
                           (if bool_decide (commit parent = c)
                            then Dot else Middle)
                           (taintedColor parent None)) parents
              (length parents) 0 cols2)
    as (cols3 & Hr3 & Hl3 & _); [lia|lia|].
  unfold Column in *. rewrite Hr3 in H. inversion H; subst cols3. lia.
Qed.

Lemma path_segments_kinds (i index : nat) (col : QColor) (k : nat)
    (s : Segment QColor) :
  s ∈ path_segments i index col k →
  segment s ∈ [RightIn; Cross; LeftOut; RightOut; LeftIn; Bottom].
Proof.
  unfold path_segments.
  repeat case_bool_decide; intros Hs;
    try (by apply elem_of_nil in Hs);
    apply list_elem_of_singleton in Hs; subst s; simpl;
    repeat (first [by left | right]).
Qed.

Lemma lanes_paths_kinds (paths : list (nat * nat * QColor)) (k : nat)
    (s : Segment QColor) :
  s ∈ flat_map (λ '(i, index, col), path_segments i index col k) paths →
  segment s ≠ Top ∧ segment s ≠ Dot ∧ segment s ≠ Middle.
Proof.
  induction paths as [|[[i index] col] paths IH]; simpl; intros Hs.
  - by apply elem_of_nil in Hs.
  - apply elem_of_app in Hs as [Hs|Hs]; [|by apply IH].
    apply path_segments_kinds in Hs.
    repeat (apply elem_of_cons in Hs as [->|Hs]; [done|]).
    by apply elem_of_nil in Hs.
Qed.

Lemma marks_of_column (tops mids marks : list GraphSegment) :
  (∀ x, x ∈ mids → x ≠ Top ∧ x ≠ Dot ∧ x ≠ Middle) →
  tops = [] ∨ tops = [Top] →
  marks = [] ∨ marks = [Dot] ∨ marks = [Middle] →
  (Top ∈ tops ++ mids ++ marks ↔ tops = [Top])
  ∧ (Dot ∈ tops ++ mids ++ marks ↔ marks = [Dot])
  ∧ (Middle ∈ tops ++ mids ++ marks ↔ marks = [Middle])
  ∧ (∀ j, (tops ++ mids ++ marks) !! j = Some Top → j = 0)
  ∧ ∀ j kind, (tops ++ mids ++ marks) !! j = Some kind →
      kind = Dot ∨ kind = Middle → S j = length (tops ++ mids ++ marks).
Proof.
  intros Hmids Htops Hmarks.
  assert (Hin : ∀ x, x ∈ tops ++ mids ++ marks →
            (x ∈ tops ∧ tops = [Top] ∧ x = Top)
            ∨ (x ∈ mids ∧ x ≠ Top ∧ x ≠ Dot ∧ x ≠ Middle)
            ∨ (x ∈ marks ∧ marks = [x] ∧ (x = Dot ∨ x = Middle))).
  { intros x Hx. rewrite !elem_of_app in Hx. destruct Hx as [Hx|[Hx|Hx]].
    - left. destruct Htops as [-> | ->]; [by apply elem_of_nil in Hx|].
      apply list_elem_of_singleton in Hx. subst x. split; [by left|done].
    - right. left. split; [done|]. by apply Hmids.
    - right. right. destruct Hmarks as [-> | [-> | ->]].
      + by apply elem_of_nil in Hx.
      + apply list_elem_of_singleton in Hx. subst x. split; [by left|auto].
      + apply list_elem_of_singleton in Hx. subst x. split; [by left|auto]. }
  split; [|split; [|split; [|split]]].
  - split.
    + intros Hx.
      destruct (Hin _ Hx) as [(_ & H1 & _)|[(_ & H1 & _)|(_ & _ & [H1|H1])]];
        done.
    + intros ->. by left.
  - split.
    + intros Hx.
      destruct (Hin _ Hx) as [(_ & _ & H1)|[(_ & _ & H1 & _)|(_ & H1 & _)]];
        done.
    + intros ->. rewrite !elem_of_app. right. right. by left.
  - split.
    + intros Hx.
      destruct (Hin _ Hx) as [(_ & _ & H1)|[(_ & _ & _ & H1)|(_ & H1 & _)]];
        done.
    + intros ->. rewrite !elem_of_app. right. right. by left.
  - intros j Hj. apply lookup_app_Some in Hj as [Hj|[Hlen Hj]].
    + apply lookup_lt_Some in Hj. destruct Htops as [-> | ->]; simpl in Hj; lia.
    + apply lookup_app_Some in Hj as [Hj|[_ Hj]].
      * apply list_elem_of_lookup_2, Hmids in Hj. by destruct Hj.
      * apply list_elem_of_lookup_2 in Hj.
        destruct Hmarks as [-> | [-> | ->]].
        -- by apply elem_of_nil in Hj.
        -- by apply list_elem_of_singleton in Hj.
        -- by apply list_elem_of_singleton in Hj.
  - intros j kind Hj Hkind. rewrite !length_app.
    apply lookup_app_Some in Hj as [Hj|[Hlen Hj]].
    + apply list_elem_of_lookup_2 in Hj.
      destruct Htops as [-> | ->]; [by apply elem_of_nil in Hj|].
      apply list_elem_of_singleton in Hj. subst kind. by destruct Hkind.
    + apply lookup_app_Some in Hj as [Hj|[Hlen2 Hj]].
      * apply list_elem_of_lookup_2, Hmids in Hj.
        destruct Hkind as [-> | ->]; by destruct Hj as (H1 & H2 & H3).
      * apply lookup_lt_Some in Hj.
        destruct Hmarks as [-> | [-> | ->]]; simpl in *; lia.
Qed.

(** X8: The marks of a row. A column begins with the line from above exactly
    when its lane comes from the row above (every lane of the commit's row but
    the one just made for a commit that no lane held) and has it nowhere else;
    it ends with the dot exactly when its lane holds the commit of the row,
    with the line through the middle exactly when its lane holds another
    commit, and has neither anywhere else. *)
Theorem columns_marks c parents root mParents
    (row : list (list (Segment QColor))) (k : nat) (col : list (Segment QColor)) :
  columns c parents root mParents = Some row →
  row !! k = Some col →
  (Top ∈ segment <$> col
   ↔ k < (if root then length parents - 1 else length parents))
  ∧ (Dot ∈ segment <$> col ↔ ∃ p, parents !! k = Some p ∧ commit p = c)
  ∧ (Middle ∈ segment <$> col ↔ ∃ p, parents !! k = Some p ∧ commit p ≠ c)
  ∧ (∀ j, (segment <$> col) !! j = Some Top → j = 0)
  ∧ ∀ j kind, (segment <$> col) !! j = Some kind →
      kind = Dot ∨ kind = Middle → S j = length col.
Proof.
  intros Hcols Hk.
  destruct (columns_spec c parents root mParents row Hcols) as [_ Hrow].
  rewrite (Hrow k) in Hk by (by eapply lookup_lt_Some).
  inversion Hk as [Hcol]. clear Hk Hrow Hcols.
  rewrite <- (length_fmap segment (row_column c parents root mParents k)).
  unfold row_column. cbv zeta. rewrite !fmap_app.
  set (incoming := if root then length parents - 1 else length parents).
  assert (Hinc : incoming ≤ length parents)
    by (unfold incoming; destruct root; lia).
  match goal with
  | |- context [segment <$> flat_map ?f ?l] =>
      pose proof (lanes_paths_kinds l k) as Hpaths;
      set (paths := flat_map f l) in *
  end.
  assert (Hmids : ∀ x, x ∈ segment <$> paths →
            x ≠ Top ∧ x ≠ Dot ∧ x ≠ Middle).
  { intros x Hx. apply list_elem_of_fmap in Hx as (s & -> & Hs). auto. }
  clearbody paths. clear Hpaths.
  match goal with
  | |- context [?tops ++ (segment <$> paths) ++ ?marks] =>
      assert (Htops : tops = if bool_decide (k < incoming) then [Top] else []);
      [|assert (Hmarks :
          marks = match parents !! k with
                  | Some p => if bool_decide (commit p = c)
                              then [Dot] else [Middle]
                  | None => []
                  end);
        [|destruct (marks_of_column tops (segment <$> paths) marks Hmids)
            as (HT & HD & HM & Hfirst & Hlast);
          [| |]]]
  end.
  - case_bool_decide as Hlt; [|done].
    destruct (lookup_lt_is_Some_2 parents k) as [p ->]; [lia|]. done.
  - destruct (parents !! k) as [p|]; simpl; [|done].
    by destruct (bool_decide (commit p = c)).
  - rewrite Htops. destruct (bool_decide (k < incoming)); auto.
  - rewrite Hmarks. destruct (parents !! k) as [p|]; auto.
    destruct (bool_decide (commit p = c)); auto.
  - split; [|split; [|split; [|split]]].
    + rewrite HT, Htops. destruct (decide (k < incoming)) as [Hlt|Hge].
      * by rewrite bool_decide_eq_true_2.
      * by rewrite bool_decide_eq_false_2.
    + rewrite HD, Hmarks. destruct (parents !! k) as [p|].
      * destruct (decide (commit p = c)) as [Hc|Hc].
        -- rewrite bool_decide_eq_true_2 by done. split; [|done].
           intros _. by exists p.
        -- rewrite bool_decide_eq_false_2 by done. split; [done|].
           intros (q & Hq & Hqc). inversion Hq; subst q. done.
      * split; [done|]. by intros (q & Hq & _).
    + rewrite HM, Hmarks. destruct (parents !! k) as [p|].
      * destruct (decide (commit p = c)) as [Hc|Hc].
        -- rewrite bool_decide_eq_true_2 by done. split; [done|].
           intros (q & Hq & Hqc). inversion Hq; subst q. done.
        -- rewrite bool_decide_eq_false_2 by done. split; [|done].
           intros _. by exists p.
      * split; [done|]. by intros (q & Hq & _).
    + exact Hfirst.
    + exact Hlast.
Qed.

(** ** Resets *)

Lemma fetch_loop_no_columns (mRows : list (Row Commit QColor))
    (walker : list Commit) :
  ∀ (i : nat) c (st : list (Parent Commit QColor) * list (Row Commit QColor))
    last walker' mParents' rows',
    Forall (λ row, row_columns row = []) st.2 →
    fetch_loop false mRows i c walker st
    = Some (last, walker', (mParents', rows')) →
    Forall (λ row, row_columns row = []) rows'.
Proof.
  induction walker as [|c' walker IH];
    intros i c st last walker' mParents' rows' Hst Hloop;
    cbn [fetch_loop] in Hloop;
    destruct (fetch_commit false mRows c st) as [st1|] eqn:Hc;
    simpl in Hloop; try done;
    destruct (fetch_commit_advance false mRows c st st1 Hc)
      as (root & parents & row & _ & Hrows & ->);
    assert (Hst1 : Forall (λ row, row_columns row = []) st1.2)
      by (rewrite Hrows; apply Forall_app; split; [done|by constructor]).
  - case_bool_decide; inversion Hloop; subst; exact Hst1.
  - case_bool_decide.
    + inversion Hloop; subst; exact Hst1.
    + by apply (IH (S i) c' st1 last walker' mParents' rows').
Qed.

Lemma resetWalker_no_columns m m' :
  resetWalker m = Some m' →
  mGraphVisible m && bool_decide (mPathspec m = "") = false →
  Forall (λ row, row_columns row = []) (mRows m').
Proof.
  unfold resetWalker. intros Hreset Hgraph.
  destruct (status_row m) as [[parents rows]|] eqn:Hstatus;
    simpl in Hreset; [|done].
  assert (Hrows : Forall (λ row, row_columns row = []) rows).
  { unfold status_row, status_row_shown in Hstatus.
    destruct (status_head m && status_valid m); simpl in Hstatus.
    - destruct (bool_decide (mPathspec m = "")).
      + rewrite andb_true_r in Hgraph. rewrite Hgraph in Hstatus.
        simpl in Hstatus.
        destruct (mRef m); inversion Hstatus; by repeat constructor.
      + inversion Hstatus. constructor.
    - inversion Hstatus. constructor. }
  destruct (canFetchMore _).
  - unfold fetchMore in Hreset. simpl in Hreset.
    destruct (begin_walk m) as [[|c walker]|].
    + inversion Hreset. simpl. by rewrite app_nil_r.
    + rewrite Hgraph in Hreset.
      destruct (fetch_loop false rows 0 c walker (parents, []))
        as [[[last walker'] [mParents' rows']]|] eqn:Hloop;
        simpl in Hreset; [|done].
      inversion Hreset. simpl. apply Forall_app. split; [done|].
      by apply (fetch_loop_no_columns rows walker 0 c (parents, [])
                  last walker' mParents' rows').
    + inversion Hreset. simpl. by rewrite app_nil_r.
  - by inversion Hreset.
Qed.

(** X9: With the graph hidden no row has columns after a reset, the row of the
    status included. *)
Theorem hidden_graph_has_no_columns m m' :
  resetWalker m = Some m' →
  mGraphVisible m = false →
  ∀ row, row ∈ mRows m' → row_columns row = [].
Proof.
  intros Hreset Hgraph row Hrow.
  assert (Hcols : Forall (λ row, row_columns row = []) (mRows m'))
    by (apply (resetWalker_no_columns m m' Hreset); by rewrite Hgraph).
  by apply (proj1 (Forall_forall _ _) Hcols).
Qed.

(** X10: A new pathspec that is not empty leaves rows of commits only, without
    the row of the status and without columns, and is the pathspec of the
    model afterwards. *)
Theorem setPathspec_filters (pathspec : string) m m' :
  pathspec ≠ "" →
  mPathspec m ≠ pathspec →
  setPathspec pathspec m = Some m' →
  mPathspec m' = pathspec
  ∧ ∀ row, row ∈ mRows m' → is_Some (row_commit row) ∧ row_columns row = [].
Proof.
  intros Hne Hnew. unfold setPathspec.
  rewrite bool_decide_eq_false_2 by done. intros Hreset.
  pose proof Hreset as Hcols. apply resetWalker_no_columns in Hcols;
    [|simpl; rewrite (bool_decide_eq_false_2 (pathspec = "")) by done;
      apply andb_false_r].
  destruct (resetWalker_rows _ m' Hreset)
    as (parents & rows & new & Hstatus & Hrows & Hcommits).
  apply status_row_spec in Hstatus as [_ Hshown].
  unfold status_row_shown in Hshown. simpl in Hshown.
  rewrite (bool_decide_eq_false_2 (pathspec = "")) in Hshown by done.
  rewrite andb_false_r in Hshown. destruct Hshown as [-> _].
  split.
  - unfold resetWalker in Hreset.
    destruct (status_row _) as [[parents' rows']|]; simpl in Hreset; [|done].
    destruct (canFetchMore _); [|by inversion Hreset].
    unfold fetchMore in Hreset. simpl in Hreset.
    destruct (begin_walk _) as [[|c walker]|];
      try (by inversion Hreset).
    destruct (fetch_loop _ _ _ _ _ _) as [[[last walker'] [mParents' rows'']]|];
      simpl in Hreset; [|done].
    by inversion Hreset.
  - intros row Hrow. split.
    + rewrite Hrows in Hrow. simpl in Hrow.
      by apply (proj1 (Forall_forall _ _) Hcommits).
    + by apply (proj1 (Forall_forall _ _) Hcols).
Qed.

(** X11: The signal [statusFinished] carries [true] exactly when the reset
    that goes before it shows the row of the status. *)
Theorem statusFinished_visible m m' (visible : bool) :
  on_status_finished m = Some (m', visible) →
  visible = status_row_shown m.
Proof.
  unfold on_status_finished. intros H.
  destruct (resetWalker m) as [m1|] eqn:Hreset; simpl in H; [|done].
  inversion H; subst m1 visible. clear H.
  destruct (resetWalker_rows m m' Hreset)
    as (parents & rows & new & Hstatus & Hrows & Hcommits).
  apply status_row_spec in Hstatus as [_ Hshown].
  unfold status_visible. rewrite Hrows.
  destruct (status_row_shown m).
  - destruct Hshown as (cols & -> & _). done.
  - destruct Hshown as [-> _]. simpl. destruct new as [|row new]; [done|].
    apply Forall_cons in Hcommits as [[c Hc] _]. by rewrite Hc.
Qed.

Lemma fetchMore_settings m m' :
  fetchMore m = Some m' →
  mStatus m' = mStatus m ∧ mPathspec m' = mPathspec m ∧ mRef m' = mRef m
  ∧ mRefsAll m' = mRefsAll m ∧ mSortDate m' = mSortDate m
  ∧ mCleanStatus m' = mCleanStatus m ∧ mGraphVisible m' = mGraphVisible m.
Proof.
  unfold fetchMore. intros H.
  destruct (mWalker m) as [[|c walker]|]; try (by inversion H).
  destruct (fetch_loop _ _ _ _ _ _) as [[[last walker'] [mParents' rows']]|];
    simpl in H; [|done].
  by inversion H.
Qed.

Lemma resetWalker_settings m m' :
  resetWalker m = Some m' →
  mStatus m' = mStatus m ∧ mPathspec m' = mPathspec m ∧ mRef m' = mRef m
  ∧ mRefsAll m' = mRefsAll m ∧ mSortDate m' = mSortDate m
  ∧ mCleanStatus m' = mCleanStatus m ∧ mGraphVisible m' = mGraphVisible m.
Proof.
  unfold resetWalker. intros H.
  destruct (status_row m) as [[parents rows]|]; simpl in H; [|done].
  destruct (canFetchMore _).
  - by apply fetchMore_settings in H.
  - by inversion H.
Qed.

(** A reset on a reference that is valid takes nothing from the rows, the
    lanes and the walker it finds: two models with the same reference,
    pathspec, status and settings are reset to the same model. *)
Lemma resetWalker_forgets m1 m2 :
  is_Some (mRef m1) →
  mStatus m2 = mStatus m1 → mPathspec m2 = mPathspec m1 → mRef m2 = mRef m1 →
  mRefsAll m2 = mRefsAll m1 → mSortDate m2 = mSortDate m1 →
  mCleanStatus m2 = mCleanStatus m1 → mGraphVisible m2 = mGraphVisible m1 →
  resetWalker m2 = resetWalker m1.
Proof.
  intros [r Hr] H1 H2 H3 H4 H5 H6 H7.
  unfold resetWalker, status_row, status_row_shown, status_head, status_valid,
    status, begin_walk, walker_sort.
  by rewrite H1, H2, H3, H4, H5, H6, H7, Hr.
Qed.

(** X12: Resetting twice is resetting once, on a reference that is valid: the
    model that [resetWalker] returns is reset to itself. *)
Theorem resetWalker_idempotent m m' :
  is_Some (mRef m) →
  resetWalker m = Some m' →
  resetWalker m' = Some m'.
Proof.
  intros Href Hreset.
  destruct (resetWalker_settings m m' Hreset)
    as (H1 & H2 & H3 & H4 & H5 & H6 & H7).
  by rewrite (resetWalker_forgets m m' Href H1 H2 H3 H4 H5 H6 H7).
Qed.

(** ** The lines between two rows *)

(** A path ends in the column of its target lane, with [Bottom] when it
    stays in its lane, with [LeftIn] when it comes from the left and with
    [RightIn] when it comes from the right. *)
Lemma path_segments_target (i index : nat) (col : QColor) (k : nat)
    (s : Segment QColor) :
  s ∈ path_segments i index col k →
  segment s ∈ [Bottom; LeftIn; RightIn] → k = index.
Proof.
  unfold path_segments. intros Hs Hkind.
  repeat case_bool_decide; try (by apply elem_of_nil in Hs);
    apply list_elem_of_singleton in Hs; subst s; simpl in Hkind;
    try lia;
    repeat (apply elem_of_cons in Hkind as [Hkind|Hkind]; [done|]);
    by apply elem_of_nil in Hkind.
Qed.

Lemma path_segments_arrives (i index : nat) (col : QColor) :
  ∃ s, s ∈ path_segments i index col index
       ∧ segment s ∈ [Bottom; LeftIn; RightIn].
Proof.
  unfold path_segments.
  destruct (decide (index < i)) as [Hlt|Hge].
  - rewrite (bool_decide_eq_true_2 (index < i)) by done.
    rewrite (bool_decide_eq_true_2 (index = index)) by done.
    eexists. split; [by left|]. simpl. right. right. by left.
  - rewrite (bool_decide_eq_false_2 (index < i)) by done.
    destruct (decide (i < index)) as [Hlt|Heq].
    + rewrite (bool_decide_eq_true_2 (i < index)) by done.
      rewrite (bool_decide_eq_false_2 (index = i)) by lia.
      rewrite (bool_decide_eq_false_2 (i < index < index)) by lia.
      rewrite (bool_decide_eq_true_2 (index = index)) by done.
      eexists. split; [by left|]. simpl. right. by left.
    + rewrite (bool_decide_eq_false_2 (i < index)) by done.
      rewrite (bool_decide_eq_true_2 (index = i)) by lia.
      eexists. split; [by left|]. simpl. by left.
Qed.

Lemma paths_of_elem c mParents parent (successors : list Commit) (i : nat)
    (l : list Commit) (src index : nat) (col : QColor) :
  (src, index, col) ∈ paths_of c mParents parent successors i l →
  index < length mParents.
Proof.
  unfold paths_of. intros Hin.
  apply list_elem_of_omap in Hin as (s & _ & Hs).
  destruct (indexOf mParents s) as [j|] eqn:Hj; simpl in Hs; [|done].
  destruct (path_color c mParents parent successors j); simpl in Hs; [|done].
  inversion Hs; subst. by eapply indexOf_lt.
Qed.

Lemma paths_of_intro c mParents parent (successors : list Commit) (i : nat)
    (l : list Commit) (s : Commit) (j : nat) :
  s ∈ l → indexOf mParents s = Some j →
  ∃ col, (i, j, col) ∈ paths_of c mParents parent successors i l.
Proof.
  intros Hs Hj.
  destruct (path_color_is_Some c mParents parent successors s j Hj)
    as [col Hcol].
  exists col. unfold paths_of. apply list_elem_of_omap. exists s.
  split; [done|]. rewrite Hj. simpl. by rewrite Hcol.
Qed.

Lemma lanes_paths_elem c mParents parents :
  ∀ (lo src index : nat) (col : QColor),
    (src, index, col) ∈ lanes_paths c mParents lo parents →
    index < length mParents.
Proof.
  induction parents as [|parent parents IH]; intros lo src index col Hin;
    simpl in Hin.
  - by apply elem_of_nil in Hin.
  - apply elem_of_app in Hin as [Hin|Hin].
    + by eapply paths_of_elem.
    + by eapply IH.
Qed.

Lemma lanes_paths_intro c mParents parents :
  ∀ (lo k : nat) p (s : Commit) (j : nat),
    parents !! k = Some p → s ∈ successors_of c p →
    indexOf mParents s = Some j →
    ∃ col, (lo + k, j, col) ∈ lanes_paths c mParents lo parents.
Proof.
  induction parents as [|parent parents IH]; intros lo k p s j Hk Hs Hj;
    [done|].
  destruct k as [|k]; simpl in Hk.
  - inversion Hk; subst parent.
    destruct (paths_of_intro c mParents p (successors_of c p) lo
                (successors_of c p) s j Hs Hj) as [col Hcol].
    exists col. simpl. apply elem_of_app. left.
    by replace (lo + 0) with lo by lia.
  - destruct (IH (S lo) k p s j Hk Hs Hj) as [col Hcol].
    exists col. simpl. apply elem_of_app. right.
    by replace (lo + S k) with (S lo + k) by lia.
Qed.

(** The columns reach as far as every target of a path. *)
Lemma foreach_route_reach c mParents parent (successors : list Commit)
    (i : nat) (l : list Commit) :
  ∀ cols cols',
    foreach (route c mParents parent successors i) l cols = Some cols' →
    ∀ (s : Commit) (j : nat),
      s ∈ l → indexOf mParents s = Some j → j < length cols'.
Proof.
  induction l as [|s' l IH]; intros cols cols' H s j Hs Hj;
    cbn [foreach] in H.
  - by apply elem_of_nil in Hs.
  - destruct (route c mParents parent successors i s' cols) as [cols1|] eqn:Hr;
      simpl in H; [|done].
    apply elem_of_cons in Hs as [->|Hs]; [|by eapply IH].
    destruct (route_inv c mParents parent successors i s' cols cols1 j Hj Hr)
      as [Hi Hindex].
    destruct (route_spec c mParents parent successors i s' cols j Hj Hi Hindex)
      as (col & cols1' & _ & Hr' & Hl & _).
    rewrite Hr in Hr'. inversion Hr'; subst cols1'.
    destruct (foreach_route_segments c mParents parent successors i l
                cols1 cols' H) as [Hmono _].
    unfold Column in *. lia.
Qed.

Lemma outgoing_reach c parents mParents :
  ∀ (n lo : nat) cols cols',
    lo + n = length parents →
    for_loop (λ i cols,
        parent ← parents !! i;
        let successors := successors_of c parent in
        foreach (route c mParents parent successors i) successors cols)
      lo n cols = Some cols' →
    ∀ (k : nat) p (s : Commit) (j : nat),
      lo ≤ k → parents !! k = Some p → s ∈ successors_of c p →
      indexOf mParents s = Some j → j < length cols'.
Proof.
  induction n as [|n IH]; intros lo cols cols' Hlo H k p s j Hk Hp Hs Hj;
    cbn [for_loop] in H.
  - apply lookup_lt_Some in Hp. lia.
  - destruct (parents !! lo) as [parent|] eqn:Hparent; simpl in H; [|done].
    destruct (foreach (route c mParents parent (successors_of c parent) lo)
                (successors_of c parent) cols) as [cols1|] eqn:Hf;
      simpl in H; [|done].
    destruct (decide (k = lo)) as [->|Hne].
    + rewrite Hparent in Hp. inversion Hp; subst parent.
      pose proof (foreach_route_reach c mParents p (successors_of c p) lo
                    (successors_of c p) cols cols1 Hf s j Hs Hj) as Hreach.
      destruct (outgoing_segments c parents mParents n (S lo) cols1 cols'
                  ltac:(lia) H) as [Hmono _].
      unfold Column in *. lia.
    + apply (IH (S lo) cols1 cols' ltac:(lia) H k p s j); try done. lia.
Qed.

Lemma columns_reach c parents root mParents
    (row : list (list (Segment QColor))) :
  columns c parents root mParents = Some row →
  ∀ (k : nat) p (s : Commit) (j : nat),
    parents !! k = Some p → s ∈ successors_of c p →
    indexOf mParents s = Some j → j < length row.
Proof.
  unfold columns, Column. cbv zeta. intros H k p s j Hp Hs Hj.
  destruct (for_loop_lanes_spec
              (λ parent, mkSegment Top (taintedColor parent None)) parents
              (if root then length parents - 1 else length parents) 0
              (replicate (length parents) []))
    as (cols1 & Hr1 & Hl1 & _).
  { destruct root; lia. }
  { rewrite length_replicate. destruct root; lia. }
  rewrite length_replicate in Hl1. unfold Column in *. rewrite Hr1 in H.
  simpl in H.
  destruct (for_loop _ 0 (length parents) cols1) as [cols2|] eqn:Hr2;
    simpl in H; [|done].
  pose proof (outgoing_reach c parents mParents (length parents) 0 cols1 cols2
                ltac:(lia) Hr2 k p s j ltac:(lia) Hp Hs Hj) as Hreach.
  destruct (outgoing_segments c parents mParents (length parents) 0 cols1 cols2
              ltac:(lia) Hr2) as [Hl2 _].
  destruct (for_loop_lanes_spec
              (λ parent, mkSegment
                           (if bool_decide (commit parent = c)
                            then Dot else Middle)
                           (taintedColor parent None)) parents
              (length parents) 0 cols2)
    as (cols3 & Hr3 & Hl3 & _); [lia|lia|].
  unfold Column in *. rewrite Hr3 in H. inversion H; subst cols3. lia.
Qed.

(** The parts of a column. *)
Lemma row_column_elem c parents root mParents (k : nat) (s : Segment QColor) :
  s ∈ row_column c parents root mParents k ↔
  (segment s = Top
   ∧ k < (if root then length parents - 1 else length parents)
   ∧ ∃ p, parents !! k = Some p ∧ s = mkSegment Top (taintedColor p None))
  ∨ (s ∈ flat_map (λ '(i, index, col), path_segments i index col k)
                  (lanes_paths c mParents 0 parents))
  ∨ (∃ p, parents !! k = Some p
          ∧ s = mkSegment (if bool_decide (commit p = c) then Dot else Middle)
                          (taintedColor p None)).
Proof.
  unfold row_column. cbv zeta. rewrite !elem_of_app.
  set (incoming := if root then length parents - 1 else length parents).
  assert (Hinc : incoming ≤ length parents)
    by (unfold incoming; destruct root; lia).
  split.
  - intros [Htop|[Hpath|Hmark]].
    + left. destruct (decide (k < incoming)) as [Hlt|Hge].
      * rewrite (bool_decide_eq_true_2 (k < incoming)) in Htop by done.
        destruct (parents !! k) as [p|]; simpl in Htop;
          [|by apply elem_of_nil in Htop].
        apply list_elem_of_singleton in Htop. subst s.
        split; [done|]. split; [done|]. by exists p.
      * rewrite (bool_decide_eq_false_2 (k < incoming)) in Htop by done.
        by apply elem_of_nil in Htop.
    + right. by left.
    + right. right. destruct (parents !! k) as [p|]; simpl in Hmark;
        [|by apply elem_of_nil in Hmark].
      apply list_elem_of_singleton in Hmark. by exists p.
  - intros [(_ & Hlt & p & Hp & ->)|[Hpath|(p & Hp & ->)]].
    + left. rewrite (bool_decide_eq_true_2 (k < incoming)) by done.
      rewrite Hp. simpl. by left.
    + right. by left.
    + right. right. rewrite Hp. simpl. by left.
Qed.

Lemma lanes_paths_segment (paths : list (nat * nat * QColor)) (k : nat)
    (s : Segment QColor) :
  s ∈ flat_map (λ '(i, index, col), path_segments i index col k) paths ↔
  ∃ i index col, (i, index, col) ∈ paths ∧ s ∈ path_segments i index col k.
Proof.
  induction paths as [|[[i index] col] paths IH]; simpl.
  - split; [intros Hs; by apply elem_of_nil in Hs|].
    intros (i & index & col & Hin & _). by apply elem_of_nil in Hin.
  - rewrite elem_of_app, IH. split.
    + intros [Hs|(i' & index' & col' & Hin & Hs)].
      * exists i, index, col. split; [by left|done].
      * exists i', index', col'. split; [by right|done].
    + intros (i' & index' & col' & Hin & Hs).
      apply elem_of_cons in Hin as [Heq|Hin].
      * inversion Heq; subst. by left.
      * right. by exists i', index', col'.
Qed.

(** A column has the line from above exactly when its lane comes from
    the row above. *)
Lemma columns_top c parents root mParents
    (row : list (list (Segment QColor))) (k : nat) (col : list (Segment QColor)) :
  columns c parents root mParents = Some row →
  row !! k = Some col →
  (∃ s, s ∈ col ∧ segment s = Top)
  ↔ k < (if root then length parents - 1 else length parents).
Proof.
  intros Hcols Hk.
  destruct (columns_spec c parents root mParents row Hcols) as [_ Hrow].
  rewrite (Hrow k) in Hk by (by eapply lookup_lt_Some).
  inversion Hk as [Hcol]. clear Hk Hrow Hcols. split.
  - intros (s & Hs & Htop).
    apply row_column_elem in Hs as [(_ & Hlt & _)|[Hpath|(p & Hp & ->)]].
    + done.
    + apply lanes_paths_kinds in Hpath as (Hnt & _). done.
    + simpl in Htop. by destruct (bool_decide (commit p = c)).
  - intros Hlt.
    destruct (lookup_lt_is_Some_2 parents k) as [p Hp];
      [destruct root; lia|].
    exists (mkSegment Top (taintedColor p None)). split; [|done].
    apply row_column_elem. left. split; [done|]. split; [done|]. by exists p.
Qed.

Lemma advance_root (mRows rows : list (Row Commit QColor)) c mParents
    root parents mParents' :
  branchTopologyEdges ≠ [] →
  advance mRows rows c mParents = Some (root, parents, mParents') →
  (if root then length parents - 1 else length parents) = length mParents.
Proof.
  intros Hne Hadv.
  destruct (add_root_spec c mParents Hne)
    as (root1 & parents1 & i & lane & Hroot & _ & _ & _ & Hcase).
  unfold advance in Hadv. rewrite Hroot in Hadv. simpl in Hadv.
  destruct (set_parents c (replacements_of mRows rows parents1 c) parents1);
    simpl in Hadv; [|done].
  inversion Hadv; subst. destruct root.
  - destruct Hcase as (_ & _ & -> & _). rewrite length_app. simpl. lia.
  - by subst.
Qed.

(** Every lane of the next row is the target of a path. *)
Lemma advance_sources (mRows rows : list (Row Commit QColor)) c mParents
    root parents mParents' (j : nat) :
  branchTopologyEdges ≠ [] →
  NoDup (lane_commits mParents) → NoDup (commit_parents c) →
  advance mRows rows c mParents = Some (root, parents, mParents') →
  j < length mParents' →
  ∃ (k : nat) p (s : Commit),
    parents !! k = Some p ∧ s ∈ successors_of c p
    ∧ indexOf mParents' s = Some j.
Proof.
  intros Hne Hnd Hndp Hadv Hj.
  destruct (advance_NoDup mRows rows c mParents root parents mParents'
              Hne Hnd Hndp Hadv) as [Hnd1 Hnd2].
  destruct (advance_inv mRows rows c mParents root parents mParents' Hne Hadv)
    as (i & lane & Hi & Hlane & Hc & _ & Hnext).
  destruct (lookup_lt_is_Some_2 mParents' j Hj) as [q Hq].
  pose proof (indexOf_NoDup mParents' j q Hnd2 Hq) as Hidx.
  assert (Hother : ∀ k p, parents !! k = Some p → k ≠ i →
            successors_of c p = [commit p]).
  { intros k p Hp Hki. unfold successors_of.
    rewrite bool_decide_eq_false_2; [done|]. intros Heq. apply Hki.
    eapply NoDup_lookup; [exact Hnd1| |]; unfold lane_commits;
      rewrite list_lookup_fmap.
    - rewrite Hp. simpl. by rewrite Heq.
    - rewrite Hlane. simpl. by rewrite Hc. }
  assert (Hmine : successors_of c lane = commit_parents c).
  { unfold successors_of. rewrite bool_decide_eq_true_2 by done.
    by rewrite Hc. }
  assert (Hrepl : ∀ s, s ∈ replacements_of mRows rows parents c →
            s ∈ commit_parents c).
  { intros s Hs. rewrite replacements_of_filter in Hs.
    by apply list_elem_of_filter in Hs as [_ Hs]. }
  destruct (replacements_of mRows rows parents c) as [|r rs].
  - subst mParents'.
    destruct (decide (j < i)) as [Hlt|Hge].
    + rewrite list_lookup_delete_lt in Hq by done.
      exists j, q, (commit q). split; [done|]. split; [|done].
      rewrite (Hother j q Hq) by lia. by left.
    + rewrite list_lookup_delete_ge in Hq by lia.
      exists (S j), q, (commit q). split; [done|]. split; [|done].
      rewrite (Hother (S j) q Hq) by lia. by left.
  - destruct Hnext as (new & -> & Hrs & _).
    apply lookup_app_Some in Hq as [Hq|[Hlen Hq]].
    + destruct (decide (j = i)) as [->|Hji].
      * rewrite list_lookup_insert_eq in Hq by (by eapply lookup_lt_Some).
        inversion Hq; subst q. simpl in Hidx.
        exists i, lane, r. split; [done|]. split; [|done].
        rewrite Hmine. apply Hrepl. by left.
      * rewrite list_lookup_insert_ne in Hq by done.
        exists j, q, (commit q). split; [done|]. split; [|done].
        rewrite (Hother j q Hq) by done. by left.
    + exists i, lane, (commit q). split; [done|]. split; [|done].
      rewrite Hmine. apply Hrepl. right. rewrite <- Hrs.
      unfold lane_commits. apply list_elem_of_fmap. exists q.
      split; [done|]. by eapply list_elem_of_lookup_2.
Qed.

Lemma columns_arrivals (mRows rows : list (Row Commit QColor)) c mParents
    root parents mParents' (row : list (list (Segment QColor))) (j : nat) :
  branchTopologyEdges ≠ [] →
  NoDup (lane_commits mParents) → NoDup (commit_parents c) →
  advance mRows rows c mParents = Some (root, parents, mParents') →
  columns c parents root mParents' = Some row →
  j < length mParents'
  ↔ ∃ col s, row !! j = Some col ∧ s ∈ col
             ∧ segment s ∈ [Bottom; LeftIn; RightIn].
Proof.
  intros Hne Hnd Hndp Hadv Hcols.
  destruct (columns_spec c parents root mParents' row Hcols) as [_ Hrow].
  split.
  - intros Hj.
    destruct (advance_sources mRows rows c mParents root parents mParents' j
                Hne Hnd Hndp Hadv Hj) as (k & p & s & Hp & Hs & Hidx).
    pose proof (columns_reach c parents root mParents' row Hcols k p s j
                  Hp Hs Hidx) as Hreach.
    destruct (lanes_paths_intro c mParents' parents 0 k p s j Hp Hs Hidx)
      as [col Hpath].
    destruct (path_segments_arrives (0 + k) j col) as (seg & Hseg & Hkind).
    exists (row_column c parents root mParents' j), seg.
    split; [by apply Hrow|]. split; [|done].
    apply row_column_elem. right. left. apply lanes_paths_segment.
    by exists (0 + k), j, col.
  - intros (col & s & Hcol & Hs & Hkind).
    rewrite (Hrow j) in Hcol by (by eapply lookup_lt_Some).
    inversion Hcol; subst col. clear Hcol.
    apply row_column_elem in Hs as [(Htop & _)|[Hpath|(p & Hp & ->)]].
    + rewrite Htop in Hkind.
      repeat (apply elem_of_cons in Hkind as [Hkind|Hkind]; [done|]).
      by apply elem_of_nil in Hkind.
    + apply lanes_paths_segment in Hpath as (i & index & col & Hin & Hseg).
      apply (path_segments_target i index col j s Hseg) in Hkind. subst index.
      by eapply lanes_paths_elem.
    + simpl in Hkind.
      destruct (bool_decide (commit p = c));
        repeat (apply elem_of_cons in Hkind as [Hkind|Hkind]; [done|]);
        by apply elem_of_nil in Hkind.
Qed.

(** X13: No lane of the next row comes from nowhere. Where the lanes and the
    parents of the commit are free of duplicates, the columns of a row in
    which a path ends (with [Bottom], [LeftIn] or [RightIn]) are the lanes of
    the next row, all of them and no other column. *)
Theorem paths_end_in_the_lanes_of_the_next_row
    (mRows rows : list (Row Commit QColor)) c mParents
    root parents mParents' (row : list (list (Segment QColor))) :
  branchTopologyEdges ≠ [] →
  NoDup (lane_commits mParents) → NoDup (commit_parents c) →
  advance mRows rows c mParents = Some (root, parents, mParents') →
  columns c parents root mParents' = Some row →
  ∀ j, j < length mParents'
       ↔ ∃ col s, row !! j = Some col ∧ s ∈ col
                  ∧ segment s ∈ [Bottom; LeftIn; RightIn].
Proof.
  intros Hne Hnd Hndp Hadv Hcols j.
  by apply (columns_arrivals mRows rows c mParents root parents mParents').
Qed.

(** X14: The lines of two rows that follow each other meet. Two passes of the
    loop of [fetchMore], with the graph shown, append two rows, and the
    columns of the lower row that begin with the line from above are the
    columns of the upper row in which a path ends. *)
Theorem rows_join (mRows : list (Row Commit QColor)) (c1 c2 : Commit)
    (st st1 st2 : list (Parent Commit QColor) * list (Row Commit QColor)) :
  branchTopologyEdges ≠ [] →
  NoDup (lane_commits st.1) →
  NoDup (commit_parents c1) → NoDup (commit_parents c2) →
  fetch_commit true mRows c1 st = Some st1 →
  fetch_commit true mRows c2 st1 = Some st2 →
  ∃ upper lower,
    st2.2 = st.2 ++ [mkRow (Some c1) upper; mkRow (Some c2) lower]
    ∧ ∀ j,
        (∃ col s, lower !! j = Some col ∧ s ∈ col ∧ segment s = Top)
        ↔ (∃ col s, upper !! j = Some col ∧ s ∈ col
                    ∧ segment s ∈ [Bottom; LeftIn; RightIn]).
Proof.
  intros Hne Hnd Hp1 Hp2 H1 H2.
  destruct (fetch_commit_advance true mRows c1 st st1 H1)
    as (root1 & parents1 & upper & Hadv1 & Hrows1 & Hcols1).
  destruct (fetch_commit_advance true mRows c2 st1 st2 H2)
    as (root2 & parents2 & lower & Hadv2 & Hrows2 & Hcols2).
  exists upper, lower. split.
  { rewrite Hrows2, Hrows1, <- app_assoc. done. }
  intros j.
  rewrite <- (columns_arrivals mRows st.2 c1 st.1 root1 parents1 st1.1 upper j
                Hne Hnd Hp1 Hadv1 Hcols1).
  rewrite <- (advance_root mRows st1.2 c2 st1.1 root2 parents2 st2.1
                Hne Hadv2).
  split.
  - intros (col & s & Hcol & Hs & Htop).
    apply (columns_top c2 parents2 root2 st2.1 lower j col Hcols2 Hcol).
    by exists s.
  - intros Hlt.
    destruct (columns_spec c2 parents2 root2 st2.1 lower Hcols2) as [Hlen _].
    destruct (lookup_lt_is_Some_2 lower j) as [col Hcol];
      [unfold Column in *; destruct root2; lia|].
    apply (columns_top c2 parents2 root2 st2.1 lower j col Hcols2 Hcol)
      in Hlt as (s & Hs & Htop).
    by exists col, s.
Qed.

(** X15: Every row of a commit has one dot. Where the lanes and the parents of
    the commit are free of duplicates, the column of the lane that [indexOf]
    finds for the commit ends with the dot, in the colour of the lane (the
    tainted colour for a tainted lane), and no other column of the row has
    one. *)
Theorem one_dot_per_row (mRows rows : list (Row Commit QColor)) c mParents
    root parents mParents' (row : list (list (Segment QColor))) :
  branchTopologyEdges ≠ [] →
  NoDup (lane_commits mParents) → NoDup (commit_parents c) →
  advance mRows rows c mParents = Some (root, parents, mParents') →
  columns c parents root mParents' = Some row →
  ∃ (i : nat) (lane : Parent Commit QColor) (col : list (Segment QColor)),
    indexOf parents c = Some i
    ∧ parents !! i = Some lane
    ∧ row !! i = Some col
    ∧ last col = Some (mkSegment Dot (taintedColor lane None))
    ∧ ∀ k col', row !! k = Some col' → Dot ∈ segment <$> col' → k = i.
Proof.
  intros Hne Hnd Hndp Hadv Hcols.
  destruct (advance_NoDup mRows rows c mParents root parents mParents'
              Hne Hnd Hndp Hadv) as [Hnd1 _].
  destruct (advance_inv mRows rows c mParents root parents mParents' Hne Hadv)
    as (i & lane & Hi & Hlane & Hc & _).
  destruct (columns_spec c parents root mParents' row Hcols) as [Hlen Hrow].
  assert (Hilt : i < length row).
  { apply lookup_lt_Some in Hlane. unfold Column in *. lia. }
  exists i, lane, (row_column c parents root mParents' i).
  split; [done|]. split; [done|]. split; [by apply Hrow|]. split.
  - unfold row_column. cbv zeta. rewrite Hlane. simpl.
    rewrite (bool_decide_eq_true_2 (commit lane = c)) by done.
    rewrite !app_assoc. apply last_snoc.
  - intros k col' Hk Hdot.
    rewrite (Hrow k) in Hk by (by eapply lookup_lt_Some).
    inversion Hk; subst col'. clear Hk.
    apply list_elem_of_fmap in Hdot as (s & Hkind & Hs).
    apply row_column_elem in Hs as [(Htop & _)|[Hpath|(p & Hp & ->)]].
    + congruence.
    + apply lanes_paths_kinds in Hpath as (_ & Hnd' & _). congruence.
    + simpl in Hkind.
      destruct (decide (commit p = c)) as [Hpc|Hpc].
      * eapply NoDup_lookup; [exact Hnd1| |]; unfold lane_commits;
          rewrite list_lookup_fmap.
        -- rewrite Hp. simpl. by rewrite Hpc.
        -- rewrite Hlane. simpl. by rewrite Hc.
      * rewrite (bool_decide_eq_false_2 (commit p = c)) in Hkind by done.
        discriminate Hkind.
Qed.

(** X16: A reset on a reference shows the first page of its walk: the commits
    of the rows are the first 65 commits that the walk of the reference
    yields, with the sort order, the references and the pathspec of the model;
    what the walker has left is the rest; and more can be fetched exactly when
    the walk has 65 commits or more. *)
Theorem resetWalker_first_page m m' (r : Reference) :
  resetWalker m = Some m' →
  mRef m = Some r →
  row_commits (mRows m')
  = take 65 (ref_walk r (walker_sort m) (mRefsAll m) (mPathspec m))
  ∧ default [] (mWalker m')
    = drop 65 (ref_walk r (walker_sort m) (mRefsAll m) (mPathspec m))
  ∧ (canFetchMore m' = true
     ↔ 65 ≤ length (ref_walk r (walker_sort m) (mRefsAll m) (mPathspec m))).
Proof.
  unfold resetWalker. intros Hreset Href.
  destruct (status_row m) as [[parents rows]|] eqn:Hstatus;
    simpl in Hreset; [|done].
  apply status_row_spec in Hstatus as [_ Hshown].
  assert (Hrows : row_commits rows = []).
  { destruct (status_row_shown m).
    - by destruct Hshown as (cols & -> & _).
    - by destruct Hshown as [-> _]. }
  unfold begin_walk in Hreset. rewrite Href in Hreset.
  unfold canFetchMore at 1 in Hreset. simpl in Hreset.
  set (walk := ref_walk r (walker_sort m) (mRefsAll m) (mPathspec m)) in *.
  destruct (fetchMore_rows _ m' Hreset) as (new & Hm' & Hnew & Hw).
  simpl in Hm', Hnew, Hw.
  rewrite Hm', row_commits_app, Hrows, (row_commits_of_commits new _ Hnew).
  split; [done|]. unfold canFetchMore. rewrite Hw.
  destruct (decide (65 ≤ length walk)) as [Hfull|Hpart].
  - rewrite (bool_decide_eq_true_2 (65 ≤ length walk)) by done.
    split; [done|]. split; [done|]. intros _.
    apply bool_decide_eq_true. by eexists.
  - rewrite (bool_decide_eq_false_2 (65 ≤ length walk)) by done.
    split; [simpl; by rewrite drop_ge by lia|]. split; [|done].
    intros Hcan. apply bool_decide_eq_true in Hcan. by destruct Hcan.
Qed.

(** ** The colours of the lines between two rows *)

Lemma path_segments_arrives_color (i index : nat) (col : QColor) :
  ∃ s, s ∈ path_segments i index col index
       ∧ segment s ∈ [Bottom; LeftIn; RightIn]
       ∧ segment_color s = col.
Proof.
  unfold path_segments.
  destruct (decide (index < i)) as [Hlt|Hge].
  - rewrite (bool_decide_eq_true_2 (index < i)) by done.
    rewrite (bool_decide_eq_true_2 (index = index)) by done.
    eexists. split; [by left|]. split; [|done]. simpl. right. right. by left.
  - rewrite (bool_decide_eq_false_2 (index < i)) by done.
    destruct (decide (i < index)) as [Hlt|Heq].
    + rewrite (bool_decide_eq_true_2 (i < index)) by done.
      rewrite (bool_decide_eq_false_2 (index = i)) by lia.
      rewrite (bool_decide_eq_false_2 (i < index < index)) by lia.
      rewrite (bool_decide_eq_true_2 (index = index)) by done.
      eexists. split; [by left|]. split; [|done]. simpl. right. by left.
    + rewrite (bool_decide_eq_false_2 (i < index)) by done.
      rewrite (bool_decide_eq_true_2 (index = i)) by lia.
      eexists. split; [by left|]. split; [|done]. simpl. by left.
Qed.

Lemma lanes_paths_intro_color c mParents parents :
  ∀ (lo k : nat) p (s : Commit) (j : nat) (col : QColor),
    parents !! k = Some p → s ∈ successors_of c p →
    indexOf mParents s = Some j →
    path_color c mParents p (successors_of c p) j = Some col →
    (lo + k, j, col) ∈ lanes_paths c mParents lo parents.
Proof.
  induction parents as [|parent parents IH];
    intros lo k p s j col Hk Hs Hj Hcol; [done|].
  destruct k as [|k]; simpl in Hk.
  - inversion Hk; subst parent. simpl. apply elem_of_app. left.
    replace (lo + 0) with lo by lia.
    unfold paths_of. apply list_elem_of_omap. exists s.
    split; [done|]. rewrite Hj. simpl. by rewrite Hcol.
  - simpl. apply elem_of_app. right.
    replace (lo + S k) with (S lo + k) by lia. by eapply IH.
Qed.

(** Every lane of the next row is the target of a path of its colour. *)
Lemma advance_sources_color (mRows rows : list (Row Commit QColor)) c mParents
    root parents mParents' (j : nat) (q : Parent Commit QColor) :
  branchTopologyEdges ≠ [] →
  NoDup (lane_commits mParents) → NoDup (commit_parents c) →
  advance mRows rows c mParents = Some (root, parents, mParents') →
  mParents' !! j = Some q →
  ∃ (k : nat) p (s : Commit),
    parents !! k = Some p ∧ s ∈ successors_of c p
    ∧ indexOf mParents' s = Some j
    ∧ path_color c mParents' p (successors_of c p) j
      = Some (taintedColor q None).
Proof.
  intros Hne Hnd Hndp Hadv Hq.
  destruct (advance_NoDup mRows rows c mParents root parents mParents'
              Hne Hnd Hndp Hadv) as [Hnd1 Hnd2].
  destruct (advance_inv mRows rows c mParents root parents mParents' Hne Hadv)
    as (i & lane & Hi & Hlane & Hc & _ & Hnext).
  pose proof (indexOf_NoDup mParents' j q Hnd2 Hq) as Hidx.
  assert (Hother : ∀ k p, parents !! k = Some p → k ≠ i →
            commit p ≠ c ∧ successors_of c p = [commit p]).
  { intros k p Hp Hki.
    assert (Hpc : commit p ≠ c).
    { intros Heq. apply Hki.
      eapply NoDup_lookup; [exact Hnd1| |]; unfold lane_commits;
        rewrite list_lookup_fmap.
      - rewrite Hp. simpl. by rewrite Heq.
      - rewrite Hlane. simpl. by rewrite Hc. }
    split; [done|]. unfold successors_of.
    by rewrite bool_decide_eq_false_2. }
  assert (Hkeeps : ∀ k p, parents !! k = Some p → k ≠ i →
            path_color c mParents' p (successors_of c p) j
            = Some (taintedColor p None)).
  { intros k p Hp Hki. destruct (Hother k p Hp Hki) as [Hpc ->].
    unfold path_color. rewrite bool_decide_eq_true_2 by done.
    unfold taintedColor.
    rewrite (bool_decide_eq_false_2 (Some (commit p) = Some c))
      by congruence.
    by rewrite (bool_decide_eq_false_2 (Some (commit p) = None)). }
  assert (Hmine : successors_of c lane = commit_parents c).
  { unfold successors_of. rewrite bool_decide_eq_true_2 by done.
    by rewrite Hc. }
  assert (Hrepl : ∀ s, s ∈ replacements_of mRows rows parents c →
            s ∈ commit_parents c).
  { intros s Hs. rewrite replacements_of_filter in Hs.
    by apply list_elem_of_filter in Hs as [_ Hs]. }
  assert (Hcount : length (replacements_of mRows rows parents c)
                   ≤ length (commit_parents c)).
  { rewrite replacements_of_filter. apply length_filter. }
  destruct (replacements_of mRows rows parents c) as [|r rs].
  - subst mParents'.
    destruct (decide (j < i)) as [Hlt|Hge].
    + rewrite list_lookup_delete_lt in Hq by done.
      exists j, q, (commit q). split; [done|].
      destruct (Hother j q Hq ltac:(lia)) as [_ Hs]. rewrite Hs at 1.
      split; [by left|]. split; [done|]. apply (Hkeeps j q Hq). lia.
    + rewrite list_lookup_delete_ge in Hq by lia.
      exists (S j), q, (commit q). split; [done|].
      destruct (Hother (S j) q Hq ltac:(lia)) as [_ Hs]. rewrite Hs at 1.
      split; [by left|]. split; [done|]. apply (Hkeeps (S j) q Hq). lia.
  - destruct Hnext as (new & -> & Hrs & Hnew).
    pose proof Hq as Hq'.
    apply lookup_app_Some in Hq as [Hq|[Hlen Hq]].
    + destruct (decide (j = i)) as [->|Hji].
      * rewrite list_lookup_insert_eq in Hq by (by eapply lookup_lt_Some).
        inversion Hq; subst q. simpl in Hidx.
        exists i, lane, r. split; [done|]. rewrite Hmine.
        split; [apply Hrepl; by left|]. split; [done|].
        unfold path_color, taintedColor. simpl.
        case_bool_decide.
        -- rewrite (bool_decide_eq_true_2 (Some (commit lane) = Some c))
             by congruence.
           by rewrite andb_false_r.
        -- by rewrite Hq'.
      * rewrite list_lookup_insert_ne in Hq by done.
        exists j, q, (commit q). split; [done|].
        destruct (Hother j q Hq Hji) as [_ Hs]. rewrite Hs at 1.
        split; [by left|]. split; [done|]. by apply (Hkeeps j q Hq).
    + exists i, lane, (commit q). split; [done|]. rewrite Hmine.
      assert (Hin : commit q ∈ rs).
      { rewrite <- Hrs. unfold lane_commits. apply list_elem_of_fmap.
        exists q. split; [done|]. by eapply list_elem_of_lookup_2. }
      split; [apply Hrepl; by right|]. split; [done|].
      unfold path_color. rewrite bool_decide_eq_false_2.
      * rewrite Hq'. simpl. unfold taintedColor.
        by rewrite (Hnew _ q Hq).
      * destruct rs as [|r' rs]; [by apply elem_of_nil in Hin|].
        simpl in Hcount. lia.
Qed.

(** X17: The lines keep their colour from one row to the next. Two passes of
    the loop of [fetchMore], with the graph shown, append two rows; wherever a
    column of the lower row begins with the line from above, a path of the
    same colour ends in that column of the upper row. *)
Theorem lines_keep_their_colour (mRows : list (Row Commit QColor))
    (c1 c2 : Commit)
    (st st1 st2 : list (Parent Commit QColor) * list (Row Commit QColor)) :
  branchTopologyEdges ≠ [] →
  NoDup (lane_commits st.1) →
  NoDup (commit_parents c1) → NoDup (commit_parents c2) →
  fetch_commit true mRows c1 st = Some st1 →
  fetch_commit true mRows c2 st1 = Some st2 →
  ∃ upper lower,
    st2.2 = st.2 ++ [mkRow (Some c1) upper; mkRow (Some c2) lower]
    ∧ ∀ (j : nat) (col : list (Segment QColor)) (s : Segment QColor),
        lower !! j = Some col → s ∈ col → segment s = Top →
        ∃ col' s',
          upper !! j = Some col' ∧ s' ∈ col'
          ∧ segment s' ∈ [Bottom; LeftIn; RightIn]
          ∧ segment_color s' = segment_color s.
Proof.
  intros Hne Hnd Hp1 Hp2 H1 H2.
  destruct (fetch_commit_advance true mRows c1 st st1 H1)
    as (root1 & parents1 & upper & Hadv1 & Hrows1 & Hcols1).
  destruct (fetch_commit_advance true mRows c2 st1 st2 H2)
    as (root2 & parents2 & lower & Hadv2 & Hrows2 & Hcols2).
  exists upper, lower. split.
  { rewrite Hrows2, Hrows1, <- app_assoc. done. }
  intros j col s Hcol Hs Htop.
  destruct (columns_spec c2 parents2 root2 st2.1 lower Hcols2) as [_ Hlower].
  unfold Column in *.
  rewrite (Hlower j) in Hcol by (by eapply lookup_lt_Some).
  inversion Hcol; subst col. clear Hcol.
  apply row_column_elem in Hs as [(_ & Hlt & p & Hp & ->)|[Hpath|(p & Hp & ->)]].
  - rewrite (advance_root mRows st1.2 c2 st1.1 root2 parents2 st2.1 Hne Hadv2)
      in Hlt.
    assert (Hq : st1.1 !! j = Some p).
    { destruct (advance_inv mRows st1.2 c2 st1.1 root2 parents2 st2.1
                  Hne Hadv2) as (i & lane & _ & _ & _ & Hparents & _).
      destruct Hparents as [Heq|(Heq & _)]; rewrite Heq in Hp; [done|].
      by rewrite lookup_app_l in Hp. }
    destruct (advance_sources_color mRows st.2 c1 st.1 root1 parents1 st1.1
                j p Hne Hnd Hp1 Hadv1 Hq) as (k & src & succ & Hsrc & Hsucc
                                              & Hidx & Hcolor).
    pose proof (columns_reach c1 parents1 root1 st1.1 upper Hcols1 k src succ j
                  Hsrc Hsucc Hidx) as Hreach.
    pose proof (lanes_paths_intro_color c1 st1.1 parents1 0 k src succ j _
                  Hsrc Hsucc Hidx Hcolor) as Hpath.
    destruct (path_segments_arrives_color (0 + k) j (taintedColor p None))
      as (seg & Hseg & Hkind & Hsegcol).
    destruct (columns_spec c1 parents1 root1 st1.1 upper Hcols1)
      as [_ Hupper].
    exists (row_column c1 parents1 root1 st1.1 j), seg.
    split; [by apply Hupper|]. split; [|done].
    apply row_column_elem. right. left. apply lanes_paths_segment.
    by exists (0 + k), j, (taintedColor p None).
  - apply lanes_paths_kinds in Hpath as (Hnt & _). done.
  - simpl in Htop. by destruct (bool_decide (commit p = c2)).
Qed.

(** ** The row of one commit *)







End MoreProperties.

(** ** The labels of the references *)

Section RefLabels.

Context {Id : Type} `{Countable Id}.

Lemma append_label_value (mRefs : gmap Id (list Label)) (id id' : Id)
    (label : Label) :
  refs_value (append_label mRefs id' label) id
  = refs_value mRefs id ++ (if bool_decide (id' = id) then [label] else []).
Proof.
  unfold refs_value, append_label. case_bool_decide as Heq.
  - subst id'. by rewrite lookup_insert_eq.
  - rewrite lookup_insert_ne by done. by rewrite app_nil_r.
Qed.

Lemma append_refs_value (refs : list (RefData Id))
    (mRefs : gmap Id (list Label)) (id : Id) :
  refs_value (append_refs refs mRefs) id
  = refs_value mRefs id ++ labels_of refs id.
Proof.
  revert mRefs. induction refs as [|ref refs IH]; intros mRefs.
  - unfold labels_of. simpl. by rewrite app_nil_r.
  - unfold append_refs, labels_of in *. simpl.
    rewrite IH. destruct (ref_target ref) as [id'|].
    + rewrite append_label_value, <- app_assoc. f_equal.
      destruct (decide (id' = id)) as [->|Hne].
      * by rewrite !bool_decide_eq_true_2.
      * rewrite !bool_decide_eq_false_2; [done|congruence|done].
    + by rewrite bool_decide_eq_false_2.
Qed.

(** X18: The labels that [updateRefs] keeps for a commit: the label of the
    head, in bold, first, when the head is detached at the commit; then one
    label for every reference whose target is the commit, in the order of the
    references; nothing for a commit that no reference points to. The only
    case that is not defined is a detached head without a valid target. *)
Theorem updateRefs_value (isHeadDetached : bool) (head : RefData Id)
    (refs : list (RefData Id)) :
  (updateRefs isHeadDetached head refs = None
   ↔ isHeadDetached = true ∧ ref_target head = None)
  ∧ ∀ mRefs (id : Id),
      updateRefs isHeadDetached head refs = Some mRefs →
      refs_value mRefs id
      = (if isHeadDetached && bool_decide (ref_target head = Some id)
         then [mkLabel (ref_name head) true None] else [])
        ++ labels_of refs id.
Proof.
  unfold updateRefs. split.
  - destruct isHeadDetached; simpl.
    + destruct (ref_target head); simpl; split; try done.
      by intros [_ ?].
    + split; [done|]. by intros [? _].
  - intros mRefs id Hupdate. destruct isHeadDetached; simpl in *.
    + destruct (ref_target head) as [id'|]; simpl in Hupdate; [|done].
      inversion Hupdate. rewrite append_refs_value, append_label_value.
      f_equal. unfold refs_value. rewrite lookup_empty. simpl.
      destruct (decide (id' = id)) as [->|Hne].
      * by rewrite !bool_decide_eq_true_2.
      * rewrite !bool_decide_eq_false_2; [done|congruence|done].
    + inversion Hupdate. rewrite append_refs_value.
      unfold refs_value. by rewrite lookup_empty.
Qed.

End RefLabels.

(** ** findCommit *)

Section FindCommit.

Context {Commit Reference QColor Diff : Type}.
Context {repo : Repository Commit Reference} {theme : Theme QColor}.
Context {signatures : Signatures Commit}.

Implicit Types (c t : Commit).
Implicit Types (m : CommitModel Commit Reference QColor Diff).

Local Abbreviation older t c :=
  (Z.lt (committer_date t) (committer_date c)).

(** Row [k] does not stop the search for [c]: it is the row of the status,
    or the row of another commit that is not older than [c]. *)
Local Abbreviation passes m c k :=
  (∀ row t, mRows m !! k = Some row → row_commit row = Some t →
            t ≠ c ∧ ¬ older t c).

Lemma findCommit_loop_found (fuel i : nat) c m (row : Row Commit QColor) :
  mRows m !! i = Some row → row_commit row = Some c →
  findCommit_loop (S fuel) c i m = Some (Some i, m).
Proof.
  intros Hrow Hc. cbn [findCommit_loop].
  rewrite bool_decide_eq_true_2 by (by eapply lookup_lt_Some).
  unfold data_CommitRole. rewrite Hrow. simpl. rewrite Hc.
  by rewrite bool_decide_eq_true_2.
Qed.

Lemma findCommit_loop_cut (fuel i : nat) c t m (row : Row Commit QColor) :
  mRows m !! i = Some row → row_commit row = Some t → t ≠ c → older t c →
  findCommit_loop (S fuel) c i m = Some (None, m).
Proof.
  intros Hrow Ht Hne Hold. cbn [findCommit_loop].
  rewrite bool_decide_eq_true_2 by (by eapply lookup_lt_Some).
  unfold data_CommitRole. rewrite Hrow. simpl. rewrite Ht.
  rewrite (bool_decide_eq_false_2 (t = c)) by done.
  by rewrite bool_decide_eq_true_2.
Qed.

Lemma findCommit_loop_continue (fuel i : nat) c m (row : Row Commit QColor) :
  mRows m !! i = Some row →
  (∀ t, row_commit row = Some t → t ≠ c ∧ ¬ older t c) →
  findCommit_loop (S fuel) c i m
  = load_more i m ≫= findCommit_loop fuel c (S i).
Proof.
  intros Hrow Hpass. cbn [findCommit_loop].
  rewrite bool_decide_eq_true_2 by (by eapply lookup_lt_Some).
  unfold data_CommitRole. rewrite Hrow. simpl.
  destruct (row_commit row) as [t|]; [|done].
  destruct (Hpass t eq_refl) as [Hne Hold].
  rewrite (bool_decide_eq_false_2 (t = c)) by done.
  by rewrite bool_decide_eq_false_2.
Qed.

Lemma findCommit_loop_end (fuel i : nat) c m :
  rowCount m ≤ i → findCommit_loop (S fuel) c i m = Some (None, m).
Proof.
  intros Hi. cbn [findCommit_loop]. by rewrite bool_decide_eq_false_2 by lia.
Qed.

(** What a row is to the search. *)
Lemma row_cases c (row : Row Commit QColor) :
  row_commit row = Some c
  ∨ (∃ t, row_commit row = Some t ∧ t ≠ c ∧ older t c)
  ∨ (∀ t, row_commit row = Some t → t ≠ c ∧ ¬ older t c).
Proof.
  destruct (row_commit row) as [t|]; [|right; right; by intros t Ht].
  destruct (decide (t = c)) as [->|Hne]; [by left|].
  destruct (decide (older t c)) as [Hold|Hnew].
  - right. left. by exists t.
  - right. right. intros t' Ht'. by inversion Ht'; subst t'.
Qed.

Lemma load_more_rows (i : nat) m m1 :
  load_more i m = Some m1 →
  (∃ new, mRows m1 = mRows m ++ new)
  ∧ history m1 = history m
  ∧ rowCount m1 + length (default [] (mWalker m1))
    = rowCount m + length (default [] (mWalker m))
  ∧ (rowCount m1 = rowCount m → i = rowCount m - 1 → mWalker m1 = None).
Proof.
  unfold load_more. intros H.
  destruct (bool_decide (i = rowCount m - 1) && canFetchMore m) eqn:Hcond.
  - destruct (fetchMore_rows m m1 H) as (new & Hrows & Hnew & Hw).
    clear Hcond. set (w := default [] (mWalker m)) in *.
    assert (Hlen : length new = length (take 65 w))
      by (by rewrite <- (length_fmap row_commit new), Hnew, length_fmap).
    assert (Homap : omap row_commit new = take 65 w).
    { clear -Hnew. revert Hnew. generalize (take 65 w).
      induction new as [|row new IH]; intros [|t l] Heq;
        try done; simpl in Heq; inversion Heq as [[H1 H2]].
      simpl. rewrite H1. simpl. f_equal. by apply IH. }
    rewrite length_take in Hlen.
    split; [by exists new|].
    destruct (decide (65 ≤ length w)) as [Hfull|Hpart].
    + rewrite (bool_decide_eq_true_2 (65 ≤ length w)) in Hw by done.
      split; [|split].
      * unfold history, row_commits. rewrite Hrows, Hw, omap_app, <- app_assoc.
        f_equal. rewrite Homap. simpl. apply take_drop.
      * unfold rowCount. rewrite Hrows, Hw, length_app, Hlen.
        change (default [] (Some (drop 65 w))) with (drop 65 w).
        rewrite length_drop. lia.
      * unfold rowCount. rewrite Hrows, length_app, Hlen. lia.
    + rewrite (bool_decide_eq_false_2 (65 ≤ length w)) in Hw by done.
      split; [|split].
      * unfold history, row_commits. rewrite Hrows, Hw, omap_app, <- app_assoc.
        f_equal. rewrite Homap. simpl. rewrite take_ge by lia.
        by rewrite app_nil_r.
      * unfold rowCount. rewrite Hrows, Hw, length_app, Hlen.
        change (length (default [] (@None (list Commit)))) with 0. lia.
      * done.
  - inversion H; subst m1. split; [exists []; by rewrite app_nil_r|].
    split; [done|]. split; [done|]. intros _ Hi.
    rewrite bool_decide_eq_true_2 in Hcond by done. simpl in Hcond.
    unfold canFetchMore in Hcond. apply bool_decide_eq_false in Hcond.
    destruct (mWalker m); [|done]. exfalso. apply Hcond. by eexists.
Qed.

(** The loop of [findCommit], read off its result. *)
Lemma findCommit_loop_spec c :
  ∀ (fuel i : nat) m (res : option nat) m',
    findCommit_loop fuel c i m = Some (res, m') →
    (∃ new, mRows m' = mRows m ++ new)
    ∧ history m' = history m
    ∧ match res with
      | Some j =>
          i ≤ j ∧ data_CommitRole m' j = Some (Some c)
          ∧ ∀ k, i ≤ k < j → passes m' c k
      | None =>
          (∃ j row t,
              i ≤ j ∧ mRows m' !! j = Some row ∧ row_commit row = Some t
              ∧ t ≠ c ∧ older t c ∧ ∀ k, i ≤ k < j → passes m' c k)
          ∨ ((∀ k, i ≤ k → passes m' c k)
             ∧ ((rowCount m ≤ i ∧ m' = m) ∨ mWalker m' = None))
      end.
Proof.
  induction fuel as [|fuel IH]; intros i m res m' Hloop; [done|].
  destruct (decide (i < rowCount m)) as [Hlt|Hge].
  - destruct (lookup_lt_is_Some_2 (mRows m) i Hlt) as [row Hrow].
    destruct (row_cases c row) as [Hc|[(t & Ht & Hne & Hold)|Hpass]].
    + rewrite (findCommit_loop_found fuel i c m row Hrow Hc) in Hloop.
      inversion Hloop; subst res m'.
      split; [exists []; by rewrite app_nil_r|]. split; [done|].
      split; [done|]. split; [|intros k Hk; lia].
      unfold data_CommitRole. rewrite Hrow. simpl. by rewrite Hc.
    + rewrite (findCommit_loop_cut fuel i c t m row Hrow Ht Hne Hold) in Hloop.
      inversion Hloop; subst res m'.
      split; [exists []; by rewrite app_nil_r|]. split; [done|].
      left. exists i, row, t. repeat (split; [done|]). intros k Hk. lia.
    + rewrite (findCommit_loop_continue fuel i c m row Hrow Hpass) in Hloop.
      destruct (load_more i m) as [m1|] eqn:Hmore; simpl in Hloop; [|done].
      destruct (load_more_rows i m m1 Hmore)
        as ((new1 & Hrows1) & Hhist1 & _ & Hwalker).
      destruct (IH (S i) m1 res m' Hloop) as ((new & Hrows) & Hhist & Hres).
      assert (Hrow' : mRows m' !! i = Some row).
      { rewrite Hrows, Hrows1, <- app_assoc. by apply lookup_app_l_Some. }
      assert (Hpass' : passes m' c i).
      { intros row' t Hr Ht. rewrite Hrow' in Hr. inversion Hr; subst row'.
        by apply Hpass. }
      split; [exists (new1 ++ new); by rewrite Hrows, Hrows1, app_assoc|].
      split; [by rewrite Hhist|].
      destruct res as [j|].
      * destruct Hres as (Hj & Hdata & Hbefore). split; [lia|].
        split; [done|]. intros k Hk.
        destruct (decide (k = i)) as [->|Hki]; [done|]. apply Hbefore. lia.
      * destruct Hres as [(j & rowj & t & Hj & Hrowj & Ht & Hne & Hold & Hbefore)
                         |[Hall Hend]].
        -- left. exists j, rowj, t. split; [lia|]. repeat (split; [done|]).
           intros k Hk.
           destruct (decide (k = i)) as [->|Hki]; [done|]. apply Hbefore. lia.
        -- right. split.
           ++ intros k Hk.
              destruct (decide (k = i)) as [->|Hki]; [done|]. apply Hall. lia.
           ++ right. destruct Hend as [[Hcount ->]|Hnone]; [|done].
              apply Hwalker; unfold rowCount in *; rewrite Hrows1 in *;
                rewrite length_app in *; lia.
  - rewrite (findCommit_loop_end fuel i c m) in Hloop by lia.
    inversion Hloop; subst res m'.
    split; [exists []; by rewrite app_nil_r|]. split; [done|].
    right. split; [|left; split; [lia|done]].
    intros k Hk row t Hrow. apply lookup_lt_Some in Hrow.
    unfold rowCount in Hge. lia.
Qed.

(** With fuel for the rows and for what the walker has left, the loop
    returns. *)
Lemma findCommit_loop_returns c :
  branchTopologyEdges ≠ [] →
  (∀ c, NoDup (commit_parents c)) →
  ∀ (fuel i : nat) m,
    reachable m →
    rowCount m + length (default [] (mWalker m)) - i < fuel →
    ∃ res m', findCommit_loop fuel c i m = Some (res, m') ∧ reachable m'.
Proof.
  intros Hne Hp. induction fuel as [|fuel IH]; intros i m Hm Hfuel; [lia|].
  destruct (decide (i < rowCount m)) as [Hlt|Hge].
  - destruct (lookup_lt_is_Some_2 (mRows m) i Hlt) as [row Hrow].
    destruct (row_cases c row) as [Hc|[(t & Ht & Hnc & Hold)|Hpass]].
    + rewrite (findCommit_loop_found fuel i c m row Hrow Hc). by do 2 eexists.
    + rewrite (findCommit_loop_cut fuel i c t m row Hrow Ht Hnc Hold).
      by do 2 eexists.
    + rewrite (findCommit_loop_continue fuel i c m row Hrow Hpass).
      assert (Hmore : ∃ m1, load_more i m = Some m1 ∧ reachable m1).
      { unfold load_more.
        destruct (bool_decide (i = rowCount m - 1) && canFetchMore m).
        - destruct (fetchMore_total m Hne Hp Hm) as [m1 Hf].
          exists m1. split; [done|]. by eapply reachable_fetch.
        - by exists m. }
      destruct Hmore as (m1 & Hmore & Hm1). rewrite Hmore. simpl.
      destruct (load_more_rows i m m1 Hmore) as (_ & _ & Htotal & _).
      apply IH; [done|]. lia.
  - rewrite (findCommit_loop_end fuel i c m) by lia. by do 2 eexists.
Qed.

(** X19: The search for a commit that is shown stays in the rows that are
    shown. Let row [j] be the first row whose commit is [c] or is older than
    [c]: [findCommit] returns [j] when the commit of the row is [c] and no
    index when it is an older commit (also when [c] has a row further down),
    and in both cases nothing is fetched. *)
Theorem findCommit_first_hit c t m (j : nat) (row : Row Commit QColor) :
  mRows m !! j = Some row →
  row_commit row = Some t →
  t = c ∨ older t c →
  (∀ k, k < j → passes m c k) →
  findCommit (Some c) m
  = Some (if bool_decide (t = c) then Some j else None, m).
Proof.
  intros Hrow Ht Hhit Hbefore. unfold findCommit.
  assert (Hloop : ∀ (fuel i : nat),
            i ≤ j → j - i < fuel →
            findCommit_loop fuel c i m
            = Some (if bool_decide (t = c) then Some j else None, m)).
  { induction fuel as [|fuel IH]; intros i Hi Hfuel; [lia|].
    destruct (decide (i = j)) as [->|Hij].
    - destruct (decide (t = c)) as [->|Hne].
      + rewrite bool_decide_eq_true_2 by done.
        by apply (findCommit_loop_found fuel j c m row).
      + rewrite bool_decide_eq_false_2 by done.
        destruct Hhit as [Heq|Hold]; [done|].
        by apply (findCommit_loop_cut fuel j c t m row).
    - assert (Hlt : i < length (mRows m))
        by (apply lookup_lt_Some in Hrow; lia).
      destruct (lookup_lt_is_Some_2 (mRows m) i Hlt) as [rowi Hrowi].
      rewrite (findCommit_loop_continue fuel i c m rowi Hrowi).
      + unfold load_more.
        rewrite (bool_decide_eq_false_2 (i = rowCount m - 1)).
        * simpl. apply IH; lia.
        * apply lookup_lt_Some in Hrow. unfold rowCount. lia.
      + intros t' Ht'. apply (Hbefore i ltac:(lia) rowi t' Hrowi Ht'). }
  apply Hloop; [lia|]. apply lookup_lt_Some in Hrow. unfold rowCount. lia.
Qed.

(** X20: The index that [findCommit] returns is the first row of the commit,
    in the model as the search leaves it, and no row before it is the row of
    an older commit; the search only appends rows to the model. *)
Theorem findCommit_sound c m m' (j : nat) :
  findCommit (Some c) m = Some (Some j, m') →
  data_CommitRole m' j = Some (Some c)
  ∧ (∀ k row, k < j → mRows m' !! k = Some row → row_commit row ≠ Some c)
  ∧ (∀ k row t, k < j → mRows m' !! k = Some row → row_commit row = Some t →
       ¬ older t c)
  ∧ ∃ new, mRows m' = mRows m ++ new.
Proof.
  unfold findCommit. intros Hloop.
  destruct (findCommit_loop_spec c _ 0 m (Some j) m' Hloop)
    as (Hrows & _ & _ & Hdata & Hbefore).
  split; [done|]. split; [|split; [|done]].
  - intros k row Hk Hrow Hc.
    by destruct (Hbefore k ltac:(lia) row c Hrow Hc).
  - intros k row t Hk Hrow Ht.
    by destruct (Hbefore k ltac:(lia) row t Hrow Ht).
Qed.

(** X21: [findCommit] returns: in a state that [resetWalker] and [fetchMore]
    reach, on a palette that is not empty and where no commit lists a parent
    twice, the loop ends within the rows and what the walker has left; the
    model it leaves is such a state again, with the rows it had and the rows
    that were fetched after them, and with the same commits shown and still to
    show. *)
Theorem findCommit_returns c m :
  branchTopologyEdges ≠ [] →
  (∀ c, NoDup (commit_parents c)) →
  reachable m →
  ∃ res m',
    findCommit (Some c) m = Some (res, m')
    ∧ reachable m'
    ∧ (∃ new, mRows m' = mRows m ++ new)
    ∧ history m' = history m.
Proof.
  intros Hne Hp Hm. unfold findCommit.
  destruct (findCommit_loop_returns c Hne Hp
              (S (rowCount m + length (default [] (mWalker m)))) 0 m Hm
              ltac:(lia)) as (res & m' & Hloop & Hm').
  destruct (findCommit_loop_spec c _ 0 m res m' Hloop) as (Hrows & Hhist & _).
  by exists res, m'.
Qed.

Lemma row_commits_lookup (rows : list (Row Commit QColor)) c :
  c ∈ row_commits rows →
  ∃ k row, rows !! k = Some row ∧ row_commit row = Some c.
Proof.
  unfold row_commits. intros Hin.
  apply list_elem_of_omap in Hin as (row & Hrow & Hc).
  apply list_elem_of_lookup_1 in Hrow as [k Hk]. by exists k, row.
Qed.

(** X22: [findCommit] finds a commit that the model has not fetched yet. In a
    state that [resetWalker] and [fetchMore] reach, with one row at least, let
    [c] be among the commits shown and still to show, with no older commit
    before it: [findCommit] fetches as far as its row and returns the index of
    that row. *)
Theorem findCommit_finds c m (n : nat) :
  branchTopologyEdges ≠ [] →
  (∀ c, NoDup (commit_parents c)) →
  reachable m →
  mRows m ≠ [] →
  history m !! n = Some c →
  (∀ k t, k < n → history m !! k = Some t → ¬ older t c) →
  ∃ (j : nat) m',
    findCommit (Some c) m = Some (Some j, m')
    ∧ data_CommitRole m' j = Some (Some c).
Proof.
  intros Hne Hp Hm Hrows Hn Hbefore. unfold findCommit.
  destruct (findCommit_loop_returns c Hne Hp
              (S (rowCount m + length (default [] (mWalker m)))) 0 m Hm
              ltac:(lia)) as (res & m' & Hloop & Hm').
  rewrite Hloop.
  destruct (findCommit_loop_spec c _ 0 m res m' Hloop)
    as (_ & Hhist & Hres).
  destruct res as [j|].
  { destruct Hres as (_ & Hdata & _). by exists j, m'. }
  exfalso. rewrite <- Hhist in Hn, Hbefore. clear Hloop Hhist.
  destruct Hres as [(j & row & t & _ & Hrow & Ht & Htc & Hold & Hpass)
                   |[Hall [[Hcount _]|Hnone]]].
  - unfold history in Hn, Hbefore.
    rewrite <- (take_drop_middle (mRows m') j row Hrow) in Hn, Hbefore.
    rewrite row_commits_app in Hn, Hbefore.
    unfold row_commits at 2 in Hn. unfold row_commits at 2 in Hbefore.
    simpl in Hn, Hbefore. rewrite Ht in Hn, Hbefore. simpl in Hn, Hbefore.
    rewrite <- !app_assoc in Hn, Hbefore. simpl in Hn, Hbefore.
    set (before := row_commits (take j (mRows m'))) in *.
    destruct (decide (n < length before)) as [Hlt|Hge].
    + rewrite lookup_app_l in Hn by done.
      apply list_elem_of_lookup_2, row_commits_lookup in Hn
        as (k & rowk & Hk & Hc).
      assert (Hkj : k < j).
      { apply lookup_lt_Some in Hk. rewrite length_take in Hk. lia. }
      rewrite lookup_take_lt in Hk by done.
      by destruct (Hpass k ltac:(lia) rowk c Hk Hc).
    + destruct (decide (n = length before)) as [->|Hgt].
      * rewrite list_lookup_middle in Hn by done. by inversion Hn.
      * apply (Hbefore (length before) t ltac:(lia)); [|done].
        by rewrite list_lookup_middle.
  - unfold rowCount in Hcount. destruct (mRows m); [done|simpl in Hcount; lia].
  - unfold history in Hn. rewrite Hnone in Hn. simpl in Hn.
    rewrite app_nil_r in Hn.
    apply list_elem_of_lookup_2, row_commits_lookup in Hn
      as (k & rowk & Hk & Hc).
    by destruct (Hall k ltac:(lia) rowk c Hk Hc).
Qed.

End FindCommit.

(** ** Instances of the further theorems *)

Lemma behind_repo_parents (c : nat) :
  NoDup (commit_parents (Repository := behind_repo) c).
Proof. destruct c; simpl; [constructor|apply NoDup_singleton]. Qed.

Lemma merge_repo_parents (c : nat) :
  NoDup (commit_parents (Repository := merge_repo) c).
Proof.
  do 4 (destruct c as [|c]; simpl;
        [first [ apply NoDup_nil_2 | apply NoDup_singleton
               | apply NoDup_cons; split;
                 [ intros Hin; apply list_elem_of_singleton in Hin;
                   discriminate Hin
                 | apply NoDup_singleton ] ]|]).
  apply NoDup_nil_2.
Qed.

Lemma chain_repo_parents (c : nat) :
  NoDup (commit_parents (Repository := chain_repo) c).
Proof. destruct c; simpl; [constructor|apply NoDup_singleton]. Qed.

Lemma behind_head_reachable :
  reachable (repo := behind_repo) (theme := two_colors) behind_head.
Proof.
  apply (reachable_reset (repo := behind_repo) (theme := two_colors)
           head_with_changes).
  vm_compute. reflexivity.
Qed.

Lemma fetchMore_appends_batch_witness :
  ∃ m' new,
    fetchMore (repo := behind_repo) (theme := two_colors) behind_head = Some m'
    ∧ mRows m' = mRows behind_head ++ new
    ∧ row_commit <$> new = Some <$> take 65 (default [] (mWalker behind_head))
    ∧ mWalker m'
      = (if bool_decide (65 ≤ length (default [] (mWalker behind_head)))
         then Some (drop 65 (default [] (mWalker behind_head))) else None)
    ∧ history m' = history behind_head.
Proof.
  apply (fetchMore_appends_batch (repo := behind_repo) (theme := two_colors)
           behind_head).
  - simpl. discriminate.
  - exact behind_repo_parents.
  - exact behind_head_reachable.
Defined.

Lemma resetWalker_fetches_first_page_witness :
  65 ≤ length (row_commits (mRows behind_head)).
Proof.
  apply (resetWalker_fetches_first_page (repo := behind_repo)
           (theme := two_colors) head_with_changes behind_head);
    vm_compute; reflexivity.
Defined.

Lemma lanes_unique_without_repeated_parent_witness :
  reachable (repo := behind_repo) (theme := two_colors) behind_head
  ∧ ∀ i j p q,
      mParents behind_head !! i = Some p → mParents behind_head !! j = Some q →
      commit p = commit q → i = j.
Proof.
  split; [exact behind_head_reachable|].
  apply (lanes_unique_without_repeated_parent (repo := behind_repo)
           (theme := two_colors) behind_head).
  - simpl. discriminate.
  - exact behind_repo_parents.
  - exact behind_head_reachable.
Defined.

Lemma tainted_lane_is_first_witness :
  mParents behind_head !! 0 = Some (mkParent 100 "#2a82da" true)
  ∧ (∀ k p, mParents behind_head !! k = Some p → tainted p = true →
       k = 0
       ∧ ∃ (r : unit) (col : string),
           nextColor (theme := two_colors) (@nil (Parent nat string))
           = Some col
           ∧ p = mkParent (target (Repository := behind_repo) r) col true)
  ∧ (∀ m0 k p,
       resetWalker (repo := behind_repo) (theme := two_colors) m0
       = Some behind_head →
       mParents behind_head !! k = Some p → tainted p = true →
       ∃ r : unit,
         mRef m0 = Some r ∧ commit p = target (Repository := behind_repo) r
         ∧ status_row_shown (repo := behind_repo) m0 = true
         ∧ mGraphVisible m0 && isFinished (mStatus m0) = true)
  ∧ (∀ m' k p,
       fetchMore (repo := behind_repo) (theme := two_colors) behind_head
       = Some m' →
       mParents m' !! k = Some p → tainted p = true →
       k = 0 ∧ mParents behind_head !! 0 = Some p).
Proof.
  split; [vm_compute; reflexivity|].
  apply (tainted_lane_is_first (repo := behind_repo) (theme := two_colors)
           behind_head).
  - simpl. discriminate.
  - exact behind_head_reachable.
Defined.

Lemma other_lanes_keep_place_witness :
  (∀ k p, three_lanes !! k = Some p → three_lanes !! k = Some p)
  ∧ ∀ k p, three_lanes !! k = Some p → k ≠ 1 →
      if decide (replacements_of (repo := merge_repo) [] [] three_lanes 8 = [])
      then delete 1 three_lanes !! (if bool_decide (k < 1) then k else k - 1)
           = Some p
      else delete 1 three_lanes !! k = Some p.
Proof.
  apply (other_lanes_keep_place (repo := merge_repo) (theme := two_colors)
           [] [] 8 three_lanes false three_lanes (delete 1 three_lanes) 1).
  - simpl. discriminate.
  - vm_compute. reflexivity.
  - vm_compute. reflexivity.
Defined.

Lemma lane_commit_has_no_row_witness :
  reachable (repo := behind_repo) (theme := two_colors) behind_head
  ∧ ∀ p, p ∈ mParents behind_head →
         commit p ∉ row_commits (mRows behind_head).
Proof.
  split; [exact behind_head_reachable|].
  apply (lane_commit_has_no_row (repo := behind_repo) (theme := two_colors)
           behind_head).
  - simpl. discriminate.
  - exact behind_repo_parents.
  - exact behind_head_reachable.
Defined.

Lemma columns_width_witness :
  length lanes_of_head ≤ length columns_of_merge_row
  ≤ length lanes_of_head `max` length lanes_after_merge.
Proof.
  apply (columns_width (repo := merge_repo) (theme := two_colors)
           3 lanes_of_head false lanes_after_merge columns_of_merge_row).
  vm_compute. reflexivity.
Defined.

Lemma columns_marks_witness :
  (Top ∈ segment <$> default [] (columns_of_merge_row !! 0)
   ↔ 0 < length lanes_of_head)
  ∧ (Dot ∈ segment <$> default [] (columns_of_merge_row !! 0)
     ↔ ∃ p, lanes_of_head !! 0 = Some p ∧ commit p = 3)
  ∧ (Middle ∈ segment <$> default [] (columns_of_merge_row !! 0)
     ↔ ∃ p, lanes_of_head !! 0 = Some p ∧ commit p ≠ 3)
  ∧ (∀ j, (segment <$> default [] (columns_of_merge_row !! 0)) !! j = Some Top
          → j = 0)
  ∧ ∀ j kind,
      (segment <$> default [] (columns_of_merge_row !! 0)) !! j = Some kind →
      kind = Dot ∨ kind = Middle →
      S j = length (default [] (columns_of_merge_row !! 0)).
Proof.
  apply (columns_marks (repo := merge_repo) (theme := two_colors)
           3 lanes_of_head false lanes_after_merge columns_of_merge_row 0
           (default [] (columns_of_merge_row !! 0)));
    vm_compute; reflexivity.
Defined.

Lemma hidden_graph_has_no_columns_witness :
  mRows merge_hidden ≠ []
  ∧ ∀ row, row ∈ mRows merge_hidden → row_columns row = [].
Proof.
  split; [intros H; vm_compute in H; discriminate H|].
  apply (hidden_graph_has_no_columns (repo := merge_repo)
           (theme := two_colors) hidden_graph merge_hidden);
    vm_compute; reflexivity.
Defined.

Lemma setPathspec_filters_witness :
  mPathspec merge_filtered = "src"
  ∧ ∀ row, row ∈ mRows merge_filtered →
           is_Some (row_commit row) ∧ row_columns row = [].
Proof.
  apply (setPathspec_filters (repo := merge_repo) (theme := two_colors)
           "src" merge_head merge_filtered).
  - discriminate.
  - intros H. vm_compute in H. discriminate H.
  - vm_compute. reflexivity.
Defined.

Lemma statusFinished_visible_witness :
  true = status_row_shown (repo := merge_repo) head_with_changes.
Proof.
  apply (statusFinished_visible (repo := merge_repo) (theme := two_colors)
           head_with_changes merge_head true).
  vm_compute. reflexivity.
Defined.

Lemma resetWalker_idempotent_witness :
  resetWalker (repo := merge_repo) (theme := two_colors) merge_head
  = Some merge_head.
Proof.
  apply (resetWalker_idempotent (repo := merge_repo) (theme := two_colors)
           head_with_changes merge_head).
  - simpl. by eexists.
  - vm_compute. reflexivity.
Defined.

Lemma updateRefs_value_witness :
  refs_value (default ∅ (updateRefs true detached_head some_refs)) 3
  = (if true && bool_decide (ref_target detached_head = Some 3)
     then [mkLabel (ref_name detached_head) true None] else [])
    ++ labels_of some_refs 3.
Proof.
  apply (proj2 (updateRefs_value true detached_head some_refs)).
  vm_compute. reflexivity.
Defined.

Lemma findCommit_first_hit_witness :
  findCommit (repo := chain_repo) (theme := two_colors)
             (signatures := dates_by_number) (Some 1) three_rows
  = Some (Some 1, three_rows).
Proof.
  apply (findCommit_first_hit (repo := chain_repo) (theme := two_colors)
           (signatures := dates_by_number) 1 1 three_rows 1
           (default (mkRow None []) (mRows three_rows !! 1))).
  - vm_compute. reflexivity.
  - vm_compute. reflexivity.
  - left. reflexivity.
  - intros k Hk row t Hrow Ht. destruct k as [|k]; [|lia].
    vm_compute in Hrow. inversion Hrow; subst row. simpl in Ht.
    inversion Ht; subst t. split; [discriminate|]. simpl. lia.
Defined.

Lemma findCommit_sound_witness :
  data_CommitRole three_rows 1 = Some (Some 1)
  ∧ (∀ k row, k < 1 → mRows three_rows !! k = Some row →
              row_commit row ≠ Some 1)
  ∧ (∀ k row t, k < 1 → mRows three_rows !! k = Some row →
                row_commit row = Some t →
                ¬ Z.lt (committer_date (Signatures := dates_by_number) t)
                       (committer_date (Signatures := dates_by_number) 1))
  ∧ ∃ new, mRows three_rows = mRows three_rows ++ new.
Proof.
  apply (findCommit_sound (repo := chain_repo) (theme := two_colors)
           (signatures := dates_by_number) 1 three_rows three_rows 1).
  vm_compute. reflexivity.
Defined.

Lemma findCommit_returns_witness :
  ∃ res m',
    findCommit (repo := behind_repo) (theme := two_colors)
               (signatures := dates_by_number) (Some 7) behind_head
    = Some (res, m')
    ∧ reachable (repo := behind_repo) (theme := two_colors) m'
    ∧ (∃ new, mRows m' = mRows behind_head ++ new)
    ∧ history m' = history behind_head.
Proof.
  apply (findCommit_returns (repo := behind_repo) (theme := two_colors)
           (signatures := dates_by_number) 7 behind_head).
  - simpl. discriminate.
  - exact behind_repo_parents.
  - exact behind_head_reachable.
Defined.

Lemma findCommit_finds_witness :
  history behind_head !! 192 = Some 7
  ∧ ∃ (j : nat) m',
      findCommit (repo := behind_repo) (theme := two_colors)
                 (signatures := dates_by_number) (Some 7) behind_head
      = Some (Some j, m')
      ∧ data_CommitRole m' j = Some (Some 7).
Proof.
  split; [vm_compute; reflexivity|].
  apply (findCommit_finds (repo := behind_repo) (theme := two_colors)
           (signatures := dates_by_number) 7 behind_head 192).
  - simpl. discriminate.
  - exact behind_repo_parents.
  - exact behind_head_reachable.
  - intros H. vm_compute in H. discriminate H.
  - vm_compute. reflexivity.
  - assert (Hall : Forall (λ t, 7 < t) (take 192 (history behind_head))).
    { apply (bool_decide_unpack _). vm_compute. exact I. }
    intros k t Hk Ht Hold.
    assert (Hin : t ∈ take 192 (history behind_head)).
    { apply (list_elem_of_lookup_2 _ k). by rewrite lookup_take_lt. }
    apply (proj1 (Forall_forall _ _) Hall) in Hin. simpl in Hold. lia.
Defined.

Lemma paths_end_in_the_lanes_of_the_next_row_witness :
  columns (repo := merge_repo) (theme := two_colors) 3 lanes_of_head false
          lanes_after_merge = Some columns_of_merge_row
  ∧ ∀ j, j < length lanes_after_merge
         ↔ ∃ col s, columns_of_merge_row !! j = Some col ∧ s ∈ col
                    ∧ segment s ∈ [Bottom; LeftIn; RightIn].
Proof.
  split; [vm_compute; reflexivity|].
  apply (paths_end_in_the_lanes_of_the_next_row (repo := merge_repo)
           (theme := two_colors) [] [] 3 lanes_of_head false lanes_of_head
           lanes_after_merge columns_of_merge_row).
  - simpl. discriminate.
  - apply NoDup_singleton.
  - exact (merge_repo_parents 3).
  - vm_compute. reflexivity.
  - vm_compute. reflexivity.
Defined.

Lemma rows_join_witness :
  ∃ upper lower,
    parent_row.2 = [] ++ [mkRow (Some 3) upper; mkRow (Some 1) lower]
    ∧ ∀ j,
        (∃ col s, lower !! j = Some col ∧ s ∈ col ∧ segment s = Top)
        ↔ (∃ col s, upper !! j = Some col ∧ s ∈ col
                    ∧ segment s ∈ [Bottom; LeftIn; RightIn]).
Proof.
  apply (rows_join (repo := merge_repo) (theme := two_colors) [] 3 1
           (lanes_of_head, []) merge_row parent_row).
  - simpl. discriminate.
  - apply NoDup_singleton.
  - exact (merge_repo_parents 3).
  - exact (merge_repo_parents 1).
  - vm_compute. reflexivity.
  - vm_compute. reflexivity.
Defined.

Lemma one_dot_per_row_witness :
  ∃ (i : nat) (lane : Parent nat string) (col : list (Segment string)),
    indexOf (repo := merge_repo) lanes_of_head 3 = Some i
    ∧ lanes_of_head !! i = Some lane
    ∧ columns_of_merge_row !! i = Some col
    ∧ last col
      = Some (mkSegment Dot (taintedColor (repo := merge_repo)
                               (theme := two_colors) lane None))
    ∧ ∀ k col', columns_of_merge_row !! k = Some col' →
                Dot ∈ segment <$> col' → k = i.
Proof.
  apply (one_dot_per_row (repo := merge_repo) (theme := two_colors)
           [] [] 3 lanes_of_head false lanes_of_head lanes_after_merge
           columns_of_merge_row).
  - simpl. discriminate.
  - apply NoDup_singleton.
  - exact (merge_repo_parents 3).
  - vm_compute. reflexivity.
  - vm_compute. reflexivity.
Defined.

Lemma resetWalker_first_page_witness :
  row_commits (mRows behind_head)
  = take 65 (ref_walk (Repository := behind_repo) ()
               (walker_sort head_with_changes) (mRefsAll head_with_changes)
               (mPathspec head_with_changes))
  ∧ default [] (mWalker behind_head)
    = drop 65 (ref_walk (Repository := behind_repo) ()
                 (walker_sort head_with_changes) (mRefsAll head_with_changes)
                 (mPathspec head_with_changes))
  ∧ (canFetchMore behind_head = true
     ↔ 65 ≤ length (ref_walk (Repository := behind_repo) ()
                      (walker_sort head_with_changes)
                      (mRefsAll head_with_changes)
                      (mPathspec head_with_changes))).
Proof.
  apply (resetWalker_first_page (repo := behind_repo) (theme := two_colors)
           head_with_changes behind_head ()).
  - vm_compute. reflexivity.
  - reflexivity.
Defined.

Lemma lines_keep_their_colour_witness :
  ∃ upper lower,
    parent_row.2 = [] ++ [mkRow (Some 3) upper; mkRow (Some 1) lower]
    ∧ ∀ (j : nat) (col : list (Segment string)) (s : Segment string),
        lower !! j = Some col → s ∈ col → segment s = Top →
        ∃ col' s',
          upper !! j = Some col' ∧ s' ∈ col'
          ∧ segment s' ∈ [Bottom; LeftIn; RightIn]
          ∧ segment_color s' = segment_color s.
Proof.
  apply (lines_keep_their_colour (repo := merge_repo) (theme := two_colors)
           [] 3 1 (lanes_of_head, []) merge_row parent_row).
  - simpl. discriminate.
  - apply NoDup_singleton.
  - exact (merge_repo_parents 3).
  - exact (merge_repo_parents 1).
  - vm_compute. reflexivity.
  - vm_compute. reflexivity.
Defined.

